(** * A shallow embedding of the graph-grammar engine of model_gen

    Python objects (vertices, edges, faces and graphs) live in a heap
    [gmap nat obj]; an object reference is its [nat] address, and object
    identity (Python [is] / default [==] / [hash]) is equality of
    addresses.  Python sets and dicts are modelled as lists in their
    iteration order; a dict is an association list kept free of repeated
    keys by [dset], in insertion order, as CPython dicts are.  Exceptions
    are the [Err] case of a small error monad [res]. *)

From Stdlib Require Import ZArith String List Bool Lia Permutation QArith.
From stdpp Require Import base gmap list strings.

Open Scope nat_scope.

(** ** Exceptions and the error monad *)

Inductive exn :=
  | IncongruentGraphState   (* ModelGenIncongruentGraphStateError *)
  | ArgumentError           (* ModelGenArgumentError *)
  | KeyError
  | TypeError
  | ValueError
  | AttributeError
  | StopIteration
  | OutOfFuel.              (* exhaustion of the fuel of a model loop *)

Global Instance exn_eq_dec : EqDecision exn.
Proof. solve_decision. Defined.

Inductive res (A : Type) := Ok (a : A) | Err (e : exn).
Arguments Ok {A} a.
Arguments Err {A} e.

Definition res_bind {A B} (m : res A) (k : A -> res B) : res B :=
  match m with Ok a => k a | Err e => Err e end.

Notation "x <- m ;; k" := (res_bind m (fun x => k))
  (at level 100, m at next level, right associativity).

(** ** Python values, dicts and sets *)

Inductive value :=
  | VNone
  | VBool (b : bool)
  | VInt (z : Z)
  | VStr (s : string).

Global Instance value_eq_dec : EqDecision value.
Proof. solve_decision. Defined.

(** Python truthiness. *)
Definition truthy (v : value) : bool :=
  match v with
  | VNone => false
  | VBool b => b
  | VInt z => negb (Z.eqb z 0)
  | VStr s => negb (String.eqb s "")
  end.

Section Dicts.
Context {K V : Type} `{EqDecision K}.

(** [d[k]] *)
Fixpoint dget (k : K) (d : list (K * V)) : option V :=
  match d with
  | [] => None
  | (k', v) :: d' => if decide (k = k') then Some v else dget k d'
  end.

(** [d[k] = v]: an existing key keeps its place, a new one goes last. *)
Fixpoint dset (k : K) (v : V) (d : list (K * V)) : list (K * V) :=
  match d with
  | [] => [(k, v)]
  | (k', v') :: d' =>
      if decide (k = k') then (k, v) :: d' else (k', v') :: dset k v d'
  end.

Definition dkeys (d : list (K * V)) : list K := map fst d.
Definition dvals (d : list (K * V)) : list V := map snd d.

(** [{k1: v, k2: v, ...}] built key by key. *)
Definition dfrom (l : list (K * V)) : list (K * V) :=
  fold_left (fun acc kv => dset kv.1 kv.2 acc) l [].

(** Dict equality [d1 == d2]: same keys, same values, any order. *)
Definition deqb `{EqDecision V} (d1 d2 : list (K * V)) : bool :=
  forallb (fun k => bool_decide (dget k d1 = dget k d2)) (dkeys d1 ++ dkeys d2).
End Dicts.

(** A Python [set] of object references: [s.add(x)] and [s.remove(x)]. *)
Definition set_add (x : nat) (s : list nat) : list nat :=
  if decide (x ∈ s) then s else s ++ [x].

Fixpoint list_remove (x : nat) (l : list nat) : list nat :=
  match l with
  | [] => []
  | y :: l' => if decide (x = y) then l' else y :: list_remove x l'
  end.

(** [s.remove(x)] for a set, and [l.remove(x)] for a list (first
    occurrence); both raise when [x] is absent. *)
Definition py_remove (x : nat) (l : list nat) : res (list nat) :=
  if decide (x ∈ l) then Ok (list_remove x l)
  else Err ValueError.

Definition set_remove (x : nat) (s : list nat) : res (list nat) :=
  if decide (x ∈ s) then Ok (list_remove x s) else Err KeyError.

(** ** Graph elements and graphs (graph.py) *)

Abbreviation attrs := (list (string * value)).

(** [Vertex]: [attr] and the set [edges] of incident edges. *)
Record vertex := mkVertex { v_attr : attrs; v_edges : list nat }.

(** [Edge]: [attr] and two optional endpoints [vertex1], [vertex2]. *)
Record edge := mkEdge { e_attr : attrs; e_v1 : option nat; e_v2 : option nat }.

(** [Face]: [attr], [_vertices] and [_edges]. *)
Record face := mkFace { f_attr : attrs; f_vertices : list nat; f_edges : list nat }.

(** [Graph]: the three element lists. *)
Record graph := mkGraph {
  g_vertices : list nat; g_edges : list nat; g_faces : list nat }.

Inductive obj :=
  | OVertex (v : vertex)
  | OEdge (e : edge)
  | OFace (f : face)
  | OGraph (g : graph).

Abbreviation heap := (gmap nat obj).

Definition opt_list (o : option nat) : list nat :=
  match o with Some x => [x] | None => [] end.

(** [Edge.get_neighbour_vertices] *)
Definition edge_nbrs (e : edge) : list nat := opt_list (e_v1 e) ++ opt_list (e_v2 e).

(** [neighbours()] of the three element classes; references to objects
    that are not graph elements are never stored by the code, the model
    gives them no neighbours. *)
Definition obj_nbrs (o : obj) : list nat :=
  match o with
  | OVertex v => v_edges v
  | OEdge e => edge_nbrs e
  | OFace f => f_vertices f ++ f_edges f
  | OGraph _ => []
  end.

Definition nbrs (h : heap) (x : nat) : list nat :=
  match h !! x with Some o => obj_nbrs o | None => [] end.

Definition is_element (h : heap) (x : nat) : bool :=
  match h !! x with
  | Some (OVertex _) | Some (OEdge _) | Some (OFace _) => true
  | _ => false
  end.

Definition is_vertex (h : heap) (x : nat) : bool :=
  match h !! x with Some (OVertex _) => true | _ => false end.

Definition is_edge (h : heap) (x : nat) : bool :=
  match h !! x with Some (OEdge _) => true | _ => false end.

Definition elem_attr (h : heap) (x : nat) : option attrs :=
  match h !! x with
  | Some (OVertex v) => Some (v_attr v)
  | Some (OEdge e) => Some (e_attr e)
  | Some (OFace f) => Some (f_attr f)
  | _ => None
  end.

(** [len(graph)] *)
Definition graph_len (g : graph) : nat :=
  length (g_vertices g) + length (g_edges g) + length (g_faces g).

(** ** Attribute matching: [GraphElement.matches] and its overrides *)

(** [eval(pattern_value)] run inside [matching_function(attr, attrs)]:
    the pattern's value, the candidate's value for the key ([attr]) and
    the candidate's attribute dict ([attrs]) give the value of the
    expression, or the exception it raises. *)
Definition evaluator := value -> value -> attrs -> res value.

(** Keys left out of the comparison: [x], [y] and the [.] prefix. *)
Definition skip_key (k : string) : bool :=
  String.eqb k "x" || String.eqb k "y" || String.prefix "." k.

(** The loop of [GraphElement.matches] over the pattern's keys, with
    its [except KeyError: return False]. *)
Fixpoint attrs_match (ev : evaluator) (eval_attr : bool) (cand pat : attrs) : res bool :=
  match pat with
  | [] => Ok true
  | (k, pv) :: pat' =>
      if skip_key k then attrs_match ev eval_attr cand pat'
      else match dget k cand with
           | None => Ok false
           | Some cv =>
               if eval_attr then
                 match ev pv cv cand with
                 | Ok r => if truthy r then attrs_match ev eval_attr cand pat' else Ok false
                 | Err KeyError => Ok false
                 | Err e => Err e
                 end
               else if decide (cv = pv) then attrs_match ev eval_attr cand pat'
                    else Ok false
           end
  end.

(** [self.matches(graph_element[, eval_attr])]: [eval_arg] is [None]
    when the call passes no [eval_attr] argument.  [Vertex.matches] and
    [Edge.matches] take it with default [False]; [Face.matches] takes
    none. *)
Definition elem_matches (h : heap) (ev : evaluator) (self other : nat)
    (eval_arg : option bool) : res bool :=
  let ea := default false eval_arg in
  match h !! self with
  | Some (OVertex v) =>
      if negb (is_element h other) then Err ArgumentError
      else match h !! other with
           | Some (OVertex pv) => attrs_match ev ea (v_attr v) (v_attr pv)
           | _ => Ok false
           end
  | Some (OEdge e) =>
      if negb (is_element h other) then Err ArgumentError
      else match h !! other with
           | Some (OEdge pe) => attrs_match ev ea (e_attr e) (e_attr pe)
           | _ => Ok false
           end
  | Some (OFace f) =>
      match eval_arg with
      | Some _ => Err TypeError
      | None =>
          match h !! other with
          | Some (OFace pf) => attrs_match ev false (f_attr f) (f_attr pf)
          | _ => Ok false
          end
      end
  | _ => Err AttributeError
  end.

(** ** [Graph.AllElemIter]: the "connected" iteration order *)

Record iter_state := mkIter { it_marked : list nat; it_unvisited : list nat }.

(** [_get_first_element]; its third test repeats [len(edges) > 0], as
    the source does. *)
Definition first_element (g : graph) : option nat :=
  match g_vertices g with
  | x :: _ => Some x
  | [] =>
      match g_edges g with
      | x :: _ => Some x
      | [] => match g_edges g with _ :: _ => head (g_faces g) | [] => None end
      end
  end.

(** The [popleft] loop of [__next__]: the first unmarked element of the
    deque, everything before it dropped. *)
Fixpoint pop_unmarked (marked unv : list nat) : option nat * list nat :=
  match unv with
  | [] => (None, [])
  | x :: r => if decide (x ∈ marked) then pop_unmarked marked r else (Some x, r)
  end.

(** [_get_unconnected_element]: the first unmarked vertex, else the
    first unmarked edge; [raise StopIteration] when [len(marked) < total]
    fails or when no vertex or edge is left unmarked. *)
Definition unconnected (g : graph) (total : nat) (marked : list nat) : res nat :=
  if length marked <? total then
    match find (fun v => negb (bool_decide (v ∈ marked))) (g_vertices g) with
    | Some v => Ok v
    | None =>
        match find (fun e => negb (bool_decide (e ∈ marked))) (g_edges g) with
        | Some e => Ok e
        | None => Err StopIteration
        end
    end
  else Err StopIteration.

(** [AllElemIter.__next__]; [_marked] is a set, kept here as the list of
    the elements in the order they were added (each is added once). *)
Definition iter_next (h : heap) (g : graph) (total : nat) (st : iter_state)
    : res (nat * iter_state) :=
  let '(el, unv) := pop_unmarked (it_marked st) (it_unvisited st) in
  x <- match el with Some x => Ok x | None => unconnected g total (it_marked st) end ;;
  let marked := it_marked st ++ [x] in
  Ok (x, mkIter marked (unv ++ List.filter (fun n => negb (bool_decide (n ∈ marked))) (nbrs h x))).

Definition iter_total (g : graph) : nat := length (g_vertices g) + length (g_edges g).

Definition iter_init (g : graph) : iter_state := mkIter [] (opt_list (first_element g)).

(** A [for] loop over [AllElemIter] until [StopIteration]. *)
Fixpoint iter_run (h : heap) (g : graph) (fuel : nat) (st : iter_state) : res (list nat) :=
  match fuel with
  | 0 => Err OutOfFuel
  | S f =>
      match iter_next h g (iter_total g) st with
      | Err StopIteration => Ok []
      | Err e => Err e
      | Ok (x, st') => xs <- iter_run h g f st' ;; Ok (x :: xs)
      end
  end.

(** [list(graph)] / [for element in graph]; every step marks a new
    object, so the fuel covers every object reachable in the heap. *)
Definition graph_iter (h : heap) (g : graph) : res (list nat) :=
  iter_run h g (S (iter_total g + size h)) (iter_init g).

(** [Graph.element_list(order)] *)
Definition element_list (h : heap) (g : graph) (order : string) : res (list nat) :=
  if String.eqb order "connected" then graph_iter h g
  else if String.eqb order "vef" then Ok (g_vertices g ++ g_edges g ++ g_faces g)
  else Err ValueError.

(** [Graph.get_any_element]: the first element of the iteration. *)
Definition get_any_element (h : heap) (g : graph) : res (option nat) :=
  match iter_next h g (iter_total g) (iter_init g) with
  | Ok (x, _) => Ok (Some x)
  | Err StopIteration => Ok None
  | Err e => Err e
  end.

(** ** [Mapping] (utils.py): a dict with its [inverse] dict *)

Record mapping := mkMapping { m_items : list (nat * nat); m_inv : list (nat * nat) }.

(** [Mapping(d)]: the items copied, [inverse[value] = key] rebuilt. *)
Definition mapping_of (items : list (nat * nat)) : mapping :=
  mkMapping items (dfrom (map (fun kv => (kv.2, kv.1)) items)).

(** [m[k] = v] ([UniqueBidict.__setitem__]) *)
Definition mapping_set (k v : nat) (m : mapping) : mapping :=
  mkMapping (dset k v (m_items m)) (dset v k (m_inv m)).

(** [Mapping.__eq__]: [self.__dict__ == other.__dict__]; the only
    instance attribute is [inverse]. *)
Definition mapping_eqb (m1 m2 : mapping) : bool := deqb (m_inv m1) (m_inv m2).

(** ** The matcher: [Graph.match] with [geometric_order=None] *)

(** A task: the partial mapping and [unmapped_elements]
    (pattern element -> its already mapped parent). *)
Definition task : Type := mapping * list (nat * nat).

(** The test for directed pattern edges at the head of the candidate loop:
    [Ok false] is its [continue]. *)
Definition directed_ok (h : heap) (other other_parent own own_parent : nat) : res bool :=
  match h !! other with
  | Some (OEdge pe) =>
      match dget ".directed"%string (e_attr pe) with
      | Some d =>
          if truthy d then
            if decide (e_v1 pe = Some other_parent) then
              match h !! own with
              | Some (OEdge he) => Ok (bool_decide (e_v1 he = Some own_parent))
              | _ => Err AttributeError
              end
            else if decide (e_v2 pe = Some other_parent) then
              match h !! own with
              | Some (OEdge he) => Ok (bool_decide (e_v2 he = Some own_parent))
              | _ => Err AttributeError
              end
            else Err IncongruentGraphState
          else Ok true
      | None => Ok true
      end
  | _ => Ok true
  end.

(** [Graph.matched_neighbours_compatible(matching, own, other)] *)
Definition compatible (h : heap) (m : mapping) (own other : nat) : bool :=
  forallb (fun n => match dget n (m_items m) with
                    | Some img => bool_decide (img ∈ nbrs h own)
                    | None => true
                    end) (nbrs h other).

(** [Graph.check_matching(matching)] *)
Fixpoint check_nbrs (h : heap) (items : list (nat * nat)) (hv : nat) (l : list nat) : res bool :=
  match l with
  | [] => Ok true
  | mn :: l' =>
      match dget mn items with
      | None => Err KeyError
      | Some img => if bool_decide (img ∈ nbrs h hv) then check_nbrs h items hv l' else Ok false
      end
  end.

Fixpoint check_items (h : heap) (items l : list (nat * nat)) : res bool :=
  match l with
  | [] => Ok true
  | (mk, hv) :: l' =>
      b <- check_nbrs h items hv (nbrs h mk) ;;
      if b then check_items h items l' else Ok false
  end.

Definition check_matching (h : heap) (m : mapping) : res bool :=
  check_items h (m_items m) (m_items m).

(** The loop over [own_element_parent.neighbours()] building
    [possible_new_mappings]. *)
Fixpoint candidates (h : heap) (ev : evaluator) (ea : bool) (m : mapping)
    (other other_parent own_parent : nat) (l : list nat) : res (list mapping) :=
  match l with
  | [] => Ok []
  | own :: l' =>
      d <- directed_ok h other other_parent own own_parent ;;
      if negb d then candidates h ev ea m other other_parent own_parent l' else
      if decide (own ∈ dvals (m_items m)) then candidates h ev ea m other other_parent own_parent l' else
      mt <- elem_matches h ev own other (Some ea) ;;
      if negb mt then candidates h ev ea m other other_parent own_parent l' else
      if negb (compatible h m own other) then candidates h ev ea m other other_parent own_parent l' else
      rest <- candidates h ev ea m other other_parent own_parent l' ;;
      Ok (mapping_set other own (mapping_of (m_items m)) :: rest)
  end.

(** [new_unmapped_elements]: the popped frontier extended with the
    neighbours of [other] not in the mapping. *)
Definition extend_frontier (h : heap) (m : mapping) (other : nat)
    (un : list (nat * nat)) : list (nat * nat) :=
  fold_left (fun acc n => if decide (n ∈ dkeys (m_items m)) then acc else dset n other acc)
    (nbrs h other) un.

(** One turn of the [while len(task_list) > 0] loop on the popped task
    [t]; [rest] is the task stack below it (its head is the next
    [pop()]), [results] the matches found so far. *)
Definition match_step (h : heap) (ev : evaluator) (ea : bool) (lenP : nat)
    (t : task) (rest : list task) (results : list mapping)
    : res (list task * list mapping) :=
  let '(m, un) := t in
  if (length (m_items m) =? lenP) && (length un =? 0) then
    ok <- check_matching h m ;;
    if negb ok then Err IncongruentGraphState
    else Ok (rest, if existsb (fun r => mapping_eqb r m) results then results else results ++ [m])
  else if length (m_items m) =? lenP then Err ValueError
  else match last un with
       | None => Err ValueError
       | Some (other, parent) =>
           own_parent <- match dget parent (m_items m) with Some x => Ok x | None => Err KeyError end ;;
           poss <- candidates h ev ea m other parent own_parent (nbrs h own_parent) ;;
           match poss with
           | [] => Ok (rest, results)
           | _ => let nu := extend_frontier h m other (removelast un) in
                  Ok (rev (map (fun nm => (nm, nu)) poss) ++ rest, results)
           end
       end.

Fixpoint match_loop (h : heap) (ev : evaluator) (ea : bool) (lenP : nat) (fuel : nat)
    (tasks : list task) (results : list mapping) : res (list mapping) :=
  match fuel with
  | 0 => Err OutOfFuel
  | S f =>
      match tasks with
      | [] => Ok results
      | t :: rest =>
          r <- match_step h ev ea lenP t rest results ;;
          match_loop h ev ea lenP f r.1 r.2
      end
  end.

(** The first loop of [match]: one task per host element (in iteration
    order) matching the anchor [other]. *)
Fixpoint init_loop (h : heap) (ev : evaluator) (ea : bool) (other : nat) (g : graph)
    (fuel : nat) (st : iter_state) : res (list task) :=
  match fuel with
  | 0 => Err OutOfFuel
  | S f =>
      match iter_next h g (iter_total g) st with
      | Err StopIteration => Ok []
      | Err e => Err e
      | Ok (own, st') =>
          b <- elem_matches h ev own other (Some ea) ;;
          rest <- init_loop h ev ea other g f st' ;;
          Ok (if b then (mapping_of [(other, own)], dfrom (map (fun e => (e, other)) (nbrs h other))) :: rest
              else rest)
      end
  end.

(** Fuel of the task loop: every turn either drops a task or replaces a
    task whose mapping has [k] elements by at most [max_nbrs h] tasks
    with [k+1] elements. *)
Definition max_nbrs (h : heap) : nat :=
  foldr Nat.max 0 (map (fun kv => length (obj_nbrs kv.2)) (map_to_list h)).

Fixpoint task_weight (b d : nat) : nat :=
  match d with 0 => 1 | S d' => 1 + b * task_weight b d' end.

Definition match_fuel (h : heap) (P : graph) (ntasks : nat) : nat :=
  S (ntasks * task_weight (max_nbrs h) (graph_len P)).

(** [host.match(pattern, eval_attrs)] *)
Definition graph_match (h : heap) (ev : evaluator) (H P : graph) (ea : bool)
    : res (list mapping) :=
  anchor <- get_any_element h P ;;
  match anchor with
  | None => Ok []
  | Some other =>
      tasks <- init_loop h ev ea other H (S (iter_total H + size h)) (iter_init H) ;;
      match_loop h ev ea (graph_len P) (match_fuel h P (length tasks)) (rev tasks) []
  end.

(** ** [ProductionOption.__init__] (productions.py): the partition *)

Record prod_option := mkProdOption {
  to_remove : list nat;
  to_change : list nat;
  edge_conn_to_remove : list (nat * nat);
  to_add : list nat }.

(** The pairs [(element, vertex)] appended for a mapped mother edge
    [element] whose image is [d_element]. *)
Definition edge_conns (h : heap) (f : mapping) (element d_element : nat) : list (nat * nat) :=
  map (fun v => (element, v))
    (List.filter (fun v => match dget v (m_items f) with
                      | Some dv => negb (bool_decide (dv ∈ nbrs h d_element))
                      | None => false
                      end) (nbrs h element)).

(** The [for element in mother_elements] loop: [(to_remove, to_change,
    edge_conn_to_remove)]. *)
Fixpoint partition_loop (h : heap) (f : mapping) (l : list nat)
    : list nat * list nat * list (nat * nat) :=
  match l with
  | [] => ([], [], [])
  | el :: l' =>
      let '(rm, ch, ecr) := partition_loop h f l' in
      match dget el (m_items f) with
      | Some d => (rm, d :: ch, (if is_edge h el then edge_conns h f el d else []) ++ ecr)
      | None => (el :: rm, ch, ecr)
      end
  end.

Definition make_option (h : heap) (M : graph) (f : mapping) (D : graph) : prod_option :=
  let mother_elements := g_vertices M ++ g_edges M ++ g_faces M in
  let daughter_elements := g_vertices D ++ g_edges D ++ g_faces D in
  let '(rm, ch, ecr) := partition_loop h f mother_elements in
  mkProdOption rm ch ecr
    (List.filter (fun x => negb (bool_decide (x ∈ dkeys (m_inv f)))) daughter_elements).

(** ** [ProductionApplicationHierarchy.map] *)

(** A level: an [int] or a key of [hierarchy_alias]. *)
Inductive level := LInt (z : Z) | LStr (s : string).

Record hierarchy := mkHierarchy {
  host_to_result : mapping;
  mother_to_host : mapping;
  mother_to_daughter : mapping;
  daughter_to_copy : mapping }.

Definition hierarchy_alias : list (string * Z) :=
  [("R", 0%Z); ("H", 1%Z); ("M", 2%Z); ("D", 3%Z); ("C", 4%Z)]%string.

(** [self.movements[level][up or down]]; [None] stands for the two
    [None] entries of the table. *)
Definition movement (hy : hierarchy) (lvl : Z) (up : bool) : option (list (nat * nat)) :=
  match lvl, up with
  | 0%Z, true => Some (m_inv (host_to_result hy))
  | 1%Z, true => Some (m_inv (mother_to_host hy))
  | 1%Z, false => Some (m_items (host_to_result hy))
  | 2%Z, true => Some (m_items (mother_to_daughter hy))
  | 2%Z, false => Some (m_items (mother_to_host hy))
  | 3%Z, true => Some (m_items (daughter_to_copy hy))
  | 3%Z, false => Some (m_inv (mother_to_daughter hy))
  | 4%Z, false => Some (m_inv (daughter_to_copy hy))
  | _, _ => None
  end.

Definition resolve_level (l : level) : res Z :=
  match l with
  | LInt z => Ok z
  | LStr s => match dget s hierarchy_alias with Some z => Ok z | None => Err KeyError end
  end.

(** [map] once both levels are ints; [fuel] bounds the recursion, one
    call per level crossed. *)
Fixpoint hmap_go (hy : hierarchy) (fuel : nat) (el : nat) (s t : Z) : res (option nat) :=
  match fuel with
  | 0 => Err OutOfFuel
  | S f =>
      if (t <? 0)%Z || (4 <? t)%Z then Err ArgumentError
      else if (s <? 0)%Z || (4 <? s)%Z then Err ArgumentError
      else if Z.eqb s t then Ok (Some el)
      else
        let up := Z.ltb s t in
        let ns := if up then (s + 1)%Z else (s - 1)%Z in
        match movement hy s up with
        | None => Err TypeError                 (* None[element] *)
        | Some d =>
            match dget el d with
            | None => Ok None                     (* except KeyError: return None *)
            | Some r => hmap_go hy f r ns t
            end
        end
  end.

(** [hierarchy.map(element, source_level, target_level)] *)
Definition hmap (hy : hierarchy) (el : nat) (sl tl : level) : res (option nat) :=
  s <- resolve_level sl ;;
  t <- resolve_level tl ;;
  hmap_go hy 5 el s t.

(** ** [Grammar.apply] and [Grammar._find_matching_production] *)

(** Keys of [max_steps] and [step_counts]: a priority, the string
    ['all'], or the builtin function [all] of the default argument. *)
Inductive step_key := SKPrio (p : Z) | SKAll | SKBuiltinAll.

Global Instance step_key_eq_dec : EqDecision step_key.
Proof. solve_decision. Defined.

(** [sorted(keys)] on the priorities. *)
Fixpoint insert_sorted (z : Z) (l : list Z) : list Z :=
  match l with
  | [] => [z]
  | y :: l' => if (z <=? y)%Z then z :: l else y :: insert_sorted z l'
  end.

Definition sort_Z (l : list Z) : list Z := foldr insert_sorted [] l.

(** [x[i], x[j] = x[j], x[i]] *)
Definition swap {A} (x : list A) (i j : nat) : list A :=
  match x !! i, x !! j with
  | Some a, Some b => <[j := a]> (<[i := b]> x)
  | _, _ => x
  end.

Section Grammar.
(** Productions, host graphs and matches are kept abstract: the loop
    only calls [production.match], [production.priority] and the
    application step. *)
Context {Prod G M Rng : Type}.
(** [random.randbelow(n)] on the generator state. *)
Variable randbelow : Rng -> nat -> nat * Rng.
Variable priority : Prod -> Z.
(** [production.match(host)] *)
Variable pmatch : Prod -> G -> res (list M).
(** [production.select_option()], [_select_match] and
    [production.apply(host, match)]. *)
Variable papply : Prod -> G -> list M -> Rng -> res (G * Rng).

(** [random.shuffle]: [for i in reversed(range(1, len(x)))]. *)
Fixpoint shuffle_go (r : Rng) (i : nat) (x : list Prod) : list Prod * Rng :=
  match i with
  | 0 => (x, r)
  | S i' => let '(j, r') := randbelow r (S i) in shuffle_go r' i' (swap x i j)
  end.

(** [randomly(objects)] *)
Definition randomly (r : Rng) (x : list Prod) : list Prod * Rng :=
  shuffle_go r (pred (length x)) x.

(** [self.grouped_productions]: [setdefault(priority, []).append]. *)
Definition group_productions (ps : list Prod) : list (Z * list Prod) :=
  fold_left (fun acc p =>
    match dget (priority p) acc with
    | Some l => dset (priority p) (l ++ [p]) acc
    | None => dset (priority p) [p] acc
    end) ps [].

(** The inner [for production in randomly(...)] loop. *)
Fixpoint find_in_group (ps : list Prod) (g : G) : res (option (Prod * list M)) :=
  match ps with
  | [] => Ok None
  | p :: ps' =>
      ms <- pmatch p g ;;
      match ms with
      | [] => find_in_group ps' g
      | _ => Ok (Some (p, ms))
      end
  end.

Definition count (sc : list (step_key * nat)) (k : step_key) : nat :=
  default 0 (dget k sc).

(** [_find_matching_production(target, step_counts, max_steps)]
    over the sorted priorities [prios]. *)
Fixpoint find_prod (groups : list (Z * list Prod)) (g : G)
    (sc : list (step_key * nat)) (maxs : list (step_key * nat))
    (r : Rng) (prios : list Z) : res (option (Prod * list M) * Rng) :=
  match prios with
  | [] => Ok (None, r)
  | pr :: prios' =>
      let capped := match dget (SKPrio pr) maxs with
                    | Some cap => cap <=? count sc (SKPrio pr)
                    | None => false
                    end in
      if capped then find_prod groups g sc maxs r prios'
      else
        let '(ps, r') := randomly r (default [] (dget pr groups)) in
        found <- find_in_group ps g ;;
        match found with
        | Some pm => Ok (Some pm, r')
        | None => find_prod groups g sc maxs r' prios'
        end
  end.

(** The [while True] loop of [apply]; [fuel] bounds the number of
    derivation steps. *)
Fixpoint apply_loop (groups : list (Z * list Prod)) (maxs : list (step_key * nat))
    (fuel : nat) (g : G) (sc : list (step_key * nat)) (r : Rng) (results : list G)
    : res (list G) :=
  match fuel with
  | 0 => Err OutOfFuel
  | S f =>
      x <- find_prod groups g sc maxs r (sort_Z (dkeys groups)) ;;
      let '(found, r1) := x in
      match found with
      | None => Ok results
      | Some (p, ms) =>
          y <- papply p g ms r1 ;;
          let '(g', r2) := y in
          let sc1 := dset SKAll (S (count sc SKAll)) sc in
          let sc2 := dset (SKPrio (priority p)) (S (count sc1 (SKPrio (priority p)))) sc1 in
          cap <- match dget SKAll maxs with Some c => Ok c | None => Err KeyError end ;;
          if negb (cap =? 0) && (cap <=? count sc2 SKAll)
          then Ok (results ++ [g'])
          else apply_loop groups maxs f g' sc2 r2 (results ++ [g'])
      end
  end.

(** [grammar.apply(target, max_steps)]; [global_vars] is [None] when the
    grammar was built without it ([None.items()] raises). *)
Definition grammar_apply (ps : list Prod) (global_vars : option (list (string * string)))
    (fuel : nat) (target : G) (max_steps : option (list (step_key * nat))) (r : Rng)
    : res (list G) :=
  let maxs := default [(SKBuiltinAll, 0)] max_steps in
  let groups := group_productions ps in
  match global_vars with
  | None => Err AttributeError
  | Some _ =>
      let sc := dset SKAll 0 (map (fun pr => (SKPrio pr, 0)) (dkeys groups)) in
      apply_loop groups maxs fuel target sc r []
  end.
End Grammar.

(** ** [add_to] and [delete_from] of vertices and edges *)

(** [x in ignore_errors]; the default [None] is not a container. *)
Definition in_ignore (x : nat) (ign : option (list nat)) : res bool :=
  match ign with
  | None => Err TypeError
  | Some l => Ok (bool_decide (x ∈ l))
  end.

Definition get_graph (h : heap) (gid : nat) : res graph :=
  match h !! gid with Some (OGraph g) => Ok g | _ => Err AttributeError end.

Definition get_vertex (h : heap) (x : nat) : res vertex :=
  match h !! x with Some (OVertex v) => Ok v | _ => Err AttributeError end.

Definition get_edge (h : heap) (x : nat) : res edge :=
  match h !! x with Some (OEdge e) => Ok e | _ => Err AttributeError end.

Definition set_vertices (g : graph) (vs : list nat) : graph := mkGraph vs (g_edges g) (g_faces g).
Definition set_edges (g : graph) (es : list nat) : graph := mkGraph (g_vertices g) es (g_faces g).
Definition set_v1 (e : edge) (o : option nat) : edge := mkEdge (e_attr e) o (e_v2 e).
Definition set_v2 (e : edge) (o : option nat) : edge := mkEdge (e_attr e) (e_v1 e) o.
Definition set_vedges (v : vertex) (es : list nat) : vertex := mkVertex (v_attr v) es.

(** The loop of [Vertex.add_to] over [self.edges]. *)
Fixpoint vadd_loop (h : heap) (self gid : nat) (ign : option (list nat)) (es : list nat) : res heap :=
  match es with
  | [] => Ok h
  | e :: es' =>
      g <- get_graph h gid ;;
      bad <- (if bool_decide (e ∈ g_edges g) then Ok false
              else (b <- in_ignore e ign ;; Ok (negb b))) ;;
      if bad then Err IncongruentGraphState else
      ed <- get_edge h e ;;
      if decide (self ∈ edge_nbrs ed) then vadd_loop h self gid ign es'
      else if decide (e_v1 ed = None) then vadd_loop (<[e := OEdge (set_v1 ed (Some self))]> h) self gid ign es'
      else if decide (e_v2 ed = None) then vadd_loop (<[e := OEdge (set_v2 ed (Some self))]> h) self gid ign es'
      else b <- in_ignore e ign ;;
           if b then vadd_loop h self gid ign es' else Err IncongruentGraphState
  end.

(** [Vertex.add_to(graph, ignore_errors)] *)
Definition vertex_add_to (h : heap) (self gid : nat) (ign : option (list nat)) : res heap :=
  g <- get_graph h gid ;;
  v <- get_vertex h self ;;
  let h1 := <[gid := OGraph (set_vertices g (g_vertices g ++ [self]))]> h in
  vadd_loop h1 self gid ign (v_edges v).

(** The loop of [Edge.add_to] over [get_neighbour_vertices()]. *)
Fixpoint eadd_loop (h : heap) (self gid : nat) (ign : option (list nat)) (vs : list nat) : res heap :=
  match vs with
  | [] => Ok h
  | w :: vs' =>
      g <- get_graph h gid ;;
      bad <- (if bool_decide (w ∈ g_vertices g) then Ok false
              else (b <- in_ignore w ign ;; Ok (negb b))) ;;
      if bad then Err IncongruentGraphState else
      wv <- get_vertex h w ;;
      eadd_loop (<[w := OVertex (set_vedges wv (set_add self (v_edges wv)))]> h) self gid ign vs'
  end.

(** [Edge.add_to(graph, ignore_errors)] *)
Definition edge_add_to (h : heap) (self gid : nat) (ign : option (list nat)) : res heap :=
  g <- get_graph h gid ;;
  e <- get_edge h self ;;
  let h1 := <[gid := OGraph (set_edges g (g_edges g ++ [self]))]> h in
  eadd_loop h1 self gid ign (edge_nbrs e).

(** The loop of [Vertex.delete_from] over [self.edges]. *)
Fixpoint vdel_loop (h : heap) (self : nat) (ign : option (list nat)) (es : list nat) : res heap :=
  match es with
  | [] => Ok h
  | e :: es' =>
      ed <- get_edge h e ;;
      if decide (self ∈ edge_nbrs ed) then
        let ed1 := if decide (e_v1 ed = Some self) then set_v1 ed None else ed in
        let ed2 := if decide (e_v2 ed1 = Some self) then set_v2 ed1 None else ed1 in
        vdel_loop (<[e := OEdge ed2]> h) self ign es'
      else
        b <- in_ignore e ign ;;
        if b then vdel_loop h self ign es' else Err IncongruentGraphState
  end.

(** [Vertex.delete_from(graph, ignore_errors)] *)
Definition vertex_delete_from (h : heap) (self gid : nat) (ign : option (list nat)) : res heap :=
  g <- get_graph h gid ;;
  vs <- py_remove self (g_vertices g) ;;
  v <- get_vertex h self ;;
  vdel_loop (<[gid := OGraph (set_vertices g vs)]> h) self ign (v_edges v).

(** The loop of [Edge.delete_from] over [(self.vertex1, self.vertex2)]. *)
Fixpoint edel_loop (h : heap) (self : nat) (ign : option (list nat)) (vs : list (option nat)) : res heap :=
  match vs with
  | [] => Ok h
  | None :: vs' => edel_loop h self ign vs'
  | Some w :: vs' =>
      wv <- get_vertex h w ;;
      if decide (self ∈ v_edges wv) then
        edel_loop (<[w := OVertex (set_vedges wv (list_remove self (v_edges wv)))]> h) self ign vs'
      else
        b <- in_ignore w ign ;;
        if b then edel_loop h self ign vs' else Err IncongruentGraphState
  end.

(** [Edge.delete_from(graph, ignore_errors)] *)
Definition edge_delete_from (h : heap) (self gid : nat) (ign : option (list nat)) : res heap :=
  g <- get_graph h gid ;;
  es <- py_remove self (g_edges g) ;;
  e <- get_edge h self ;;
  edel_loop (<[gid := OGraph (set_edges g es)]> h) self ign [e_v1 e; e_v2 e].

(** [element.add_to(graph, ignore_errors)] as [Graph.add] calls it
    (after stamping ['.generation']); [Face.add_to] takes no positional
    [ignore_errors]. *)
Definition element_add_to (h : heap) (x gid : nat) (ign : option (list nat)) : res heap :=
  match h !! x with
  | Some (OVertex _) => vertex_add_to h x gid ign
  | Some (OEdge _) => edge_add_to h x gid ign
  | Some (OFace _) => Err TypeError
  | _ => Err AttributeError
  end.

(** [Graph.discard(element, ignore_errors)] *)
Definition graph_discard (h : heap) (gid x : nat) (ign : option (list nat)) : res heap :=
  match h !! x with
  | Some (OVertex _) => vertex_delete_from h x gid ign
  | Some (OEdge _) => edge_delete_from h x gid ign
  | Some (OFace _) => Err TypeError
  | _ => Err AttributeError
  end.

(** ** Reciprocity violations seen by [add_to] and [delete_from] *)

(** An incident edge [e] of the vertex [v] outside [I] that is not in
    the graph, or does not list [v] while both its endpoint slots are
    taken. *)
Definition vadd_bad (h : heap) (v : nat) (g : graph) (I : list nat) (es : list nat) : Prop :=
  exists e ed, e ∈ es /\ h !! e = Some (OEdge ed) /\ (e ∉ I) /\
    ((e ∉ g_edges g) \/ ((v ∉ edge_nbrs ed) /\ e_v1 ed <> None /\ e_v2 ed <> None)).

(** An endpoint outside [I] that is not a vertex of the graph. *)
Definition eadd_bad (g : graph) (I : list nat) (ws : list nat) : Prop :=
  exists w, w ∈ ws /\ (w ∉ g_vertices g) /\ (w ∉ I).

(** An incident edge outside [I] that does not list the vertex [v]. *)
Definition vdel_bad (h : heap) (v : nat) (I : list nat) (es : list nat) : Prop :=
  exists e ed, e ∈ es /\ h !! e = Some (OEdge ed) /\ (v ∉ edge_nbrs ed) /\ (e ∉ I).

(** An endpoint outside [I] whose incident set does not hold the edge [x]. *)
Definition edel_bad (h : heap) (x : nat) (I : list nat) (ws : list nat) : Prop :=
  exists w wv, w ∈ ws /\ h !! w = Some (OVertex wv) /\ (x ∉ v_edges wv) /\ (w ∉ I).

Definition add_violation (h : heap) (g : graph) (x : nat) (I : list nat) : Prop :=
  match h !! x with
  | Some (OVertex vx) => vadd_bad h x g I (v_edges vx)
  | Some (OEdge ex) => eadd_bad g I (edge_nbrs ex)
  | _ => False
  end.

Definition del_violation (h : heap) (x : nat) (I : list nat) : Prop :=
  match h !! x with
  | Some (OVertex vx) => vdel_bad h x I (v_edges vx)
  | Some (OEdge ex) => edel_bad h x I (edge_nbrs ex)
  | _ => False
  end.

(** [x] is a vertex whose incident edges are distinct edge objects, or
    an edge whose endpoints are vertex objects. *)
Definition refs_typed (h : heap) (x : nat) : bool :=
  match h !! x with
  | Some (OVertex vx) => bool_decide (NoDup (v_edges vx)) && forallb (is_edge h) (v_edges vx)
  | Some (OEdge ex) => forallb (is_vertex h) (edge_nbrs ex)
  | _ => false
  end.

Definition in_graph (h : heap) (g : graph) (x : nat) : bool :=
  match h !! x with
  | Some (OVertex _) => bool_decide (x ∈ g_vertices g)
  | Some (OEdge _) => bool_decide (x ∈ g_edges g)
  | _ => false
  end.

Definition self_loop (h : heap) (x : nat) : bool :=
  match h !! x with
  | Some (OEdge ex) =>
      match e_v1 ex, e_v2 ex with Some a, Some b => bool_decide (a = b) | _, _ => false end
  | _ => false
  end.

(** The endpoints listed by [(vertex1, vertex2)], [None]s left out. *)
Definition flat_opt (os : list (option nat)) : list nat := foldr (fun o acc => opt_list o ++ acc) [] os.

(** The call raises [ModelGenIncongruentGraphStateError] exactly when
    [P] holds, and no other exception. *)
Definition raises_iff (r : res heap) (P : Prop) : Prop :=
  match r with
  | Ok _ => ~ P
  | Err err => err = IncongruentGraphState /\ P
  end.

(** ** Closed graphs and sound matches *)

Definition graph_elems (g : graph) : list nat := g_vertices g ++ g_edges g ++ g_faces g.

(** The vertices of [g] are vertex objects whose incident edges are
    edges of [g]; its edges are edge objects whose endpoints are
    vertices of [g]. *)
Definition graph_closed (h : heap) (g : graph) : bool :=
  forallb (fun x => is_vertex h x && forallb (fun y => bool_decide (y ∈ g_edges g)) (nbrs h x))
    (g_vertices g) &&
  forallb (fun x => is_edge h x && forallb (fun y => bool_decide (y ∈ g_vertices g)) (nbrs h x))
    (g_edges g).

(** ['.directed' in e.attr and e.attr['.directed']] for an edge [x]. *)
Definition is_directed (h : heap) (x : nat) : bool :=
  match h !! x with
  | Some (OEdge e) =>
      match dget ".directed"%string (e_attr e) with Some d => truthy d | None => false end
  | _ => false
  end.

(** What the matcher is meant to return: an injective map from the
    elements of [P] onto elements of [H] of the same kind, each
    matching its pattern element, preserving adjacency and the
    [vertex1]/[vertex2] roles of directed edges. *)
Definition sound_mapping (h : heap) (ev : evaluator) (ea : bool) (H P : graph) (m : mapping) : Prop :=
  let d := m_items m in
  (forall k1 k2 v, dget k1 d = Some v -> dget k2 d = Some v -> k1 = k2) /\
  (forall k, k ∈ dkeys d <-> k ∈ graph_elems P) /\
  (forall k v, dget k d = Some v ->
     v ∈ g_vertices H ++ g_edges H /\
     elem_matches h ev v k (Some ea) = Ok true /\
     is_vertex h v = is_vertex h k /\ is_edge h v = is_edge h k /\
     (forall k', k' ∈ nbrs h k -> exists v', dget k' d = Some v' /\ v' ∈ nbrs h v) /\
     (forall pe, h !! k = Some (OEdge pe) -> is_directed h k = true -> self_loop h k = false ->
        exists he, h !! v = Some (OEdge he) /\
          (forall a, e_v1 pe = Some a -> e_v1 he = dget a d) /\
          (forall b, e_v2 pe = Some b -> e_v2 he = dget b d))).

(** The invariant of the matcher's task stack: a partial mapping
    [d] and its frontier [un]. *)
Definition graph_ve (g : graph) : list nat := g_vertices g ++ g_edges g.

(** The role check made when the directed pattern edge [k] was mapped to
    [v] from its mapped parent [p]. *)
Definition dir_ok_key (h : heap) (d : list (nat * nat)) (k v : nat) : Prop :=
  forall pe, h !! k = Some (OEdge pe) -> is_directed h k = true ->
    edge_nbrs pe = [] \/
    exists p fp he, dget p d = Some fp /\ h !! v = Some (OEdge he) /\
      ((e_v1 pe = Some p /\ e_v1 he = Some fp) \/
       (e_v1 pe <> Some p /\ e_v2 pe = Some p /\ e_v2 he = Some fp)).

Definition task_inv (h : heap) (ev : evaluator) (ea : bool) (H P : graph) (t : task) : Prop :=
  let d := m_items t.1 in
  let un := t.2 in
  NoDup (dkeys d) /\ NoDup (dvals d) /\ NoDup (dkeys un) /\
  (forall k v, dget k d = Some v ->
     k ∈ graph_ve P /\ v ∈ graph_ve H /\ elem_matches h ev v k (Some ea) = Ok true /\
     dir_ok_key h d k v) /\
  (forall n p, dget n un = Some p -> (n ∉ dkeys d) /\ p ∈ dkeys d /\ n ∈ nbrs h p).

Definition iter_inside (g : graph) (st : iter_state) : Prop :=
  forall y, y ∈ it_unvisited st -> y ∈ graph_ve g.

(** Every neighbour relation inside [g] goes both ways: an edge lists a
    vertex as an endpoint iff the vertex lists the edge. *)
Definition graph_symmetric (h : heap) (g : graph) : bool :=
  forallb (fun x => forallb (fun y => bool_decide (x ∈ nbrs h y)) (nbrs h x)) (graph_ve g).

(** The elements reachable from [todo] by [neighbours()] steps. *)
Fixpoint reach (h : heap) (fuel : nat) (todo seen : list nat) : list nat :=
  match fuel with
  | 0 => seen
  | S f =>
      match todo with
      | [] => seen
      | x :: todo' =>
          if decide (x ∈ seen) then reach h f todo' seen
          else reach h f (todo' ++ nbrs h x) (x :: seen)
      end
  end.

(** Every vertex and edge of [g] is reachable from its first element. *)
Definition graph_connected (h : heap) (g : graph) : bool :=
  match first_element g with
  | None => true
  | Some a =>
      let fuel := S (length (graph_ve g) +
                     foldr (fun x acc => length (nbrs h x) + acc) 0 (graph_ve g)) in
      forallb (fun x => bool_decide (x ∈ reach h fuel [a] [])) (graph_ve g)
  end.

(** The [vertex1]/[vertex2] role of a pattern edge kept by its image. *)
Definition opt_role (phi : nat -> nat) (pv hv : option nat) : bool :=
  match pv with Some x => bool_decide (hv = Some (phi x)) | None => true end.

Definition role_ok (h : heap) (phi : nat -> nat) (k : nat) : bool :=
  if is_directed h k then
    match h !! k, h !! phi k with
    | Some (OEdge pe), Some (OEdge he) =>
        opt_role phi (e_v1 pe) (e_v1 he) && opt_role phi (e_v2 pe) (e_v2 he)
    | _, _ => false
    end
  else true.

(** [phi] embeds the vertices and edges of [P] in [H]: injective,
    [matches] (without [eval_attr]) holds element-wise, and adjacency is
    preserved. *)
Definition struct_embedding (h : heap) (ev : evaluator) (H P : graph) (phi : nat -> nat) : bool :=
  forallb (fun k =>
    bool_decide (phi k ∈ graph_ve H) &&
    match elem_matches h ev (phi k) k (Some false) with Ok true => true | _ => false end &&
    forallb (fun n => bool_decide (phi n ∈ nbrs h (phi k))) (nbrs h k) &&
    forallb (fun k2 => bool_decide (phi k = phi k2 -> k = k2)) (graph_ve P)) (graph_ve P).

(** ... and keeps the roles of the directed edges. *)
Definition embedding (h : heap) (ev : evaluator) (H P : graph) (phi : nat -> nat) : bool :=
  struct_embedding h ev H P phi && forallb (role_ok h phi) (graph_ve P).

(** The task invariants of the completeness argument. *)
Definition pairs_compatible (h : heap) (d : list (nat * nat)) : Prop :=
  forall k v n w, dget k d = Some v -> n ∈ nbrs h k -> dget n d = Some w -> w ∈ nbrs h v.

Definition frontier_complete (h : heap) (t : task) : Prop :=
  forall k n, k ∈ dkeys (m_items t.1) -> n ∈ nbrs h k ->
    n ∈ dkeys (m_items t.1) \/ n ∈ dkeys t.2.

Definition task_ok (h : heap) (ev : evaluator) (H P : graph) (a : nat) (t : task) : Prop :=
  task_inv h ev false H P t /\ pairs_compatible h (m_items t.1) /\
  frontier_complete h t /\ a ∈ dkeys (m_items t.1).

Definition below (phi : nat -> nat) (t : task) : Prop :=
  forall k v, dget k (m_items t.1) = Some v -> v = phi k.

Definition tasks_weight (b lenP : nat) (ts : list task) : nat :=
  foldr (fun t acc => task_weight b (lenP - length (m_items t.1)) + acc) 0 ts.

(** The task pushed by the first loop of [match] for the host element
    [own] matching the anchor [a]. *)
Definition init_task (h : heap) (a own : nat) : task :=
  (mapping_of [(a, own)], dfrom (map (fun e => (e, a)) (nbrs h a))).

(** ** [Production.apply] and [ProductionApplicationHierarchy.__init__] *)

(** The address one past every address in use: where the objects a
    call creates are placed. *)
Definition heap_top (h : heap) : nat := S (foldr Nat.max 0 (map fst (map_to_list h))).

(** Modelled from the spec: a reference taken through the copy map of a
    structural copy; a reference the map does not cover is kept. *)
Definition remap (mp : list (nat * nat)) (r : nat) : nat :=
  match dget r mp with Some r' => r' | None => r end.

(** Modelled from the spec: the copy of one element, its attributes
    copied and its references taken through the copy map. *)
Definition remap_obj (mp : list (nat * nat)) (o : obj) : obj :=
  match o with
  | OVertex v => OVertex (mkVertex (v_attr v) (map (remap mp) (v_edges v)))
  | OEdge e => OEdge (mkEdge (e_attr e) (option_map (remap mp) (e_v1 e)) (option_map (remap mp) (e_v2 e)))
  | OFace f => OFace (mkFace (f_attr f) (map (remap mp) (f_vertices f)) (map (remap mp) (f_edges f)))
  | OGraph g => OGraph g
  end.

(** Modelled from the spec: one new address per element of the graph,
    [mapping[element] = copy]. *)
Fixpoint copy_addrs (l : list nat) (nx : nat) (mp : list (nat * nat)) : list (nat * nat) * nat :=
  match l with
  | [] => (mp, nx)
  | x :: l' => copy_addrs l' (S nx) (dset x nx mp)
  end.

(** Modelled from the spec: the copies written at their new addresses. *)
Fixpoint copy_objs (src h : heap) (mp ps : list (nat * nat)) : res heap :=
  match ps with
  | [] => Ok h
  | (x, c) :: ps' =>
      match src !! x with
      | Some o => copy_objs src (<[c := remap_obj mp o]> h) mp ps'
      | None => Err AttributeError
      end
  end.

(** Modelled from the spec: [non_recursive_copy(graph, mapping)],
    imported by productions.py from graph.py, where it is missing.  The
    spec calls R a "mutable copy of Host" and C a "fresh structural copy
    of D", with the "shallow copy, keep external connections" semantics
    read as "plain index-set value copies": every element of the graph
    gets a fresh object with its attributes and its references taken
    through the copy map (references outside the graph kept), and a
    fresh graph object holds the copies.  From the next free address
    [nx]: the heap, the next free address, the copy map and the new
    graph. *)
Definition non_recursive_copy (h : heap) (nx gid : nat) : res (heap * nat * mapping * nat) :=
  g <- get_graph h gid ;;
  let '(mp, nx1) := copy_addrs (graph_elems g) nx [] in
  h1 <- copy_objs h h mp mp ;;
  let g' := mkGraph (map (remap mp) (g_vertices g)) (map (remap mp) (g_edges g))
                    (map (remap mp) (g_faces g)) in
  Ok (<[nx1 := OGraph g']> h1, S nx1, mapping_of mp, nx1).

(** The production option [select_option()] picked: its mother and
    daughter graphs, its mapping and the partition of
    [ProductionOption.__init__]. *)
Record app_option := mkAppOption {
  ao_mother : nat;
  ao_daughter : nat;
  ao_mapping : mapping;
  ao_parts : prod_option }.

(** [ProductionApplicationHierarchy(host_graph, mother_to_host, option)]:
    the heap with both copies, the hierarchy and [result_graph]. *)
Definition hierarchy_init (h : heap) (host : nat) (m : mapping) (o : app_option)
    : res (heap * hierarchy * nat) :=
  r1 <- non_recursive_copy h (heap_top h) host ;;
  let '(h1, nx1, h2r, rg) := r1 in
  r2 <- non_recursive_copy h1 nx1 (ao_daughter o) ;;
  let '(h2, _, d2c, _) := r2 in
  Ok (h2, mkHierarchy h2r m (ao_mapping o) d2c, rg).

(** [hierarchy.map(x, s, t)] on a value that may be [None]: [None] is
    no key of any movement, the [KeyError] gives [None]. *)
Definition hmap_opt (hy : hierarchy) (o : option nat) (s t : level) : res (option nat) :=
  match o with Some x => hmap hy x s t | None => Ok None end.

Fixpoint map_res {A B} (f : A -> res B) (l : list A) : res (list B) :=
  match l with
  | [] => Ok []
  | x :: l' => y <- f x ;; ys <- map_res f l' ;; Ok (y :: ys)
  end.

(** A [for] loop whose body updates the heap. *)
Fixpoint for_each {A} (l : list A) (h : heap) (body : heap -> A -> res heap) : res heap :=
  match l with
  | [] => Ok h
  | x :: l' => h1 <- body h x ;; for_each l' h1 body
  end.

(** [{... for x in l}]: a set built element by element. *)
Definition py_set {A} `{EqDecision A} (l : list A) : list A :=
  fold_left (fun s x => if decide (x ∈ s) then s else s ++ [x]) l [].

(** Iteration over a set: its elements in the order [ord] lists them
    (CPython's hash order is left open). *)
Definition set_iter {A} `{EqDecision A} (ord : list A -> list A) (s : list A) : list A :=
  List.filter (fun x => bool_decide (x ∈ s)) (ord s).

Definition need (o : option nat) : res nat :=
  match o with Some x => Ok x | None => Err AttributeError end.

Definition get_attr (h : heap) (x : nat) : res attrs :=
  match elem_attr h x with Some a => Ok a | None => Err AttributeError end.

Definition map_attr (f : attrs -> attrs) (o : obj) : option obj :=
  match o with
  | OVertex v => Some (OVertex (mkVertex (f (v_attr v)) (v_edges v)))
  | OEdge e => Some (OEdge (mkEdge (f (e_attr e)) (e_v1 e) (e_v2 e)))
  | OFace fc => Some (OFace (mkFace (f (f_attr fc)) (f_vertices fc) (f_edges fc)))
  | OGraph _ => None
  end.

(** [x.attr[k] = v] *)
Definition set_attr (h : heap) (x : nat) (k : string) (v : value) : res heap :=
  match h !! x with
  | Some o => match map_attr (dset k v) o with
              | Some o' => Ok (<[x := o']> h)
              | None => Err AttributeError
              end
  | None => Err AttributeError
  end.

Fixpoint attr_del (k : string) (d : attrs) : attrs :=
  match d with
  | [] => []
  | (k', v) :: d' => if decide (k = k') then d' else (k', v) :: attr_del k d'
  end.

(** [x.attr.pop(k)] *)
Definition pop_attr (h : heap) (x : nat) (k : string) : res heap :=
  a <- get_attr h x ;;
  match dget k a, h !! x with
  | Some _, Some o => match map_attr (attr_del k) o with
                      | Some o' => Ok (<[x := o']> h)
                      | None => Err AttributeError
                      end
  | _, _ => Err KeyError
  end.

(** [Vertex.replace_connection(get_replacement)] *)
Definition vertex_replace (h : heap) (x : nat) (rep : nat -> res (option nat)) : res heap :=
  v <- get_vertex h x ;;
  rs <- map_res (fun e =>
          r <- rep e ;;
          match r with
          | None => Ok None
          | Some r' => if is_edge h r' then Ok (Some (e, r')) else Err ValueError
          end) (v_edges v) ;;
  let pairs := flat_map (fun o => match o with Some p => [p] | None => [] end) rs in
  let es1 := fold_left (fun s p => list_remove p.1 s) pairs (v_edges v) in
  let es2 := fold_left (fun s p => set_add p.2 s) pairs es1 in
  Ok (<[x := OVertex (set_vedges v es2)]> h).

(** One endpoint slot of [Edge.replace_connection(get_replacement,
    replace_on_none)]. *)
Definition edge_slot (h : heap) (rep : option nat -> res (option nat)) (ron : bool)
    (cur : option nat) : res (option nat) :=
  r <- rep cur ;;
  match r with
  | None => Ok (if ron then None else cur)
  | Some w => if is_vertex h w then Ok (Some w) else Err ValueError
  end.

(** [Edge.replace_connection(get_replacement, replace_on_none)]; the
    replacement functions read no endpoint, so both slots are written
    at once. *)
Definition edge_replace (h : heap) (x : nat) (rep : option nat -> res (option nat)) (ron : bool)
    : res heap :=
  e <- get_edge h x ;;
  n1 <- edge_slot h rep ron (e_v1 e) ;;
  n2 <- edge_slot h rep ron (e_v2 e) ;;
  Ok (<[x := OEdge (mkEdge (e_attr e) n1 n2)]> h).

(** [element.replace_connection(get_replacement)]; [Face]'s does nothing. *)
Definition replace_connection (h : heap) (x : nat) (rep : option nat -> res (option nat)) : res heap :=
  match h !! x with
  | Some (OVertex _) => vertex_replace h x (fun e => rep (Some e))
  | Some (OEdge _) => edge_replace h x rep false
  | Some (OFace _) => Ok h
  | _ => Err AttributeError
  end.

(** [int(v)]; [int] of a string is left to [int_of_string]. *)
Definition py_int (int_of_string : string -> res Z) (v : value) : res Z :=
  match v with
  | VInt z => Ok z
  | VBool b => Ok (if b then 1%Z else 0%Z)
  | VStr s => int_of_string s
  | VNone => Err TypeError
  end.

(** [get_max_generation(graph_elements)] *)
Fixpoint max_generation (int_of_string : string -> res Z) (h : heap) (l : list nat) (acc : Z) : res Z :=
  match l with
  | [] => Ok acc
  | x :: l' =>
      a <- get_attr h x ;;
      g <- match dget ".generation"%string a with Some g => Ok g | None => Err KeyError end ;;
      z <- py_int int_of_string g ;;
      max_generation int_of_string h l' (if (acc <? z)%Z then z else acc)
  end.

(** [graph_is_consistent(graph)] *)
Definition graph_is_consistent (h : heap) (g : graph) : res bool :=
  els <- graph_iter h g ;;
  Ok (forallb (fun x => forallb (fun n => bool_decide (x ∈ nbrs h n)) (nbrs h x)) els).

Section Apply.
(** What the rule texts evaluate to.  [eval] of a rule text reads the
    objects it is given and writes none: each evaluation gets the heap
    and gives back a value or the exception it raises. *)
Variable Env : Type.
(** [vectors], [global_attr_reqs] and [evaluate_per_app_vars]. *)
Variable app_env : heap -> hierarchy -> app_option -> res Env.
(** [_calculate_new_position(C_element, option, hierarchy)] *)
Variable new_position : heap -> hierarchy -> app_option -> nat -> res (value * value).
(** [attr_func(old_element, self_=target_element, ...)] for the
    attribute [attr_name] of the daughter element, with its text. *)
Variable attr_value : Env -> heap -> hierarchy -> nat -> string -> value -> option nat ->
  option nat -> res value.
(** The same for ['.new_pos']: the [x] and [y] of the position. *)
Variable pos_value : Env -> heap -> hierarchy -> nat -> value -> option nat -> option nat ->
  res (value * value).
Variable int_of_string : string -> res Z.
(** The iteration order of a set. *)
Variable ord : forall A : Type, list A -> list A.

(** The [for M_edge, M_vertex in option.edge_conn_to_remove] loop. *)
Definition conn_step (hy : hierarchy) (h : heap) (p : nat * nat) : res heap :=
  re <- hmap hy p.1 (LStr "M") (LStr "R") ;;
  rv <- hmap hy p.2 (LStr "M") (LStr "R") ;;
  x <- need re ;;
  h1 <- match h !! x with
        | Some (OEdge _) =>
            edge_replace h x (fun y => Ok (if decide (y = rv) then None else y)) true
        | Some (OVertex _) | Some (OFace _) => Err TypeError
        | _ => Err AttributeError
        end ;;
  w <- need rv ;;
  wv <- get_vertex h1 w ;;
  es <- set_remove x (v_edges wv) ;;
  Ok (<[w := OVertex (set_vedges wv es)]> h1).

(** The [for R_element in to_remove] loop. *)
Definition remove_step (hy : hierarchy) (o : app_option) (rg : nat) (h : heap)
    (r : option nat) : res heap :=
  ign1 <- map_res (fun p => hmap hy p.1 (LStr "M") (LStr "R")) (edge_conn_to_remove (ao_parts o)) ;;
  ign2 <- map_res (fun x => hmap_opt hy x (LStr "D") (LStr "R")) ign1 ;;
  x <- need r ;;
  graph_discard h rg x (Some (flat_opt (py_set ign2))).

(** The [for C_element in to_add] loop; ['.generation'] is set just
    before [result_graph.add], so [Graph.add] goes straight to [add_to]. *)
Definition add_step (hy : hierarchy) (o : app_option) (rg : nat) (to_add : list (option nat))
    (gen : Z) (h : heap) (c : option nat) : res heap :=
  x <- need c ;;
  h1 <- replace_connection h x (fun y => hmap_opt hy y (LStr "C") (LStr "R")) ;;
  h2 <- (if is_vertex h1 x then
           xy <- new_position h1 hy o x ;;
           a <- get_attr h1 x ;;
           h' <- (match dget "new_x"%string a with
                  | None => set_attr h1 x "x" xy.1
                  | Some _ => Ok h1
                  end) ;;
           match dget "new_y"%string a with
           | None => set_attr h' x "y" xy.2
           | Some _ => Ok h'
           end
         else Ok h1) ;;
  h3 <- set_attr h2 x ".generation" (VInt gen) ;;
  let ign := List.filter (fun n => bool_decide (Some n ∈ to_add)) (nbrs h3 x) in
  element_add_to h3 x rg (Some ign).

(** The [for R_element in to_change] loop, with
    [map_elements_to_be_removed]. *)
Definition change_step (hy : hierarchy) (to_remove : list (option nat)) (h : heap)
    (r : option nat) : res heap :=
  x <- need r ;;
  replace_connection h x (fun y =>
    if decide (y ∈ to_remove) then hmap_opt hy y (LStr "R") (LStr "C") else Ok None).

(** The [for attr_name, attr_func_text in D_element.attr.items()] loop. *)
Fixpoint attr_loop (env : Env) (hy : hierarchy) (d : nat) (target old : option nat)
    (items : attrs) (h : heap) : res heap :=
  match items with
  | [] => Ok h
  | (name, text) :: rest =>
      if String.eqb name "x" || String.eqb name "y" then attr_loop env hy d target old rest h
      else
        p <- (if String.eqb name "new_x" then
                t <- need target ;; h' <- pop_attr h t "new_x" ;; Ok ("x"%string, h')
              else if String.eqb name "new_y" then
                t <- need target ;; h' <- pop_attr h t "new_y" ;; Ok ("y"%string, h')
              else Ok (name, h)) ;;
        let '(name', h1) := p in
        if String.eqb name' ".new_pos" then
          pos <- pos_value env h1 hy d text old target ;;
          t <- need target ;;
          h2 <- set_attr h1 t "x" pos.1 ;;
          h3 <- set_attr h2 t "y" pos.2 ;;
          a <- get_attr h3 t ;;
          h4 <- (match dget ".new_pos"%string a with
                 | Some _ => pop_attr h3 t ".new_pos"
                 | None => Ok h3
                 end) ;;
          attr_loop env hy d target old rest h4
        else if String.prefix "." name' && negb (String.prefix ".svg_" name')
                && negb (String.prefix ".svgx_" name') then
          attr_loop env hy d target old rest h1
        else
          v <- attr_value env h1 hy d name' text old target ;;
          t <- need target ;;
          h2 <- set_attr h1 t name' v ;;
          attr_loop env hy d target old rest h2
  end.

(** The [for D_element, target_element, old_element in to_calc_attr] loop. *)
Definition calc_step (env : Env) (hy : hierarchy) (h : heap)
    (t : nat * option nat * option nat) : res heap :=
  let '(d, target, old) := t in
  a <- get_attr h d ;;
  attr_loop env hy d target old a h.

(** [Production.apply(host_graph, map_mother_to_host)] with the option
    [select_option()] returned: the result graph and the heap. *)
Definition production_apply (h : heap) (host : nat) (m : mapping) (o : app_option)
    : res (nat * heap) :=
  r <- hierarchy_init h host m o ;;
  let '(h0, hy, rg) := r in
  let parts := ao_parts o in
  ta <- map_res (fun x => hmap hy x (LStr "D") (LStr "C")) (to_add parts) ;;
  tc <- map_res (fun x => hmap hy x (LStr "D") (LStr "R")) (to_change parts) ;;
  tr <- map_res (fun x => hmap hy x (LStr "M") (LStr "R")) (to_remove parts) ;;
  ca1 <- map_res (fun x => c <- hmap hy x (LStr "D") (LStr "C") ;; Ok (x, c, None)) (to_add parts) ;;
  ca2 <- map_res (fun x => c <- hmap hy x (LStr "D") (LStr "R") ;;
                           old <- hmap hy x (LStr "D") (LStr "H") ;; Ok (x, c, old)) (to_change parts) ;;
  let to_add_s := py_set ta in
  let to_change_s := py_set tc in
  let to_remove_s := py_set tr in
  let to_calc := py_set (py_set ca1 ++ ca2) in
  env <- app_env h0 hy o ;;
  gmax <- max_generation int_of_string h0 (dvals (m_items m)) 0 ;;
  let gen := (gmax + 1)%Z in
  h1 <- for_each (edge_conn_to_remove parts) h0 (conn_step hy) ;;
  h2 <- for_each (set_iter (ord _) to_remove_s) h1 (remove_step hy o rg) ;;
  h3 <- for_each (set_iter (ord _) to_add_s) h2 (add_step hy o rg to_add_s gen) ;;
  h4 <- for_each (set_iter (ord _) to_change_s) h3 (change_step hy to_remove_s) ;;
  h5 <- for_each (set_iter (ord _) to_calc) h4 (calc_step env hy) ;;
  g <- get_graph h5 rg ;;
  ok <- graph_is_consistent h5 g ;;
  if ok then Ok (rg, h5) else Err IncongruentGraphState.
End Apply.

(** The graph object at [gid] exists, its vertices and edges form a
    closed graph and its faces are face objects. *)
Definition closed_at (h : heap) (gid : nat) : bool :=
  match h !! gid with
  | Some (OGraph g) =>
      graph_closed h g &&
      forallb (fun x => match h !! x with Some (OFace _) => true | _ => false end) (g_faces g)
  | _ => false
  end.

(** The references a vertex (its incident edges) or an edge (its
    endpoints) holds. *)
Definition obj_refs (o : obj) : list nat :=
  match o with
  | OVertex v => v_edges v
  | OEdge e => edge_nbrs e
  | _ => []
  end.

Definition ve_refs (h : heap) (y : nat) : list nat :=
  match h !! y with Some o => obj_refs o | None => [] end.

(** Below [base] the heap is [h0]; from [base] on, vertices and edges
    refer only to objects from [base] on. *)
Definition frame_inv (h0 : heap) (base : nat) (h : heap) : Prop :=
  (forall p, p < base -> h !! p = h0 !! p) /\
  (forall y r, base <= y -> r ∈ ve_refs h y -> base <= r).

Definition fresh_opt (base : nat) (o : option nat) : Prop :=
  match o with Some r => base <= r | None => True end.

(** The copy maps of the hierarchy lead to objects from [base] on. *)
Definition hy_fresh (base : nat) (hy : hierarchy) : Prop :=
  (forall v, v ∈ dvals (m_items (host_to_result hy)) -> base <= v) /\
  (forall v, v ∈ dvals (m_items (daughter_to_copy hy)) -> base <= v).

(** ** Further functions of graph.py, productions.py, grammar.py and utils.py *)

(** ** [Edge.get_other_vertex] *)

(** [edge.get_other_vertex(vertex)]: [vertex] is a vertex or [None];
    [==] on graph elements is identity. *)
Definition get_other_vertex (e : edge) (v : option nat) : res (option nat) :=
  if decide (v = e_v1 e) then Ok (e_v2 e)
  else if decide (v = e_v2 e) then Ok (e_v1 e)
  else Err ValueError.

(** ** [Graph.neighbours] *)

(** [item in graph] ([Graph.__contains__]) *)
Definition graph_contains (g : graph) (x : nat) : bool :=
  bool_decide (x ∈ g_vertices g) || bool_decide (x ∈ g_edges g) || bool_decide (x ∈ g_faces g).

(** [graph.neighbours()]: the set of the neighbours of the elements of
    the graph that are not in it. *)
Definition graph_neighbours (h : heap) (g : graph) : list nat :=
  fold_left (fun acc el =>
    fold_left (fun acc c => if graph_contains g c then acc else set_add c acc) (nbrs h el) acc)
    (g_vertices g ++ g_edges g ++ g_faces g) [].

(** ** [get_generations] and [Generations] *)

(** [int(element.attr['.generation'])] *)
Definition elem_gen (int_of_string : string -> res Z) (h : heap) (x : nat) : res Z :=
  a <- get_attr h x ;;
  g <- match dget ".generation"%string a with Some g => Ok g | None => Err KeyError end ;;
  py_int int_of_string g.

(** The loop of [get_generations]:
    [generations[generation] = generations.setdefault(generation, 0) + 1]. *)
Fixpoint gen_counts (int_of_string : string -> res Z) (h : heap) (l : list nat)
    (acc : list (Z * Z)) : res (list (Z * Z)) :=
  match l with
  | [] => Ok acc
  | x :: l' =>
      z <- elem_gen int_of_string h x ;;
      gen_counts int_of_string h l' (dset z (default 0%Z (dget z acc) + 1)%Z acc)
  end.

(** [get_generations(graph_elements)]: the dict of a [Generations]. *)
Definition get_generations (int_of_string : string -> res Z) (h : heap) (l : list nat)
    : res (list (Z * Z)) :=
  gen_counts int_of_string h l [].

(** [Generations.__eq__] *)
Definition gen_eq (d1 d2 : list (Z * Z)) : bool :=
  (length d1 =? length d2) &&
  forallb (fun gen => match dget gen d2 with
                      | None => false
                      | Some n2 => match dget gen d1 with Some n1 => (n1 =? n2)%Z | None => false end
                      end) (dkeys d1).

(** The result of a computation that may raise [ZeroDivisionError]. *)
Inductive div_res (A : Type) := DOk (a : A) | DZeroDivisionError.
Arguments DOk {A} a.
Arguments DZeroDivisionError {A}.

(** [for gen, num in generations.items(): average += gen * num; total += num] *)
Definition gen_sums (d : list (Z * Z)) : Z * Z :=
  fold_left (fun st kv => ((st.1 + kv.1 * kv.2)%Z, (st.2 + kv.2)%Z)) d (0%Z, 0%Z).

(** The tie break of [__lt__]: [for gen in self._generations.keys()]. *)
Fixpoint gen_tie (d1 : list (Z * Z)) (ks : list Z) (d2 : list (Z * Z)) : bool :=
  match ks with
  | [] => false
  | gen :: ks' =>
      match dget gen d2 with
      | None => true
      | Some n2 =>
          let n1 := default 0%Z (dget gen d1) in
          if (n1 =? n2)%Z then gen_tie d1 ks' d2 else (n2 <? n1)%Z
      end
  end.

Section GenerationsLt.
(** Python floats: [a / b] of two ints with [b <> 0] (its correctly
    rounded quotient), and [==] and [>] on floats. *)
Variable F : Type.
Variable fdiv : Z -> Z -> F.
Variable feqb : F -> F -> bool.
Variable fgtb : F -> F -> bool.

(** [average /= total], [ZeroDivisionError] on a zero [total]. *)
Definition py_truediv (a b : Z) : div_res F :=
  if (b =? 0)%Z then DZeroDivisionError else DOk (fdiv a b).

(** [Generations.__lt__(self, other)] *)
Definition gen_lt (d1 d2 : list (Z * Z)) : div_res bool :=
  let '(s1, t1) := gen_sums d1 in
  match py_truediv s1 t1 with
  | DZeroDivisionError => DZeroDivisionError
  | DOk a1 =>
      let '(s2, t2) := gen_sums d2 in
      match py_truediv s2 t2 with
      | DZeroDivisionError => DZeroDivisionError
      | DOk a2 => DOk (if feqb a1 a2 then gen_tie d1 (dkeys d1) d2 else fgtb a1 a2)
      end
  end.
End GenerationsLt.

(** ** [Production.select_option] *)

(** [self.total_weight]: the sum of the weights of the options
    ([Production.__init__]). *)
Definition total_weight {A} (weight : A -> Z) (os : list A) : Z :=
  fold_left (fun t o => (t + weight o)%Z) os 0%Z.

(** The loop of [select_option] from [rand_num]. *)
Fixpoint select_go {A} (weight : A -> Z) (rand_num : Z) (os : list A) : res A :=
  match os with
  | [] => Err ValueError
  | o :: os' => if (rand_num <? weight o)%Z then Ok o else select_go weight (rand_num - weight o) os'
  end.

(** [select_option()]: [random.randint(0, total_weight - 1)], that is
    [randrange(0, total_weight)], which raises [ValueError] on an empty
    range and otherwise draws [_randbelow(total_weight)]. *)
Definition select_option {A Rng} (randbelow : Rng -> nat -> nat * Rng) (weight : A -> Z)
    (os : list A) (r : Rng) : res (A * Rng) :=
  let t := total_weight weight os in
  if (t <=? 0)%Z then Err ValueError
  else let '(k, r') := randbelow r (Z.to_nat t) in
       o <- select_go weight (Z.of_nat k) os ;; Ok (o, r').

(** ** [UniqueBidict.__delitem__] *)

(** [del d[k]] on a dict with unique keys. *)
Fixpoint ddel (k : nat) (d : list (nat * nat)) : list (nat * nat) :=
  match d with
  | [] => []
  | (k', v) :: d' => if decide (k = k') then d' else (k', v) :: ddel k d'
  end.

(** [del m[key]]: [self.inverse.pop(self[key])], then the key is
    deleted; both lookups raise [KeyError]. *)
Definition mapping_del (k : nat) (m : mapping) : res mapping :=
  match dget k (m_items m) with
  | None => Err KeyError
  | Some v =>
      match dget v (m_inv m) with
      | None => Err KeyError
      | Some _ => Ok (mkMapping (ddel k (m_items m)) (ddel v (m_inv m)))
      end
  end.

(** [Graph.get_by_id(object_id)]: [id(x)] is the address of [x]. *)
Definition get_by_id (g : graph) (object_id : nat) : option nat :=
  match List.find (fun v => object_id =? v) (g_vertices g) with
  | Some v => Some v
  | None =>
      match List.find (fun e => object_id =? e) (g_edges g) with
      | Some e => Some e
      | None => List.find (fun f => object_id =? f) (g_faces g)
      end
  end.

(** [Graph.add(element, ignore_errors)] *)
Definition graph_add (int_of_string : string -> res Z) (h : heap) (gid x : nat)
    (ign : option (list nat)) : res heap :=
  a <- get_attr h x ;;
  h1 <- match dget ".generation"%string a with
        | Some _ => Ok h
        | None =>
            g <- get_graph h gid ;;
            els <- graph_iter h g ;;
            m <- max_generation int_of_string h els 0 ;;
            set_attr h x ".generation"%string (VInt m)
        end ;;
  element_add_to h1 x gid ign.

(** The update of one incident edge by the loop of [Vertex.delete_from],
    and by the loop of [Vertex.add_to] when the edge does not reference
    the vertex. *)
Definition vstrip (self : nat) (ed : edge) : edge :=
  let ed1 := if decide (e_v1 ed = Some self) then set_v1 ed None else ed in
  if decide (e_v2 ed1 = Some self) then set_v2 ed1 None else ed1.

Definition vattach (self : nat) (ed : edge) : edge :=
  if decide (e_v1 ed = None) then set_v1 ed (Some self)
  else if decide (e_v2 ed = None) then set_v2 ed (Some self)
  else ed.

(** The heap with [f] applied to the edges at the addresses [es]. *)
Definition edge_map (f : edge -> edge) (h : heap) (es : list nat) (x : nat) : option obj :=
  if bool_decide (x ∈ es) then
    match h !! x with Some (OEdge ed) => Some (OEdge (f ed)) | o => o end
  else h !! x.

(** * Properties *)

(** ** The partition of a production option *)

Lemma partition_loop_spec (h : heap) (f : mapping) (l : list nat) :
  let '(rm, ch, ecr) := partition_loop h f l in
  (forall x, x ∈ rm <-> x ∈ l /\ dget x (m_items f) = None) /\
  (forall y, y ∈ ch <-> exists x, x ∈ l /\ dget x (m_items f) = Some y) /\
  (forall e w, (e, w) ∈ ecr <->
     e ∈ l /\ is_edge h e = true /\ w ∈ nbrs h e /\
     exists de dw, dget e (m_items f) = Some de /\ dget w (m_items f) = Some dw /\
                   dw ∉ nbrs h de).
Proof.
  induction l as [|el l IH]; simpl.
  - split; [|split]; intros; [set_solver| |].
    + split; [set_solver|]. intros (x & Hx & _). set_solver.
    + split; [set_solver|]. intros (Hx & _). set_solver.
  - destruct (partition_loop h f l) as [[rm ch] ecr].
    destruct IH as (IH1 & IH2 & IH3).
    destruct (dget el (m_items f)) as [d|] eqn:Hd.
    + split; [|split].
      * intros x. rewrite IH1. split; [intros [? ?]; split; [set_solver|done]|].
        intros [Hx Hn]. apply elem_of_cons in Hx as [->|Hx]; [congruence|done].
      * intros y. rewrite elem_of_cons, IH2. split.
        -- intros [->|(x & Hx & Hxy)]; [exists el; split; [set_solver|done]|].
           exists x; split; [set_solver|done].
        -- intros (x & Hx & Hxy). apply elem_of_cons in Hx as [->|Hx]; [left; congruence|].
           right; eauto.
      * intros e w. rewrite elem_of_app, IH3. split.
        -- intros [Hin|(He & Hrest)]; [|split; [set_solver|exact Hrest]].
           destruct (is_edge h el) eqn:Hel; [|set_solver].
           unfold edge_conns in Hin. apply list_elem_of_In, in_map_iff in Hin as (v & Hv & Hin).
           injection Hv as <- <-. apply filter_In in Hin as [Hin Hf].
           destruct (dget v (m_items f)) as [dv|] eqn:Hdv; [|done].
           apply negb_true_iff, bool_decide_eq_false in Hf.
           split; [set_solver|]. split; [done|]. split; [by apply list_elem_of_In|].
           eauto.
        -- intros (He & Hed & Hw & de & dw & Hde & Hdw & Hn).
           apply elem_of_cons in He as [->|He].
           ++ left. rewrite Hed. rewrite Hd in Hde. injection Hde as <-.
              unfold edge_conns. apply list_elem_of_In, in_map_iff. exists w. split; [done|].
              apply filter_In. split; [by apply list_elem_of_In|].
              rewrite Hdw. apply negb_true_iff, bool_decide_eq_false. done.
           ++ right. split; [done|]. split; [done|]. split; [done|]. eauto.
    + split; [|split].
      * intros x. rewrite elem_of_cons, IH1. split.
        -- intros [->|[? ?]]; split; [set_solver|done|set_solver|done].
        -- intros [Hx Hn]. apply elem_of_cons in Hx as [->|Hx]; [by left|by right].
      * intros y. rewrite IH2. split.
        -- intros (x & Hx & Hxy). exists x; split; [set_solver|done].
        -- intros (x & Hx & Hxy). apply elem_of_cons in Hx as [->|Hx]; [congruence|eauto].
      * intros e w. rewrite IH3. split.
        -- intros (He & Hrest). split; [set_solver|exact Hrest].
        -- intros (He & Hed & Hw & de & dw & Hde & Hdw & Hn).
           apply elem_of_cons in He as [->|He]; [congruence|].
           split; [done|]. split; [done|]. split; [done|]. eauto.
Qed.

Definition c4_heap : heap :=
  {[ 1 := OVertex (mkVertex [] []); 2 := OVertex (mkVertex [] []) ]}.
Definition c4_mother : graph := mkGraph [1] [] [].
Definition c4_daughter : graph := mkGraph [2] [] [].
Definition c4_mapping : mapping := mapping_of [(1, 2)].

(** C4 (counterexample): a mother vertex [1] mapped to the daughter
    vertex [2]: [to_change] is [[2]], the image, and does not hold the
    mapped mother element [1]. *)
Lemma C4_to_change_holds_images :
  let o := make_option c4_heap c4_mother c4_mapping c4_daughter in
  1 ∈ g_vertices c4_mother /\ 1 ∈ dkeys (m_items c4_mapping) /\
  to_change o = [2] /\ 1 ∉ to_change o.
Proof. vm_compute. repeat split; set_solver. Qed.

(** C4 (amended): for a production option built from [M], [f] and [D]:
    [to_remove] holds exactly the elements of [M] not mapped by [f];
    [to_change] holds exactly the images [f(m)] of the mapped elements [m]
    of [M]; [to_add] holds exactly the elements of [D] absent from
    [f.inverse]; [edge_conn_to_remove] holds exactly the pairs [(e, w)]
    of a mapped mother edge [e] and an endpoint [w] of [e] mapped by [f]
    whose image [f(w)] is not a neighbour of [f(e)]. *)
Theorem C4_partition (h : heap) (M D : graph) (f : mapping) :
  let o := make_option h M f D in
  let Mel := g_vertices M ++ g_edges M ++ g_faces M in
  let Del := g_vertices D ++ g_edges D ++ g_faces D in
  (forall x, x ∈ to_remove o <-> x ∈ Mel /\ dget x (m_items f) = None) /\
  (forall y, y ∈ to_change o <-> exists x, x ∈ Mel /\ dget x (m_items f) = Some y) /\
  (forall x, x ∈ to_add o <-> x ∈ Del /\ x ∉ dkeys (m_inv f)) /\
  (forall e w, (e, w) ∈ edge_conn_to_remove o <->
     e ∈ Mel /\ is_edge h e = true /\ w ∈ nbrs h e /\
     exists de dw, dget e (m_items f) = Some de /\ dget w (m_items f) = Some dw /\
                   dw ∉ nbrs h de).
Proof.
  intros o Mel Del. subst o. unfold make_option. fold Mel. fold Del.
  pose proof (partition_loop_spec h f Mel) as Hs.
  destruct (partition_loop h f Mel) as [[rm ch] ecr].
  destruct Hs as (H1 & H2 & H3). simpl.
  split; [done|]. split; [done|]. split; [|done].
  intros x. rewrite list_elem_of_In, filter_In, <- list_elem_of_In.
  rewrite negb_true_iff, bool_decide_eq_false. done.
Qed.

(** ** The hierarchy map *)

(** C5 (a string level key outside [hierarchy_alias], as ["X"], makes
    [map] raise [KeyError] from the alias lookup, not the
    [ModelGenArgumentError] it raises for out-of-range ints); the other
    two parts of the claim hold: equal levels give the element back, and
    a missing link gives [None]. *)
Theorem C5_invalid_level_key (hy : hierarchy) (e : nat) (t : level) :
  hmap hy e (LStr "X") t = Err KeyError /\
  hmap hy e t (LStr "X") =
    match resolve_level t with Ok _ => Err KeyError | Err err => Err err end.
Proof. split; [done|]. unfold hmap. destruct (resolve_level t); done. Qed.

(** ** Face matching *)

(** C6 ([Face.matches] takes no [eval_attr]: [face.matches(p, True)] and
    [face.matches(p, False)] raise [TypeError], where the vertex and edge
    versions compare or evaluate the attributes). *)
Theorem C6_face_matches_rejects_eval_attr (h : heap) (ev : evaluator) (c p : nat)
    (fc : face) (b : bool) :
  h !! c = Some (OFace fc) -> elem_matches h ev c p (Some b) = Err TypeError.
Proof. intros Hc. unfold elem_matches. rewrite Hc. done. Qed.

Definition c6_heap : heap :=
  {[ 1 := OFace (mkFace [] [] []); 2 := OFace (mkFace [] [] []) ]}.

Lemma C6_face_matches_rejects_eval_attr_witness :
  c6_heap !! 1 = Some (OFace (mkFace [] [] [])) /\
  elem_matches c6_heap (fun _ _ _ => Ok (VBool true)) 1 2 (Some true) = Err TypeError.
Proof.
  split; [reflexivity|].
  apply (C6_face_matches_rejects_eval_attr c6_heap _ 1 2 (mkFace [] [] []) true).
  reflexivity.
Defined.

(** ** Step caps *)

(** One production of priority [0] that always has a match; the host
    graph is abstracted to the number of steps applied to it. *)
Definition c7_apply (max_steps : list (step_key * nat)) : res (list nat) :=
  grammar_apply (Prod := unit) (M := unit) (Rng := unit)
    (fun r _ => (0, r)) (fun _ => 0%Z) (fun _ _ => Ok [tt])
    (fun _ g _ r => Ok (S g, r))
    [tt] (Some []) 10 0 (Some max_steps) tt.

(** C7 (a priority cap of [0] is not "unlimited": with [max_steps =
    {0: 0, 'all': 1}] the only priority group is skipped at once and the
    derivation is empty, where a cap of [0] meaning "no limit" gives one
    step; the ['all'] cap of [0] does mean no limit). *)
Theorem C7_zero_priority_cap_blocks :
  c7_apply [(SKPrio 0, 0); (SKAll, 1)] = Ok [] /\
  c7_apply [(SKAll, 1)] = Ok [1] /\
  c7_apply [(SKPrio 0, 3); (SKAll, 0)] = Ok [1; 2; 3].
Proof. vm_compute. repeat split. Qed.

(** ** The connected iteration order *)

Definition c10_heap : heap :=
  {[ 1 := OVertex (mkVertex [] []); 2 := OFace (mkFace [] [1] []) ]}.
Definition c10_graph : graph := mkGraph [1] [] [2].

(** C10 (faces are never yielded: for a graph of one vertex and one face
    on it, the connected order lists only the vertex; for a graph of one
    face it lists nothing). *)
Theorem C10_faces_not_yielded :
  element_list c10_heap c10_graph "connected" = Ok [1] /\
  element_list c10_heap (mkGraph [] [] [2]) "connected" = Ok [] /\
  element_list c10_heap c10_graph "vef" = Ok [1; 2].
Proof. vm_compute. repeat split. Qed.

(** ** Reciprocity checks of [add_to] and [delete_from] *)

Lemma raises_iff_iff (r : res heap) (P Q : Prop) :
  (P <-> Q) -> raises_iff r P -> raises_iff r Q.
Proof. intros Hpq. destruct r; simpl; [intros Hn Hq; apply Hn, Hpq, Hq|intros [? ?]; split; [done|by apply Hpq]]. Qed.

Lemma vadd_bad_ext (h1 h2 : heap) v g I es :
  (forall e, e ∈ es -> h1 !! e = h2 !! e) ->
  vadd_bad h1 v g I es <-> vadd_bad h2 v g I es.
Proof.
  intros Hext. unfold vadd_bad. split; intros (e & ed & He & Hl & Hrest);
    exists e, ed; rewrite ?(Hext e He) in *; rewrite <-?(Hext e He) in *; auto.
Qed.

Lemma vdel_bad_ext (h1 h2 : heap) v I es :
  (forall e, e ∈ es -> h1 !! e = h2 !! e) ->
  vdel_bad h1 v I es <-> vdel_bad h2 v I es.
Proof.
  intros Hext. unfold vdel_bad. split; intros (e & ed & He & Hl & Hrest);
    exists e, ed; rewrite ?(Hext e He) in *; rewrite <-?(Hext e He) in *; auto.
Qed.

Lemma is_edge_Some (h : heap) e :
  is_edge h e = true -> exists ed, h !! e = Some (OEdge ed).
Proof. unfold is_edge. destruct (h !! e) as [[]|]; try discriminate. eauto. Qed.

Lemma is_vertex_Some (h : heap) w :
  is_vertex h w = true -> exists wv, h !! w = Some (OVertex wv).
Proof. unfold is_vertex. destruct (h !! w) as [[]|]; try discriminate. eauto. Qed.

Lemma vadd_loop_spec h v gid I g es :
  h !! gid = Some (OGraph g) -> NoDup es -> forallb (is_edge h) es = true ->
  raises_iff (vadd_loop h v gid (Some I) es) (vadd_bad h v g I es).
Proof.
  revert h. induction es as [|e es IH]; intros h Hg Hnd Hty; simpl.
  - intros (e & ed & He & _). set_solver.
  - apply NoDup_cons in Hnd as [Hnin Hnd]. simpl in Hty.
    apply andb_prop in Hty as [He Hty].
    destruct (is_edge_Some h e He) as [ed Hed].
    assert (Hne : e <> gid) by (intros ->; congruence).
    (* the edge [e] is not bad: the rest decides *)
    assert (Hrest : forall h', h' !! gid = Some (OGraph g) ->
              (forall e', e' ∈ es -> h' !! e' = h !! e') ->
              ~ ((e ∉ I) /\ ((e ∉ g_edges g) \/ ((v ∉ edge_nbrs ed) /\ e_v1 ed <> None /\ e_v2 ed <> None))) ->
              raises_iff (vadd_loop h' v gid (Some I) es) (vadd_bad h v g I (e :: es))).
    { intros h' Hg' Hext Hgood.
      assert (Hty' : forallb (is_edge h') es = true).
      { apply forallb_forall. intros e' He'.
        apply list_elem_of_In in He'. unfold is_edge. rewrite (Hext e' He').
        apply forallb_forall with (x := e') in Hty; [done|by apply list_elem_of_In]. }
      pose proof (IH h' Hg' Hnd Hty') as Hr.
      assert (Hiff : vadd_bad h v g I (e :: es) <-> vadd_bad h' v g I es).
      { rewrite (vadd_bad_ext h' h v g I es Hext). split.
        - intros (e0 & ed0 & He0 & Hl0 & Hb0).
          apply elem_of_cons in He0 as [->|He0].
          + rewrite Hed in Hl0. injection Hl0 as <-. exfalso. apply Hgood. exact Hb0.
          + exists e0, ed0. auto.
        - intros (e0 & ed0 & He0 & Hl0 & Hb0). exists e0, ed0. split; [set_solver|auto]. }
      destruct (vadd_loop h' v gid (Some I) es); simpl in *; [by rewrite Hiff|].
      destruct Hr as [-> Hb]. split; [done|by apply Hiff]. }
    unfold get_graph at 1. rewrite Hg. simpl.
    destruct (bool_decide (e ∈ g_edges g)) eqn:Hin; simpl.
    2:{ destruct (bool_decide (e ∈ I)) eqn:HI; simpl.
        2:{ split; [done|]. exists e, ed.
            apply bool_decide_eq_false in Hin, HI. split; [set_solver|]. auto. }
        unfold get_edge. rewrite Hed. cbn [res_bind].
        apply bool_decide_eq_true in HI.
        destruct (decide (v ∈ edge_nbrs ed)) as [Hv|Hv].
        { apply Hrest; auto. intros [Hc _]. done. }
        destruct (decide (e_v1 ed = None)) as [H1|H1].
        { apply Hrest; [rewrite lookup_insert_ne; auto| |intros [Hc _]; done].
          intros e' He'. rewrite lookup_insert_ne; [done|]. intros ->. done. }
        destruct (decide (e_v2 ed = None)) as [H2|H2].
        { apply Hrest; [rewrite lookup_insert_ne; auto| |intros [Hc _]; done].
          intros e' He'. rewrite lookup_insert_ne; [done|]. intros ->. done. }
        unfold in_ignore. destruct (bool_decide (e ∈ I)) eqn:HI'; [|by apply bool_decide_eq_false in HI'].
        simpl. apply Hrest; auto. intros [Hc _]. done. }
    apply bool_decide_eq_true in Hin.
    unfold get_edge. rewrite Hed. cbn [res_bind].
    destruct (decide (v ∈ edge_nbrs ed)) as [Hv|Hv].
    { apply Hrest; auto. intros [_ [Hc|(Hc & _)]]; done. }
    destruct (decide (e_v1 ed = None)) as [H1|H1].
    { apply Hrest; [rewrite lookup_insert_ne; auto| |intros [_ [Hc|(_ & Hc & _)]]; done].
      intros e' He'. rewrite lookup_insert_ne; [done|]. intros ->. done. }
    destruct (decide (e_v2 ed = None)) as [H2|H2].
    { apply Hrest; [rewrite lookup_insert_ne; auto| |intros [_ [Hc|(_ & _ & Hc)]]; done].
      intros e' He'. rewrite lookup_insert_ne; [done|]. intros ->. done. }
    unfold in_ignore. simpl.
    destruct (bool_decide (e ∈ I)) eqn:HI; simpl.
    + apply bool_decide_eq_true in HI. apply Hrest; auto. intros [Hc _]. done.
    + apply bool_decide_eq_false in HI. split; [done|].
      exists e, ed. split; [set_solver|]. split; [done|]. split; [done|]. right. auto.
Qed.

Lemma eadd_loop_spec h x gid I g ws :
  h !! gid = Some (OGraph g) -> forallb (is_vertex h) ws = true ->
  raises_iff (eadd_loop h x gid (Some I) ws) (eadd_bad g I ws).
Proof.
  revert h. induction ws as [|w ws IH]; intros h Hg Hty; simpl.
  - intros (w & Hw & _). set_solver.
  - apply andb_prop in Hty as [Hw Hty].
    destruct (is_vertex_Some h w Hw) as [wv Hwv].
    assert (Hne : w <> gid) by (intros ->; congruence).
    unfold get_graph at 1. rewrite Hg. cbn [res_bind].
    assert (Hnext : bool_decide (w ∈ g_vertices g) = true \/ w ∈ I ->
              raises_iff (eadd_loop (<[w:=OVertex (set_vedges wv (set_add x (v_edges wv)))]> h)
                            x gid (Some I) ws) (eadd_bad g I (w :: ws))).
    { intros Hgood.
      assert (Hg' : <[w:=OVertex (set_vedges wv (set_add x (v_edges wv)))]> h !! gid = Some (OGraph g))
        by (rewrite lookup_insert_ne; auto).
      assert (Hty' : forallb (is_vertex (<[w:=OVertex (set_vedges wv (set_add x (v_edges wv)))]> h)) ws = true).
      { apply forallb_forall. intros w' Hw'. unfold is_vertex.
        destruct (decide (w = w')) as [<-|Hne']; [by rewrite lookup_insert_eq|].
        rewrite lookup_insert_ne by done.
        apply forallb_forall with (x := w') in Hty; [done|done]. }
      pose proof (IH _ Hg' Hty') as Hr.
      assert (Hiff : eadd_bad g I (w :: ws) <-> eadd_bad g I ws).
      { split.
        - intros (w0 & Hw0 & Hv0 & HI0). apply elem_of_cons in Hw0 as [->|Hw0].
          + exfalso. destruct Hgood as [Hg0|Hg0]; [apply bool_decide_eq_true in Hg0|]; done.
          + exists w0. auto.
        - intros (w0 & Hw0 & Hv0 & HI0). exists w0. split; [set_solver|auto]. }
      destruct (eadd_loop _ x gid (Some I) ws); simpl in *; [by rewrite Hiff|].
      destruct Hr as [-> Hb]. split; [done|by apply Hiff]. }
    destruct (bool_decide (w ∈ g_vertices g)) eqn:Hin; cbn [res_bind].
    + unfold get_vertex. rewrite Hwv. cbn [res_bind]. apply Hnext. by left.
    + unfold in_ignore. destruct (bool_decide (w ∈ I)) eqn:HI; cbn [res_bind negb].
      * unfold get_vertex. rewrite Hwv. cbn [res_bind]. apply Hnext.
        right. by apply bool_decide_eq_true in HI.
      * split; [done|]. exists w. apply bool_decide_eq_false in Hin, HI. split; [set_solver|auto].
Qed.

Lemma vdel_loop_spec h v I es :
  NoDup es -> forallb (is_edge h) es = true ->
  raises_iff (vdel_loop h v (Some I) es) (vdel_bad h v I es).
Proof.
  revert h. induction es as [|e es IH]; intros h Hnd Hty; simpl.
  - intros (e & ed & He & _). set_solver.
  - apply NoDup_cons in Hnd as [Hnin Hnd].
    apply andb_prop in Hty as [He Hty].
    destruct (is_edge_Some h e He) as [ed Hed].
    assert (Hnext : forall h', (forall e', e' ∈ es -> h' !! e' = h !! e') ->
              (v ∈ edge_nbrs ed \/ e ∈ I) ->
              raises_iff (vdel_loop h' v (Some I) es) (vdel_bad h v I (e :: es))).
    { intros h' Hext Hgood.
      assert (Hty' : forallb (is_edge h') es = true).
      { apply forallb_forall. intros e' He'.
        apply list_elem_of_In in He'. unfold is_edge. rewrite (Hext e' He').
        apply forallb_forall with (x := e') in Hty; [done|by apply list_elem_of_In]. }
      pose proof (IH h' Hnd Hty') as Hr.
      assert (Hiff : vdel_bad h v I (e :: es) <-> vdel_bad h' v I es).
      { rewrite (vdel_bad_ext h' h v I es Hext). split.
        - intros (e0 & ed0 & He0 & Hl0 & Hb0 & HI0).
          apply elem_of_cons in He0 as [->|He0].
          + rewrite Hed in Hl0. injection Hl0 as <-. exfalso. destruct Hgood; done.
          + exists e0, ed0. auto.
        - intros (e0 & ed0 & He0 & Hl0 & Hb0). exists e0, ed0. split; [set_solver|auto]. }
      destruct (vdel_loop h' v (Some I) es); simpl in *; [by rewrite Hiff|].
      destruct Hr as [-> Hb]. split; [done|by apply Hiff]. }
    unfold get_edge. rewrite Hed. cbn [res_bind].
    destruct (decide (v ∈ edge_nbrs ed)) as [Hv|Hv].
    + apply Hnext; [|by left]. intros e' He'. rewrite lookup_insert_ne; [done|].
      intros ->. done.
    + unfold in_ignore. destruct (bool_decide (e ∈ I)) eqn:HI; cbn [res_bind].
      * apply Hnext; [done|]. right. by apply bool_decide_eq_true in HI.
      * split; [done|]. exists e, ed. apply bool_decide_eq_false in HI.
        split; [set_solver|auto].
Qed.


Lemma edel_loop_spec h x I os :
  NoDup (flat_opt os) -> forallb (is_vertex h) (flat_opt os) = true ->
  raises_iff (edel_loop h x (Some I) os) (edel_bad h x I (flat_opt os)).
Proof.
  revert h. induction os as [|[w|] os IH]; intros h Hnd Hty; simpl in *.
  - intros (w & wv & Hw & _). set_solver.
  - apply NoDup_cons in Hnd as [Hnin Hnd].
    apply andb_prop in Hty as [Hw Hty].
    destruct (is_vertex_Some h w Hw) as [wv Hwv].
    assert (Hnext : forall h', (forall w', w' ∈ flat_opt os -> h' !! w' = h !! w') ->
              (x ∈ v_edges wv \/ w ∈ I) ->
              raises_iff (edel_loop h' x (Some I) os) (edel_bad h x I (w :: flat_opt os))).
    { intros h' Hext Hgood.
      assert (Hty' : forallb (is_vertex h') (flat_opt os) = true).
      { apply forallb_forall. intros w' Hw'.
        apply list_elem_of_In in Hw'. unfold is_vertex. rewrite (Hext w' Hw').
        apply forallb_forall with (x := w') in Hty; [done|by apply list_elem_of_In]. }
      pose proof (IH h' Hnd Hty') as Hr.
      assert (Hiff : edel_bad h x I (w :: flat_opt os) <-> edel_bad h' x I (flat_opt os)).
      { split.
        - intros (w0 & wv0 & Hw0 & Hl0 & Hb0 & HI0).
          apply elem_of_cons in Hw0 as [->|Hw0].
          + rewrite Hwv in Hl0. injection Hl0 as <-. exfalso. destruct Hgood; done.
          + exists w0, wv0. rewrite (Hext w0 Hw0). auto.
        - intros (w0 & wv0 & Hw0 & Hl0 & Hb0). exists w0, wv0.
          rewrite (Hext w0 Hw0) in Hl0. split; [set_solver|auto]. }
      destruct (edel_loop h' x (Some I) os); simpl in *; [by rewrite Hiff|].
      destruct Hr as [-> Hb]. split; [done|by apply Hiff]. }
    unfold get_vertex. rewrite Hwv. cbn [res_bind].
    destruct (decide (x ∈ v_edges wv)) as [Hx|Hx].
    + apply Hnext; [|by left]. intros w' Hw'. rewrite lookup_insert_ne; [done|].
      intros ->. done.
    + unfold in_ignore. destruct (bool_decide (w ∈ I)) eqn:HI; cbn [res_bind].
      * apply Hnext; [done|]. right. by apply bool_decide_eq_true in HI.
      * split; [done|]. exists w, wv. apply bool_decide_eq_false in HI.
        split; [set_solver|auto].
  - apply IH; done.
Qed.

Definition c8_heap : heap :=
  {[ 1 := OGraph (mkGraph [] [3] []); 2 := OVertex (mkVertex [] [3]);
     3 := OEdge (mkEdge [] None None) ]}.

(** C8 (counterexample): the vertex [2] references the edge [3] of the
    graph [1], which does not reference it back; adding [2] with an
    empty ignore-set does not raise: [add_to] connects [3] to [2]. *)
Lemma C8_add_repairs_violation :
  ~ (2 ∈ nbrs c8_heap 3) /\ 3 ∈ nbrs c8_heap 2 /\
  element_add_to c8_heap 2 1 (Some []) =
    Ok (<[3 := OEdge (mkEdge [] (Some 2) None)]>
         (<[1 := OGraph (mkGraph [2] [3] [])]> c8_heap)).
Proof. vm_compute. repeat split; [set_solver|set_solver]. Qed.

(** C8 (amended): let [x] be a vertex whose incident edges are distinct
    edge objects, or an edge whose endpoints are vertex objects, [G] a
    graph and [I] an explicitly passed ignore-set.  [x.add_to(G, I)]
    (what [Graph.add] calls after stamping ['.generation']) raises
    [ModelGenIncongruentGraphStateError], and no other exception, exactly
    when some incident edge of the vertex outside [I] is not in [G] or
    does not list the vertex while both its endpoint slots are taken, or
    some endpoint of the edge outside [I] is not a vertex of [G]; else it
    succeeds.  For [x] in [G] and not a self-loop, [G.discard(x, I)]
    raises it, and no other exception, exactly when some incident edge of
    the vertex outside [I] does not list the vertex, or some endpoint of
    the edge outside [I] does not list the edge; else it succeeds. *)
Theorem C8_reciprocity_errors (h : heap) (gid : nat) (g : graph) (x : nat) (I : list nat) :
  h !! gid = Some (OGraph g) -> refs_typed h x = true ->
  raises_iff (element_add_to h x gid (Some I)) (add_violation h g x I) /\
  (in_graph h g x = true -> self_loop h x = false ->
   raises_iff (graph_discard h gid x (Some I)) (del_violation h x I)).
Proof.
  intros Hg Hty. unfold refs_typed, in_graph, self_loop in *.
  unfold element_add_to, graph_discard, add_violation, del_violation.
  destruct (h !! x) as [[vx|ex| |]|] eqn:Hx; try discriminate.
  - apply andb_prop in Hty as [Hnd Hty]. apply bool_decide_eq_true in Hnd.
    assert (Hne : x <> gid) by (intros ->; congruence).
    split.
    + unfold vertex_add_to, get_graph, get_vertex. rewrite Hg, Hx. cbn [res_bind].
      set (g' := set_vertices g (g_vertices g ++ [x])).
      assert (Hty' : forallb (is_edge (<[gid:=OGraph g']> h)) (v_edges vx) = true).
      { apply forallb_forall. intros e He. unfold is_edge.
        rewrite lookup_insert_ne.
        - apply forallb_forall with (x := e) in Hty; [done|done].
        - intros <-. apply forallb_forall with (x := gid) in Hty; [|done].
          unfold is_edge in Hty. rewrite Hg in Hty. discriminate. }
      pose proof (vadd_loop_spec (<[gid:=OGraph g']> h) x gid I g' (v_edges vx)
                    ltac:(by rewrite lookup_insert_eq) Hnd Hty') as Hr.
      assert (Hiff : vadd_bad (<[gid:=OGraph g']> h) x g' I (v_edges vx) <->
                     vadd_bad h x g I (v_edges vx)).
      { rewrite (vadd_bad_ext _ h).
        - unfold vadd_bad. done.
        - intros e He. rewrite lookup_insert_ne; [done|]. intros <-.
          apply list_elem_of_In in He.
          apply forallb_forall with (x := gid) in Hty; [|done].
          unfold is_edge in Hty. rewrite Hg in Hty. discriminate. }
      destruct (vadd_loop _ x gid (Some I) (v_edges vx)); simpl in *; [by rewrite <- Hiff|].
      destruct Hr as [-> Hb]. split; [done|by apply Hiff].
    + intros Hin _. apply bool_decide_eq_true in Hin.
      unfold vertex_delete_from, get_graph, get_vertex, py_remove. rewrite Hg.
      cbn [res_bind]. rewrite decide_True by done. cbn [res_bind]. rewrite Hx. cbn [res_bind].
      set (g' := set_vertices g (list_remove x (g_vertices g))).
      assert (Hext : forall e, e ∈ v_edges vx -> <[gid:=OGraph g']> h !! e = h !! e).
      { intros e He. rewrite lookup_insert_ne; [done|]. intros <-.
        apply list_elem_of_In in He.
        apply forallb_forall with (x := gid) in Hty; [|done].
        unfold is_edge in Hty. rewrite Hg in Hty. discriminate. }
      assert (Hty' : forallb (is_edge (<[gid:=OGraph g']> h)) (v_edges vx) = true).
      { apply forallb_forall. intros e He. unfold is_edge.
        rewrite Hext by (by apply list_elem_of_In).
        apply forallb_forall with (x := e) in Hty; [done|done]. }
      pose proof (vdel_loop_spec (<[gid:=OGraph g']> h) x I (v_edges vx) Hnd Hty') as Hr.
      eapply raises_iff_iff; [|exact Hr]. by apply vdel_bad_ext.
  - assert (Hne : x <> gid) by (intros ->; congruence).
    split.
    + unfold edge_add_to, get_graph, get_edge. rewrite Hg, Hx. cbn [res_bind].
      set (g' := set_edges g (g_edges g ++ [x])).
      assert (Hty' : forallb (is_vertex (<[gid:=OGraph g']> h)) (edge_nbrs ex) = true).
      { apply forallb_forall. intros w Hw. unfold is_vertex.
        rewrite lookup_insert_ne.
        - apply forallb_forall with (x := w) in Hty; [done|done].
        - intros <-. apply forallb_forall with (x := gid) in Hty; [|done].
          unfold is_vertex in Hty. rewrite Hg in Hty. discriminate. }
      exact (eadd_loop_spec (<[gid:=OGraph g']> h) x gid I g' (edge_nbrs ex)
               ltac:(by rewrite lookup_insert_eq) Hty').
    + intros Hin Hloop. apply bool_decide_eq_true in Hin.
      unfold edge_delete_from, get_graph, get_edge, py_remove. rewrite Hg.
      cbn [res_bind]. rewrite decide_True by done. cbn [res_bind]. rewrite Hx. cbn [res_bind].
      set (g' := set_edges g (list_remove x (g_edges g))).
      assert (Hflat : flat_opt [e_v1 ex; e_v2 ex] = edge_nbrs ex).
      { unfold flat_opt, edge_nbrs. simpl. by rewrite app_nil_r. }
      assert (Hext : forall w, w ∈ edge_nbrs ex -> <[gid:=OGraph g']> h !! w = h !! w).
      { intros w Hw. rewrite lookup_insert_ne; [done|]. intros <-.
        apply list_elem_of_In in Hw.
        apply forallb_forall with (x := gid) in Hty; [|done].
        unfold is_vertex in Hty. rewrite Hg in Hty. discriminate. }
      assert (Hnd : NoDup (edge_nbrs ex)).
      { unfold edge_nbrs. destruct (e_v1 ex) as [a|], (e_v2 ex) as [b|]; simpl;
          try by repeat constructor; set_solver.
        apply bool_decide_eq_false in Hloop. repeat constructor; set_solver. }
      assert (Hty' : forallb (is_vertex (<[gid:=OGraph g']> h)) (edge_nbrs ex) = true).
      { apply forallb_forall. intros w Hw. unfold is_vertex.
        rewrite Hext by (by apply list_elem_of_In).
        apply forallb_forall with (x := w) in Hty; [done|done]. }
      rewrite <- Hflat in Hnd, Hty'.
      pose proof (edel_loop_spec (<[gid:=OGraph g']> h) x I [e_v1 ex; e_v2 ex] Hnd Hty') as Hr.
      rewrite Hflat in Hr.
      assert (Hiff : edel_bad (<[gid:=OGraph g']> h) x I (edge_nbrs ex) <->
                     edel_bad h x I (edge_nbrs ex)).
      { unfold edel_bad. split; intros (w & wv & Hw & Hl & Hrest); exists w, wv;
          rewrite ?(Hext w Hw) in *; auto. }
      destruct (edel_loop _ x (Some I) [e_v1 ex; e_v2 ex]); simpl in *; [by rewrite <- Hiff|].
      destruct Hr as [-> Hb]. split; [done|by apply Hiff].
Qed.

(** A vertex [2] in the graph [1] whose edge [3] ends elsewhere. *)
Definition c8_heap2 : heap :=
  {[ 1 := OGraph (mkGraph [2; 4] [3] []); 2 := OVertex (mkVertex [] [3]);
     3 := OEdge (mkEdge [] (Some 4) None); 4 := OVertex (mkVertex [] [3]) ]}.

Lemma C8_reciprocity_errors_witness :
  c8_heap2 !! 1 = Some (OGraph (mkGraph [2; 4] [3] [])) /\ refs_typed c8_heap2 2 = true /\
  in_graph c8_heap2 (mkGraph [2; 4] [3] []) 2 = true /\ self_loop c8_heap2 2 = false /\
  raises_iff (graph_discard c8_heap2 1 2 (Some [])) (del_violation c8_heap2 2 []).
Proof.
  split; [reflexivity|]. split; [vm_compute; reflexivity|].
  split; [vm_compute; reflexivity|]. split; [vm_compute; reflexivity|].
  apply (C8_reciprocity_errors c8_heap2 1 (mkGraph [2; 4] [3] []) 2 []);
    vm_compute; reflexivity.
Defined.

(** ** Dicts as association lists *)

Lemma elem_of_removelast {A} (x : A) (l : list A) : x ∈ removelast l -> x ∈ l.
Proof.
  induction l as [|a l IH]; [done|]. simpl.
  destruct l as [|b l']; [intros Hx; set_solver|].
  intros Hx. apply elem_of_cons in Hx as [->|Hx]; [left|right; by apply IH].
Qed.

Section DictLemmas.
Context {K V : Type} `{EqDecision K}.

Lemma dget_dset (k k' : K) (v : V) (d : list (K * V)) :
  dget k (dset k' v d) = if decide (k = k') then Some v else dget k d.
Proof.
  induction d as [|[k0 v0] d IH]; simpl; [done|].
  destruct (decide (k' = k0)) as [<-|Hne]; simpl.
  - destruct (decide (k = k')); done.
  - rewrite IH. destruct (decide (k = k0)) as [->|]; [|done].
    rewrite decide_False by done. done.
Qed.

Lemma dkeys_dset (k k' : K) (v : V) (d : list (K * V)) :
  k ∈ dkeys (dset k' v d) <-> k = k' \/ k ∈ dkeys d.
Proof.
  unfold dkeys. induction d as [|[k0 v0] d IH]; simpl.
  - set_solver.
  - destruct (decide (k' = k0)) as [<-|Hne]; simpl; rewrite ?elem_of_cons; [tauto|].
    rewrite IH. tauto.
Qed.

Lemma dget_None (k : K) (d : list (K * V)) : dget k d = None <-> k ∉ dkeys d.
Proof.
  unfold dkeys. induction d as [|[k0 v0] d IH]; simpl; [set_solver|].
  rewrite elem_of_cons. destruct (decide (k = k0)); [split; [done|tauto]|].
  rewrite IH. tauto.
Qed.

Lemma dget_Some_keys (k : K) (v : V) (d : list (K * V)) : dget k d = Some v -> k ∈ dkeys d.
Proof.
  intros Hk. destruct (decide (k ∈ dkeys d)) as [|Hn]; [done|].
  apply dget_None in Hn. congruence.
Qed.

Lemma dget_Some_vals (k : K) (v : V) (d : list (K * V)) : dget k d = Some v -> v ∈ dvals d.
Proof.
  unfold dvals. induction d as [|[k0 v0] d IH]; simpl; [done|].
  destruct (decide (k = k0)); [intros [= <-]; left|intros Hd; right; auto].
Qed.

Lemma dvals_dget (v : V) (d : list (K * V)) :
  NoDup (dkeys d) -> v ∈ dvals d -> exists k, dget k d = Some v.
Proof.
  induction d as [|[k0 v0] d IH]; simpl; [set_solver|].
  intros Hnd. apply NoDup_cons in Hnd as [Hn Hnd].
  unfold dvals; simpl. rewrite elem_of_cons. intros [->|Hv]; [exists k0; by rewrite decide_True|].
  destruct (IH Hnd Hv) as [k Hk]. exists k. rewrite decide_False; [done|].
  intros ->. apply Hn. by apply (dget_Some_keys _ v).
Qed.

Lemma NoDup_dkeys_dset (k : K) (v : V) (d : list (K * V)) :
  NoDup (dkeys d) -> NoDup (dkeys (dset k v d)).
Proof.
  unfold dkeys. induction d as [|[k0 v0] d IH]; simpl; intros Hnd.
  - repeat constructor; set_solver.
  - apply NoDup_cons in Hnd as [Hn Hnd].
    destruct (decide (k = k0)) as [<-|Hne]; simpl; constructor; auto.
    pose proof (dkeys_dset k0 k v d) as Hk. unfold dkeys in Hk. rewrite Hk.
    intros [->|Hin]; [by apply Hne|done].
Qed.

Lemma dset_fresh (k : K) (v : V) (d : list (K * V)) :
  k ∉ dkeys d -> dset k v d = d ++ [(k, v)].
Proof.
  unfold dkeys. induction d as [|[k0 v0] d IH]; simpl; [done|].
  rewrite elem_of_cons. intros Hn. rewrite decide_False by tauto. rewrite IH by tauto. done.
Qed.

Lemma dget_inj (k1 k2 : K) (v : V) (d : list (K * V)) :
  NoDup (dvals d) -> dget k1 d = Some v -> dget k2 d = Some v -> k1 = k2.
Proof.
  unfold dvals. induction d as [|[k0 v0] d IH]; simpl; [done|].
  intros Hnd. apply NoDup_cons in Hnd as [Hn Hnd].
  destruct (decide (k1 = k0)) as [->|H1], (decide (k2 = k0)) as [->|H2]; try done.
  - intros [= <-] Hk2. exfalso. apply Hn. by apply (dget_Some_vals k2).
  - intros Hk1 [= <-]. exfalso. apply Hn. by apply (dget_Some_vals k1).
  - by apply IH.
Qed.

Lemma dfrom_fold_spec (l acc : list (K * V)) (k : K) (v : V) :
  dget k (fold_left (fun acc kv => dset kv.1 kv.2 acc) l acc) = Some v ->
  dget k acc = Some v \/ (k, v) ∈ l.
Proof.
  revert acc. induction l as [|[k0 v0] l IH]; intros acc; simpl; [by left|].
  intros Hk. destruct (IH _ Hk) as [Ha|Hin]; [|right; set_solver].
  rewrite dget_dset in Ha. destruct (decide (k = k0)) as [->|]; [injection Ha as ->; right; set_solver|].
  by left.
Qed.

Lemma NoDup_dkeys_fold (l acc : list (K * V)) :
  NoDup (dkeys acc) -> NoDup (dkeys (fold_left (fun acc kv => dset kv.1 kv.2 acc) l acc)).
Proof.
  revert acc. induction l as [|[k0 v0] l IH]; intros acc Hnd; simpl; [done|].
  apply IH. by apply NoDup_dkeys_dset.
Qed.

Lemma last_dget (d : list (K * V)) (k : K) (v : V) :
  NoDup (dkeys d) -> last d = Some (k, v) -> dget k d = Some v.
Proof.
  unfold dkeys. induction d as [|[k0 v0] d IH]; simpl; [done|].
  intros Hnd. apply NoDup_cons in Hnd as [Hn Hnd].
  destruct d as [|kv d'] eqn:Hd.
  - intros [= -> ->]. by rewrite decide_True.
  - intros Hl. rewrite <- Hd in *. assert (Hk : dget k d = Some v) by (apply IH; [done|by subst]).
    rewrite decide_False; [done|]. intros ->. apply Hn.
    pose proof (dget_Some_keys _ _ _ Hk) as Hk'. exact Hk'.
Qed.

Lemma removelast_dget (d : list (K * V)) (k k' : K) (v : V) :
  NoDup (dkeys d) -> last d = Some (k, v) ->
  dget k' (removelast d) = if decide (k' = k) then None else dget k' d.
Proof.
  unfold dkeys. induction d as [|[k0 v0] d IH]; simpl; [done|].
  intros Hnd. apply NoDup_cons in Hnd as [Hn Hnd].
  destruct d as [|kv d'] eqn:Hd.
  - intros [= -> ->]. simpl. destruct (decide (k' = k)); done.
  - intros Hl. rewrite <- Hd in *. simpl. rewrite IH by (done || by subst).
    assert (Hk : k ∈ map fst d).
    { pose proof (last_dget d k v Hnd ltac:(by subst)) as Hk. exact (dget_Some_keys _ _ _ Hk). }
    destruct (decide (k' = k0)) as [->|]; destruct (decide (k0 = k)) as [->|]; try done.
Qed.

Lemma removelast_NoDup (d : list (K * V)) : NoDup (dkeys d) -> NoDup (dkeys (removelast d)).
Proof.
  unfold dkeys. destruct d as [|kv d]; [done|].
  rewrite (app_removelast_last (l := kv :: d) kv) at 1 by done.
  rewrite map_app. intros Hnd. apply NoDup_app in Hnd. tauto.
Qed.
End DictLemmas.

Lemma dget_Some_elem {K V} `{EqDecision K} (k : K) (v : V) (d : list (K * V)) :
  dget k d = Some v -> (k, v) ∈ d.
Proof.
  induction d as [|[k0 v0] d IH]; simpl; [done|].
  destruct (decide (k = k0)) as [->|]; [intros [= ->]; left|intros Hk; right; auto].
Qed.

Lemma elem_of_rev {A} (x : A) (l : list A) : x ∈ rev l -> x ∈ l.
Proof. rewrite !list_elem_of_In. intros H. apply in_rev. exact H. Qed.

Lemma rev_elem_of {A} (x : A) (l : list A) : x ∈ l -> x ∈ rev l.
Proof. rewrite !list_elem_of_In. intros H. apply in_rev. rewrite rev_involutive. exact H. Qed.

(** ** Graph shapes *)

Lemma graph_closed_spec (h : heap) (g : graph) :
  graph_closed h g = true ->
  (forall x, x ∈ g_vertices g -> is_vertex h x = true /\ forall y, y ∈ nbrs h x -> y ∈ g_edges g) /\
  (forall x, x ∈ g_edges g -> is_edge h x = true /\ forall y, y ∈ nbrs h x -> y ∈ g_vertices g).
Proof.
  unfold graph_closed. intros Hc. apply andb_prop in Hc as [Hv He].
  split; intros x Hx.
  - apply forallb_forall with (x := x) in Hv; [|by apply list_elem_of_In].
    apply andb_prop in Hv as [Hv Hn]. split; [done|]. intros y Hy.
    apply forallb_forall with (x := y) in Hn; [|by apply list_elem_of_In].
    by apply bool_decide_eq_true in Hn.
  - apply forallb_forall with (x := x) in He; [|by apply list_elem_of_In].
    apply andb_prop in He as [He Hn]. split; [done|]. intros y Hy.
    apply forallb_forall with (x := y) in Hn; [|by apply list_elem_of_In].
    by apply bool_decide_eq_true in Hn.
Qed.

Lemma closed_nbrs (h : heap) (g : graph) x y :
  graph_closed h g = true -> x ∈ graph_ve g -> y ∈ nbrs h x -> y ∈ graph_ve g.
Proof.
  intros Hc Hx Hy. apply graph_closed_spec in Hc as [Hv He]. unfold graph_ve in *.
  apply elem_of_app in Hx as [Hx|Hx].
  - apply elem_of_app. right. by apply (Hv x Hx).
  - apply elem_of_app. left. by apply (He x Hx).
Qed.

Lemma closed_nbrs_not_self (h : heap) (g : graph) x :
  graph_closed h g = true -> x ∈ graph_ve g -> x ∉ nbrs h x.
Proof.
  intros Hc Hx Hin. apply graph_closed_spec in Hc as [Hv He]. unfold graph_ve in *.
  apply elem_of_app in Hx as [Hx|Hx].
  - destruct (Hv x Hx) as [Hvx Hn]. specialize (Hn x Hin).
    destruct (He x Hn) as [Hex _]. unfold is_vertex, is_edge in *.
    destruct (h !! x) as [[]|]; discriminate.
  - destruct (He x Hx) as [Hex Hn]. specialize (Hn x Hin).
    destruct (Hv x Hn) as [Hvx _]. unfold is_vertex, is_edge in *.
    destruct (h !! x) as [[]|]; discriminate.
Qed.

Lemma elem_matches_kind (h : heap) ev v k b :
  elem_matches h ev v k (Some b) = Ok true ->
  is_vertex h v = is_vertex h k /\ is_edge h v = is_edge h k /\ is_element h v = true.
Proof.
  unfold elem_matches, is_vertex, is_edge, is_element.
  destruct (h !! v) as [[]|]; try discriminate;
    destruct (h !! k) as [[]|]; simpl; try discriminate; auto.
Qed.

(** ** The connected iteration stays inside a closed graph *)

Lemma pop_unmarked_spec marked unv x r :
  pop_unmarked marked unv = (Some x, r) -> x ∈ unv /\ forall y, y ∈ r -> y ∈ unv.
Proof.
  induction unv as [|u unv IH]; simpl; [done|].
  destruct (decide (u ∈ marked)).
  - intros Hp. destruct (IH Hp) as [Hx Hr]. split; [by right|]. intros y Hy. right. auto.
  - intros [= -> ->]. split; [left|]. intros y Hy. by right.
Qed.

Lemma first_element_in (g : graph) x : first_element g = Some x -> x ∈ graph_ve g.
Proof.
  unfold first_element, graph_ve.
  destruct (g_vertices g) as [|v vs]; [|intros [= ->]; left].
  destruct (g_edges g) as [|e es]; [done|]. intros [= ->]. simpl. left.
Qed.

Lemma unconnected_in (g : graph) total marked x :
  unconnected g total marked = Ok x -> x ∈ graph_ve g.
Proof.
  unfold unconnected, graph_ve. destruct (length marked <? total); [|done].
  rewrite elem_of_app.
  destruct (find _ (g_vertices g)) as [v|] eqn:Hf.
  - intros [= <-]. left. apply find_some in Hf as [Hin _]. by apply list_elem_of_In.
  - destruct (find _ (g_edges g)) as [e|] eqn:Hf'; [|done].
    intros [= <-]. right. apply find_some in Hf' as [Hin _]. by apply list_elem_of_In.
Qed.

Lemma iter_next_inside (h : heap) (g : graph) st x st' :
  graph_closed h g = true -> iter_inside g st ->
  iter_next h g (iter_total g) st = Ok (x, st') -> x ∈ graph_ve g /\ iter_inside g st'.
Proof.
  intros Hc Hst. unfold iter_next.
  destruct (pop_unmarked (it_marked st) (it_unvisited st)) as [el unv] eqn:Hp.
  assert (Hx : forall x', match el with Some x => Ok x | None => unconnected g (iter_total g) (it_marked st) end
                 = Ok x' -> x' ∈ graph_ve g /\ forall y, y ∈ unv -> y ∈ graph_ve g).
  { intros x' He. destruct el as [x0|].
    - injection He as ->. apply pop_unmarked_spec in Hp as [Hx Hr]. split; [by apply Hst|].
      intros y Hy. apply Hst, Hr, Hy.
    - split; [by apply unconnected_in in He|]. simpl in Hp.
      intros y Hy. exfalso. clear -Hp Hy. revert Hp.
      generalize (it_unvisited st). induction l as [|u l IH]; simpl; [intros [= <-]; set_solver|].
      destruct (decide (u ∈ it_marked st)); [exact IH|done]. }
  destruct (match el with Some x => Ok x | None => unconnected g (iter_total g) (it_marked st) end)
    as [x0|] eqn:Hel; simpl; try discriminate.
  intros [= <- <-]. destruct (Hx x0 eq_refl) as [Hx0 Hunv]. split; [done|].
  unfold iter_inside. simpl. intros y Hy. apply elem_of_app in Hy as [Hy|Hy]; [by apply Hunv|].
  apply list_elem_of_In, filter_In in Hy as [Hy _]. apply list_elem_of_In in Hy.
  by apply (closed_nbrs h g x0).
Qed.

Lemma init_loop_spec (h : heap) ev ea a (H : graph) fuel st tasks :
  graph_closed h H = true -> iter_inside H st ->
  init_loop h ev ea a H fuel st = Ok tasks ->
  forall t, t ∈ tasks -> exists own, own ∈ graph_ve H /\
    elem_matches h ev own a (Some ea) = Ok true /\
    t = (mapping_of [(a, own)], dfrom (map (fun e => (e, a)) (nbrs h a))).
Proof.
  intros Hc. revert st tasks. induction fuel as [|f IH]; intros st tasks Hst; simpl; [done|].
  destruct (iter_next h H (iter_total H) st) as [[x st']|e] eqn:Hn.
  - destruct (iter_next_inside h H st x st' Hc Hst Hn) as [Hx Hst'].
    cbn [res_bind]. destruct (elem_matches h ev x a (Some ea)) as [b|] eqn:Hm; [|done].
    cbn [res_bind]. destruct (init_loop h ev ea a H f st') as [rest|] eqn:Hr; [|done].
    cbn [res_bind]. intros [= <-] t Ht. destruct b.
    + apply elem_of_cons in Ht as [->|Ht]; [by exists x|]. by apply (IH st' rest).
    + by apply (IH st' rest).
  - destruct e; try discriminate. intros [= <-] t Ht. set_solver.
Qed.

Lemma get_any_element_first (h : heap) (g : graph) a :
  get_any_element h g = Ok (Some a) -> first_element g = Some a.
Proof.
  unfold get_any_element, iter_next, iter_init. simpl.
  destruct (first_element g) as [x|] eqn:Hf; simpl.
  - destruct (decide (x ∈ [])) as [Hx|]; [set_solver|]. simpl. by intros [= ->].
  - unfold first_element in Hf. unfold unconnected, iter_total. simpl.
    destruct (g_vertices g); [|done]. destruct (g_edges g); [|done]. done.
Qed.

Lemma candidates_spec (h : heap) ev ea m other parent own_parent l poss :
  candidates h ev ea m other parent own_parent l = Ok poss ->
  forall nm, nm ∈ poss -> exists own, own ∈ l /\
    directed_ok h other parent own own_parent = Ok true /\
    (own ∉ dvals (m_items m)) /\
    elem_matches h ev own other (Some ea) = Ok true /\
    nm = mapping_set other own (mapping_of (m_items m)).
Proof.
  revert poss. induction l as [|own l IH]; intros poss; simpl; [intros [= <-]; set_solver|].
  destruct (directed_ok h other parent own own_parent) as [[]|] eqn:Hd; cbn [res_bind negb]; try done.
  2: { intros Hc nm Hnm. destruct (IH poss Hc nm Hnm) as (o & ?). exists o. intuition. by right. }
  destruct (decide (own ∈ dvals (m_items m))) as [Hin|Hnin].
  { intros Hc nm Hnm. destruct (IH poss Hc nm Hnm) as (o & ?). exists o. intuition. by right. }
  destruct (elem_matches h ev own other (Some ea)) as [[]|] eqn:Hm; cbn [res_bind negb]; try done.
  2: { intros Hc nm Hnm. destruct (IH poss Hc nm Hnm) as (o & ?). exists o. intuition. by right. }
  destruct (compatible h m own other); cbn [negb].
  2: { intros Hc nm Hnm. destruct (IH poss Hc nm Hnm) as (o & ?). exists o. intuition. by right. }
  destruct (candidates h ev ea m other parent own_parent l) as [rest|] eqn:Hr; cbn [res_bind]; [|done].
  intros [= <-] nm Hnm. apply elem_of_cons in Hnm as [->|Hnm].
  - exists own. repeat split; auto. left.
  - destruct (IH rest eq_refl nm Hnm) as (o & ?). exists o. intuition. by right.
Qed.

Lemma extend_frontier_fold (m : mapping) (other : nat) (L : list nat) (acc : list (nat * nat)) n p :
  dget n (fold_left (fun acc n => if decide (n ∈ dkeys (m_items m)) then acc else dset n other acc) L acc)
    = Some p ->
  dget n acc = Some p \/ (p = other /\ n ∈ L /\ (n ∉ dkeys (m_items m))).
Proof.
  revert acc. induction L as [|x L IH]; intros acc; simpl; [by left|].
  intros Hf. destruct (IH _ Hf) as [Ha|(-> & HL & Hk)]; [|right; split_and!; [done|by right|done]].
  destruct (decide (x ∈ dkeys (m_items m))) as [|Hx]; [by left|].
  rewrite dget_dset in Ha. destruct (decide (n = x)) as [->|]; [|by left].
  injection Ha as <-. right. split_and!; [done|left|done].
Qed.

Lemma extend_frontier_NoDup (m : mapping) (other : nat) (L : list nat) (acc : list (nat * nat)) :
  NoDup (dkeys acc) ->
  NoDup (dkeys (fold_left (fun acc n => if decide (n ∈ dkeys (m_items m)) then acc else dset n other acc) L acc)).
Proof.
  revert acc. induction L as [|x L IH]; intros acc Hnd; simpl; [done|].
  apply IH. destruct (decide _); [done|]. by apply NoDup_dkeys_dset.
Qed.

Lemma check_nbrs_spec (h : heap) items hv L :
  check_nbrs h items hv L = Ok true ->
  forall mn, mn ∈ L -> exists img, dget mn items = Some img /\ img ∈ nbrs h hv.
Proof.
  induction L as [|x L IH]; simpl; [set_solver|].
  destruct (dget x items) as [img|] eqn:Hx; [|done].
  case_bool_decide; [|done]. intros Hc mn Hmn.
  apply elem_of_cons in Hmn as [->|Hmn]; [by exists img|]. by apply IH.
Qed.

Lemma check_items_spec (h : heap) items l :
  check_items h items l = Ok true ->
  forall mk hv, (mk, hv) ∈ l -> check_nbrs h items hv (nbrs h mk) = Ok true.
Proof.
  induction l as [|[mk0 hv0] l IH]; simpl; [set_solver|].
  destruct (check_nbrs h items hv0 (nbrs h mk0)) as [[]|] eqn:Hc; cbn [res_bind]; try done.
  intros Hl mk hv Hin. apply elem_of_cons in Hin as [[= -> ->]|Hin]; [done|]. by apply IH.
Qed.

Lemma dir_ok_key_mono (h : heap) d d' k v :
  (forall p fp, dget p d = Some fp -> dget p d' = Some fp) ->
  dir_ok_key h d k v -> dir_ok_key h d' k v.
Proof.
  intros Hm Hd pe Hk Hdir. destruct (Hd pe Hk Hdir) as [?|(p & fp & he & Hp & Hv & Hr)]; [by left|].
  right. exists p, fp, he. auto.
Qed.

(** ** The task invariant *)

Lemma init_task_inv (h : heap) ev ea (H P : graph) a own :
  graph_closed h P = true -> first_element P = Some a -> own ∈ graph_ve H ->
  elem_matches h ev own a (Some ea) = Ok true ->
  task_inv h ev ea H P (mapping_of [(a, own)], dfrom (map (fun e => (e, a)) (nbrs h a))).
Proof.
  intros HcP Hf Hown Hm. pose proof (first_element_in P a Hf) as HaP.
  unfold task_inv. cbn [fst snd m_items mapping_of]. split_and!.
  - apply NoDup_singleton.
  - apply NoDup_singleton.
  - unfold dfrom. apply NoDup_dkeys_fold. constructor.
  - intros k v. simpl. destruct (decide (k = a)) as [->|]; [intros [= <-]|done].
    split_and!; [done|done|done|]. intros pe Hpe Hdir. left.
    apply graph_closed_spec in HcP as [HV HE].
    unfold first_element in Hf. destruct (g_vertices P) as [|x vs] eqn:Hvs.
    + unfold graph_ve in HaP. rewrite Hvs in HaP. simpl in HaP.
      destruct (HE a HaP) as [_ Hn]. unfold nbrs in Hn. rewrite Hpe in Hn. simpl in Hn.
      destruct (edge_nbrs pe) as [|y ys]; [done|]. exfalso.
      specialize (Hn y ltac:(left)). rewrite ?Hvs in Hn. set_solver.
    + injection Hf as ->. destruct (HV a ltac:(left)) as [Hv _].
      unfold is_vertex in Hv. rewrite Hpe in Hv. discriminate.
  - intros n p Hn. unfold dfrom in Hn. apply dfrom_fold_spec in Hn as [Hn|Hn]; [done|].
    apply list_elem_of_In, in_map_iff in Hn as (e & [= -> ->] & He).
    apply list_elem_of_In in He. split_and!.
    + unfold dkeys. simpl. intros Hin. apply list_elem_of_singleton in Hin as ->.
      match goal with He : ?x ∈ nbrs h ?x |- _ => by apply (closed_nbrs_not_self h P x) end.
    + unfold dkeys. simpl. left.
    + done.
Qed.

Lemma new_task_inv (h : heap) ev ea (H P : graph) m un other parent op own :
  graph_closed h H = true -> graph_closed h P = true ->
  task_inv h ev ea H P (m, un) -> last un = Some (other, parent) ->
  dget parent (m_items m) = Some op -> own ∈ nbrs h op ->
  directed_ok h other parent own op = Ok true -> (own ∉ dvals (m_items m)) ->
  elem_matches h ev own other (Some ea) = Ok true ->
  task_inv h ev ea H P (mapping_set other own (mapping_of (m_items m)),
                        extend_frontier h m other (removelast un)).
Proof.
  intros HcH HcP (Hk & Hv & Hu & Hitems & Hfr) Hlast Hop Hown Hdok Hnv Hm.
  cbn [fst snd] in *. set (d := m_items m) in *.
  pose proof (last_dget un other parent Hu Hlast) as Hou.
  destruct (Hfr other parent Hou) as (Hofresh & Hpar & Honb).
  destruct (Hitems parent op Hop) as (HparP & HopH & _ & _).
  pose proof (closed_nbrs h P parent other HcP HparP Honb) as HoP.
  pose proof (closed_nbrs h H op own HcH HopH Hown) as HownH.
  pose proof (dset_fresh other own d Hofresh) as Hfresh.
  assert (Hpar' : dget parent (dset other own d) = Some op).
  { rewrite dget_dset. destruct (decide (parent = other)) as [->|]; [|done].
    exfalso. by apply Hofresh. }
  unfold task_inv. cbn [fst snd m_items mapping_set mapping_of]. fold d. split_and!.
  - by apply NoDup_dkeys_dset.
  - rewrite Hfresh. unfold dvals. rewrite map_app. simpl. apply NoDup_app. split_and!.
    + exact Hv.
    + intros x Hx Hx'. apply list_elem_of_singleton in Hx' as ->. by apply Hnv.
    + apply NoDup_singleton.
  - unfold extend_frontier. apply extend_frontier_NoDup. by apply removelast_NoDup.
  - intros k v. rewrite dget_dset. destruct (decide (k = other)) as [->|Hne].
    + intros [= <-]. split_and!; [done|done|done|].
      intros pe Hpe Hdir. right. unfold directed_ok in Hdok. rewrite Hpe in Hdok.
      unfold is_directed in Hdir. rewrite Hpe in Hdir.
      destruct (dget ".directed"%string (e_attr pe)) as [dv|]; [|discriminate].
      rewrite Hdir in Hdok.
      destruct (decide (e_v1 pe = Some parent)) as [H1|H1].
      * destruct (h !! own) as [[|he| |]|] eqn:Ho; try discriminate.
        injection Hdok as Hb. apply bool_decide_eq_true in Hb.
        exists parent, op, he. split_and!; [done|done|]. by left.
      * destruct (decide (e_v2 pe = Some parent)) as [H2|H2]; [|discriminate].
        destruct (h !! own) as [[|he| |]|] eqn:Ho; try discriminate.
        injection Hdok as Hb. apply bool_decide_eq_true in Hb.
        exists parent, op, he. split_and!; [done|done|]. by right.
    + intros Hkv. destruct (Hitems k v Hkv) as (? & ? & ? & Hdir). split_and!; [done|done|done|].
      eapply dir_ok_key_mono; [|exact Hdir]. intros p fp Hp. rewrite dget_dset.
      destruct (decide (p = other)) as [->|]; [|done].
      exfalso. apply Hofresh. by eapply dget_Some_keys.
  - intros n p Hn. unfold extend_frontier in Hn.
    apply extend_frontier_fold in Hn as [Hr|(-> & Hnb & Hnk)].
    + rewrite (removelast_dget un other n parent Hu Hlast) in Hr.
      destruct (decide (n = other)); [discriminate|].
      destruct (Hfr n p Hr) as (Hn1 & Hn2 & Hn3). split_and!.
      * rewrite dkeys_dset. intros [|]; contradiction.
      * apply dkeys_dset. by right.
      * done.
    + split_and!.
      * rewrite dkeys_dset. intros [->|]; [|contradiction].
        by apply (closed_nbrs_not_self h P other).
      * apply dkeys_dset. by left.
      * done.
Qed.

Lemma complete_sound (h : heap) ev ea (H P : graph) m un :
  task_inv h ev ea H P (m, un) -> length (m_items m) = graph_len P ->
  check_matching h m = Ok true -> sound_mapping h ev ea H P m.
Proof.
  intros (Hk & Hv & _ & Hitems & _) Hlen Hcm. cbn [fst] in *.
  unfold check_matching in Hcm. unfold sound_mapping. set (d := m_items m) in *.
  assert (Hdom : forall k, k ∈ dkeys d -> k ∈ graph_elems P).
  { intros k Hkd. destruct (dget k d) as [v|] eqn:Hg; [|apply dget_None in Hg; contradiction].
    destruct (Hitems k v Hg) as (HkP & _). unfold graph_ve, graph_elems in *. set_solver. }
  assert (Hadj : forall k v, dget k d = Some v ->
            forall k', k' ∈ nbrs h k -> exists v', dget k' d = Some v' /\ v' ∈ nbrs h v).
  { intros k v Hg. apply check_nbrs_spec. apply (check_items_spec h d d Hcm).
    by apply dget_Some_elem. }
  split_and!.
  - intros k1 k2 v H1 H2. by apply (dget_inj k1 k2 v d).
  - intros k. split; [apply Hdom|]. intros Hk'.
    apply list_elem_of_In. revert Hk'. rewrite list_elem_of_In. revert k.
    apply (NoDup_length_incl (l := dkeys d) (l' := graph_elems P)).
    + by apply NoDup_ListNoDup.
    + unfold dkeys, graph_elems, graph_len in *. rewrite length_map, !length_app. lia.
    + intros k Hk'. apply list_elem_of_In, Hdom, list_elem_of_In, Hk'.
  - intros k v Hg. destruct (Hitems k v Hg) as (HkP & HvH & Hm & Hdir).
    destruct (elem_matches_kind h ev v k ea Hm) as (Hkv & Hke & _).
    split_and!; [done|done|done|done|by apply Hadj|].
    intros pe Hpe Hdi Hsl.
    assert (Hnk : nbrs h k = edge_nbrs pe) by (unfold nbrs; by rewrite Hpe).
    unfold self_loop in Hsl. rewrite Hpe in Hsl.
    destruct (Hdir pe Hpe Hdi) as [Hnil|(p & fp & he & Hp & Hhv & Hr)].
    + unfold is_edge in Hke. rewrite Hpe in Hke.
      destruct (h !! v) as [[|he| |]|]; try discriminate. exists he. split; [done|].
      unfold edge_nbrs in Hnil. destruct (e_v1 pe), (e_v2 pe); try discriminate.
      split; intros ? [=].
    + exists he. split; [done|].
      assert (Hnv : nbrs h v = edge_nbrs he) by (unfold nbrs; by rewrite Hhv).
      unfold edge_nbrs in Hnk, Hnv.
      destruct Hr as [(H1 & H1')|(H1 & H2 & H2')].
      * split.
        { intros a Ha. rewrite Ha in H1. injection H1 as ->. by rewrite Hp. }
        intros b Hb. rewrite H1, Hb in Hsl. apply bool_decide_eq_false in Hsl.
        destruct (Hadj k v Hg b) as (v' & Hb' & Hv'); [rewrite Hnk, H1, Hb; set_solver|].
        rewrite Hnv, H1' in Hv'. simpl in Hv'. apply elem_of_cons in Hv' as [->|Hv'].
        { exfalso. apply Hsl. symmetry. by apply (dget_inj b p fp d). }
        rewrite Hb'. destruct (e_v2 he); simpl in Hv'; [|set_solver].
        apply list_elem_of_singleton in Hv' as ->. done.
      * split; [|intros b Hb; rewrite Hb in H2; injection H2 as ->; by rewrite Hp].
        intros a Ha. rewrite Ha, H2 in Hsl. apply bool_decide_eq_false in Hsl.
        destruct (Hadj k v Hg a) as (v' & Ha' & Hv'); [rewrite Hnk, Ha, H2; set_solver|].
        rewrite Hnv, H2' in Hv'. apply elem_of_app in Hv' as [Hv'|Hv'].
        { rewrite Ha'. destruct (e_v1 he); simpl in Hv'; [|set_solver].
          apply list_elem_of_singleton in Hv' as ->. done. }
        apply list_elem_of_singleton in Hv' as ->.
        exfalso. apply Hsl. by apply (dget_inj a p fp d).
Qed.

Lemma match_step_inv (h : heap) ev ea (H P : graph) t rest results ts rs :
  graph_closed h H = true -> graph_closed h P = true ->
  task_inv h ev ea H P t -> Forall (task_inv h ev ea H P) rest ->
  Forall (sound_mapping h ev ea H P) results ->
  match_step h ev ea (graph_len P) t rest results = Ok (ts, rs) ->
  Forall (task_inv h ev ea H P) ts /\ Forall (sound_mapping h ev ea H P) rs.
Proof.
  intros HcH HcP Ht Hrest Hres. destruct t as [m un]. unfold match_step.
  destruct (length (m_items m) =? graph_len P) eqn:Hlen;
    destruct (length un =? 0) eqn:Hun; cbn [andb]; try discriminate.
  - destruct (check_matching h m) as [[]|] eqn:Hcm; cbn [res_bind negb]; try discriminate.
    intros [= <- <-]. split; [done|]. destruct (existsb _ results); [done|].
    apply Forall_app. split; [done|]. constructor; [|constructor].
    apply Nat.eqb_eq in Hlen. by apply (complete_sound h ev ea H P m un).
  - destruct (last un) as [[other parent]|] eqn:Hlast; [|done].
    destruct (dget parent (m_items m)) as [op|] eqn:Hop; cbn [res_bind]; [|done].
    destruct (candidates h ev ea m other parent op (nbrs h op)) as [poss|] eqn:Hc; cbn [res_bind]; [|done].
    destruct poss as [|nm0 poss']; [by intros [= <- <-]|].
    remember (nm0 :: poss') as poss eqn:Hposs. intros [= <- <-]. split; [|done].
    apply Forall_app. split; [|done]. apply Forall_forall. intros t' Ht'.
    apply elem_of_rev, list_elem_of_In, in_map_iff in Ht' as (nm & <- & Hnm).
    apply list_elem_of_In in Hnm.
    destruct (candidates_spec h ev ea m other parent op _ _ Hc nm Hnm)
      as (own & Hown & Hd & Hnv & Hm & ->).
    by apply (new_task_inv h ev ea H P m un other parent op own).
  - destruct (last un) as [[other parent]|] eqn:Hlast; [|done].
    destruct (dget parent (m_items m)) as [op|] eqn:Hop; cbn [res_bind]; [|done].
    destruct (candidates h ev ea m other parent op (nbrs h op)) as [poss|] eqn:Hc; cbn [res_bind]; [|done].
    destruct poss as [|nm0 poss']; [by intros [= <- <-]|].
    remember (nm0 :: poss') as poss eqn:Hposs. intros [= <- <-]. split; [|done].
    apply Forall_app. split; [|done]. apply Forall_forall. intros t' Ht'.
    apply elem_of_rev, list_elem_of_In, in_map_iff in Ht' as (nm & <- & Hnm).
    apply list_elem_of_In in Hnm.
    destruct (candidates_spec h ev ea m other parent op _ _ Hc nm Hnm)
      as (own & Hown & Hd & Hnv & Hm & ->).
    by apply (new_task_inv h ev ea H P m un other parent op own).
Qed.

Lemma match_loop_inv (h : heap) ev ea (H P : graph) fuel tasks results rs :
  graph_closed h H = true -> graph_closed h P = true ->
  Forall (task_inv h ev ea H P) tasks -> Forall (sound_mapping h ev ea H P) results ->
  match_loop h ev ea (graph_len P) fuel tasks results = Ok rs ->
  Forall (sound_mapping h ev ea H P) rs.
Proof.
  intros HcH HcP. revert tasks results.
  induction fuel as [|f IH]; intros tasks results Ht Hr; simpl; [done|].
  destruct tasks as [|t rest]; [by intros [= <-]|].
  apply Forall_cons in Ht as [Ht Hrest].
  destruct (match_step h ev ea (graph_len P) t rest results) as [[ts rs']|] eqn:Hs;
    cbn [res_bind]; [|done].
  destruct (match_step_inv h ev ea H P t rest results ts rs' HcH HcP Ht Hrest Hr Hs).
  cbn [fst snd]. by apply IH.
Qed.

Lemma iter_init_inside (g : graph) : iter_inside g (iter_init g).
Proof.
  unfold iter_inside, iter_init. simpl. intros y.
  destruct (first_element g) as [x|] eqn:Hf; simpl; [|set_solver].
  intros ->%list_elem_of_singleton. by apply first_element_in.
Qed.

(** ** Soundness of [Graph.match] *)

Definition c1_ev : evaluator := fun _ _ _ => Ok (VBool true).

(** A pattern whose vertex [12] is listed in the graph but whose edge
    [13] is not. *)
Definition c1_heap1 : heap :=
  {[ 1 := OVertex (mkVertex [] [3]); 3 := OEdge (mkEdge [] (Some 1) None);
     11 := OVertex (mkVertex [] [13]); 12 := OVertex (mkVertex [] []);
     13 := OEdge (mkEdge [] (Some 11) None) ]}.
Definition c1_host1 : graph := mkGraph [1] [3] [].
Definition c1_pat1 : graph := mkGraph [11; 12] [] [].

(** A directed self-loop [13] on [11] in the pattern, a directed edge
    [3] from [1] to [2] in the host. *)
Definition c1_heap2 : heap :=
  {[ 1 := OVertex (mkVertex [] [3]); 2 := OVertex (mkVertex [] [3]);
     3 := OEdge (mkEdge [] (Some 1) (Some 2));
     11 := OVertex (mkVertex [] [13]);
     13 := OEdge (mkEdge [(".directed"%string, VBool true)] (Some 11) (Some 11)) ]}.
Definition c1_host2 : graph := mkGraph [1; 2] [3] [].
Definition c1_pat2 : graph := mkGraph [11] [13] [].

(** C1 (the claim for every host and pattern fails twice: for a
    pattern whose element lists miss one of its edges the returned
    mapping does not cover the vertex [12] of the pattern; for a
    directed self-loop [13] on [11] the returned mapping sends it to an
    edge [3] whose [vertex2] is [2], not the image [1] of [11]). *)
Lemma C1_match_roles_and_cover :
  graph_match c1_heap1 c1_ev c1_host1 c1_pat1 false
    = Ok [mapping_set 13 3 (mapping_of [(11, 1)])] /\
  m_items (mapping_set 13 3 (mapping_of [(11, 1)])) = [(11, 1); (13, 3)] /\
  12 ∈ graph_elems c1_pat1 /\
  graph_closed c1_heap2 c1_host2 = true /\ graph_closed c1_heap2 c1_pat2 = true /\
  graph_match c1_heap2 c1_ev c1_host2 c1_pat2 false
    = Ok [mapping_set 13 3 (mapping_of [(11, 1)])] /\
  c1_heap2 !! 13 = Some (OEdge (mkEdge [(".directed"%string, VBool true)] (Some 11) (Some 11))) /\
  c1_heap2 !! 3 = Some (OEdge (mkEdge [] (Some 1) (Some 2))).
Proof. vm_compute. split_and!; try reflexivity. set_solver. Qed.

(** C1 (amended): for a host [H] and a pattern [P] that are consistent
    (every vertex's incident edges are edges of the graph, every edge's
    endpoints are vertices of it), every mapping returned by
    [H.match(P, eval_attr)] is injective, has exactly the elements of
    [P] as keys, sends each to a host vertex or edge of the same kind
    that [matches] it, preserves adjacency, and preserves the
    [vertex1]/[vertex2] roles of every directed pattern edge that is not
    a self-loop. *)
Theorem C1_match_sound (h : heap) (ev : evaluator) (H P : graph) (ea : bool)
    (rs : list mapping) :
  graph_closed h H = true -> graph_closed h P = true ->
  graph_match h ev H P ea = Ok rs ->
  Forall (sound_mapping h ev ea H P) rs.
Proof.
  intros HcH HcP. unfold graph_match.
  destruct (get_any_element h P) as [[a|]|] eqn:Ha; cbn [res_bind]; [|by intros [= <-]|done].
  destruct (init_loop h ev ea a H (S (iter_total H + size h)) (iter_init H)) as [tasks|] eqn:Hi;
    cbn [res_bind]; [|done].
  apply match_loop_inv; [done|done| |constructor].
  apply Forall_forall. intros t Ht. apply elem_of_rev in Ht.
  destruct (init_loop_spec h ev ea a H _ _ tasks HcH (iter_init_inside H) Hi t Ht)
    as (own & Hown & Hm & ->).
  apply (init_task_inv h ev ea H P a own); [done|by apply (get_any_element_first h)|done|done].
Qed.

Definition c1_heap3 : heap :=
  {[ 1 := OVertex (mkVertex [] [3]); 2 := OVertex (mkVertex [] [3]);
     3 := OEdge (mkEdge [] (Some 1) (Some 2));
     11 := OVertex (mkVertex [] [13]); 12 := OVertex (mkVertex [] [13]);
     13 := OEdge (mkEdge [(".directed"%string, VBool true)] (Some 11) (Some 12)) ]}.
Definition c1_host3 : graph := mkGraph [1; 2] [3] [].
Definition c1_pat3 : graph := mkGraph [11; 12] [13] [].
(** The same host with its vertex [1] and its edge listed twice. *)
Definition c1_host3r : graph := mkGraph [1; 2; 1] [3; 3] [].

Lemma C1_match_sound_witness :
  graph_closed c1_heap3 c1_host3 = true /\ graph_closed c1_heap3 c1_pat3 = true /\
  graph_match c1_heap3 c1_ev c1_host3 c1_pat3 false
    = Ok [mapping_set 12 2 (mapping_set 13 3 (mapping_of [(11, 1)]))] /\
  Forall (sound_mapping c1_heap3 c1_ev false c1_host3 c1_pat3)
    [mapping_set 12 2 (mapping_set 13 3 (mapping_of [(11, 1)]))] /\
  graph_closed c1_heap3 c1_host3r = true /\
  graph_match c1_heap3 c1_ev c1_host3r c1_pat3 false
    = Ok [mapping_set 12 2 (mapping_set 13 3 (mapping_of [(11, 1)]))] /\
  Forall (sound_mapping c1_heap3 c1_ev false c1_host3r c1_pat3)
    [mapping_set 12 2 (mapping_set 13 3 (mapping_of [(11, 1)]))].
Proof.
  split_and!; [vm_compute; reflexivity|vm_compute; reflexivity|vm_compute; reflexivity| |
               vm_compute; reflexivity|vm_compute; reflexivity|].
  - apply (C1_match_sound c1_heap3 c1_ev c1_host3 c1_pat3 false); vm_compute; reflexivity.
  - apply (C1_match_sound c1_heap3 c1_ev c1_host3r c1_pat3 false); vm_compute; reflexivity.
Defined.

(** ** Completeness of [Graph.match] *)

Definition c2_phi (k : nat) : nat :=
  match k with 11 => 1 | 12 => 2 | 13 => 3 | _ => 0 end.

Definition c2_heap1 : heap :=
  {[ 1 := OVertex (mkVertex [] []); 2 := OVertex (mkVertex [] []);
     11 := OVertex (mkVertex [] []); 12 := OVertex (mkVertex [] []) ]}.

Definition c2_heap3 : heap :=
  {[ 1 := OVertex (mkVertex [("color"%string, VStr "red")] [3]);
     2 := OVertex (mkVertex [("color"%string, VStr "blue")] [3]);
     3 := OEdge (mkEdge [] (Some 2) (Some 1));
     11 := OVertex (mkVertex [("color"%string, VStr "red")] [13]);
     12 := OVertex (mkVertex [("color"%string, VStr "blue")] [13]);
     13 := OEdge (mkEdge [(".directed"%string, VBool true)] (Some 11) (Some 12)) ]}.

(** C2 (three embedded patterns for which [match] does not return a
    mapping: two isolated pattern vertices embedded in two isolated host
    vertices raise [ValueError]; the empty pattern gives no mapping; a
    directed pattern edge whose only embedding reverses its direction
    gives no mapping; a pattern listing its single isolated vertex twice,
    consistent, symmetric and connected, embedded in a one-vertex host,
    raises [ValueError], since [len(mapping)] never reaches
    [len(other_graph)]). *)
Lemma C2_embedded_not_found :
  struct_embedding c2_heap1 c1_ev (mkGraph [1; 2] [] []) (mkGraph [11; 12] [] []) c2_phi = true /\
  graph_match c2_heap1 c1_ev (mkGraph [1; 2] [] []) (mkGraph [11; 12] [] []) false = Err ValueError /\
  graph_match c2_heap1 c1_ev (mkGraph [1; 2] [] []) (mkGraph [] [] []) false = Ok [] /\
  struct_embedding c2_heap3 c1_ev (mkGraph [1; 2] [3] []) (mkGraph [11; 12] [13] []) c2_phi = true /\
  graph_match c2_heap3 c1_ev (mkGraph [1; 2] [3] []) (mkGraph [11; 12] [13] []) false = Ok [] /\
  graph_closed c2_heap1 (mkGraph [1] [] []) = true /\
  graph_closed c2_heap1 (mkGraph [11; 11] [] []) = true /\
  graph_symmetric c2_heap1 (mkGraph [1] [] []) = true /\
  graph_symmetric c2_heap1 (mkGraph [11; 11] [] []) = true /\
  graph_connected c2_heap1 (mkGraph [11; 11] [] []) = true /\
  embedding c2_heap1 c1_ev (mkGraph [1] [] []) (mkGraph [11; 11] [] []) c2_phi = true /\
  graph_match c2_heap1 c1_ev (mkGraph [1] [] []) (mkGraph [11; 11] [] []) false = Err ValueError.
Proof. vm_compute. split_and!; reflexivity. Qed.

Lemma attrs_match_false_ok ev (c p : attrs) : exists b, attrs_match ev false c p = Ok b.
Proof.
  induction p as [|[k pv] p IH]; simpl; [by eexists|].
  destruct (skip_key k); [done|]. destruct (dget k c) as [cv|]; [|by eexists].
  destruct (decide (cv = pv)); [done|by eexists].
Qed.

Lemma foldr_max_ge (l : list nat) y : y ∈ l -> y <= foldr Nat.max 0 l.
Proof.
  induction l as [|x l IH]; simpl; [set_solver|].
  intros [->|Hy]%elem_of_cons; [lia|]. specialize (IH Hy). lia.
Qed.

Lemma max_nbrs_ge (h : heap) x : length (nbrs h x) <= max_nbrs h.
Proof.
  unfold nbrs, max_nbrs. destruct (h !! x) as [o|] eqn:Hx; [|simpl; lia].
  apply foldr_max_ge. apply list_elem_of_In, in_map_iff.
  exists (x, o). split; [done|]. apply list_elem_of_In. by apply elem_of_map_to_list.
Qed.

Lemma task_weight_pos b d : 1 <= task_weight b d.
Proof. destruct d; simpl; lia. Qed.

Lemma task_weight_S b d : task_weight b d <= task_weight b (S d).
Proof.
  induction d as [|d IH]; simpl in *; [lia|].
  pose proof (Nat.mul_le_mono_l _ _ b IH). lia.
Qed.

Lemma task_weight_mono b d1 d2 : d1 <= d2 -> task_weight b d1 <= task_weight b d2.
Proof.
  induction 1 as [|d2 Hle IH]; [done|]. etransitivity; [exact IH|]. apply task_weight_S.
Qed.

Lemma tasks_weight_app b lenP ts1 ts2 :
  tasks_weight b lenP (ts1 ++ ts2) = tasks_weight b lenP ts1 + tasks_weight b lenP ts2.
Proof. induction ts1 as [|t ts1 IH]; simpl; [done|]. rewrite IH. lia. Qed.

Lemma tasks_weight_rev b lenP ts : tasks_weight b lenP (rev ts) = tasks_weight b lenP ts.
Proof.
  induction ts as [|t ts IH]; simpl; [done|]. rewrite tasks_weight_app, IH. simpl. lia.
Qed.

Lemma candidates_length (h : heap) ev ea m other parent own_parent l poss :
  candidates h ev ea m other parent own_parent l = Ok poss -> length poss <= length l.
Proof.
  revert poss. induction l as [|own l IH]; intros poss; simpl; [intros [= <-]; simpl; lia|].
  destruct (directed_ok h other parent own own_parent) as [[]|]; cbn [res_bind negb]; try done;
    [|intros Hc; specialize (IH _ Hc); lia].
  destruct (decide (own ∈ dvals (m_items m))); [intros Hc; specialize (IH _ Hc); lia|].
  destruct (elem_matches h ev own other (Some ea)) as [[]|]; cbn [res_bind negb]; try done;
    [|intros Hc; specialize (IH _ Hc); lia].
  destruct (compatible h m own other); cbn [negb]; [|intros Hc; specialize (IH _ Hc); lia].
  destruct (candidates h ev ea m other parent own_parent l) as [rest|]; cbn [res_bind]; [|done].
  intros [= <-]. specialize (IH rest eq_refl). simpl. lia.
Qed.

Lemma candidates_ok (h : heap) ev ea m other parent own_parent l :
  (forall own, own ∈ l -> exists b, directed_ok h other parent own own_parent = Ok b) ->
  (forall own, own ∈ l -> exists b, elem_matches h ev own other (Some ea) = Ok b) ->
  exists poss, candidates h ev ea m other parent own_parent l = Ok poss.
Proof.
  induction l as [|own l IH]; intros Hd Hm; simpl; [by eexists|].
  destruct (IH (fun o Ho => Hd o ltac:(by right))
               (fun o Ho => Hm o ltac:(by right))) as [rest Hrest].
  destruct (Hd own ltac:(left)) as [bd ->]. destruct (Hm own ltac:(left)) as [bm ->].
  cbn [res_bind]. rewrite Hrest. cbn [res_bind].
  destruct bd, (decide _), bm, (compatible h m own other); simpl; by eexists.
Qed.

Lemma candidates_in (h : heap) ev ea m other parent own_parent l poss own :
  candidates h ev ea m other parent own_parent l = Ok poss -> own ∈ l ->
  directed_ok h other parent own own_parent = Ok true -> (own ∉ dvals (m_items m)) ->
  elem_matches h ev own other (Some ea) = Ok true -> compatible h m own other = true ->
  mapping_set other own (mapping_of (m_items m)) ∈ poss.
Proof.
  intros Hc Hin Hd Hnv Hm Hco. revert poss Hc.
  induction l as [|o l IH]; intros poss; simpl; [set_solver|].
  apply elem_of_cons in Hin as [<-|Hin].
  - rewrite Hd. cbn [res_bind negb]. destruct (decide _); [done|]. rewrite Hm. cbn [res_bind negb].
    rewrite Hco. cbn [negb].
    destruct (candidates h ev ea m other parent own_parent l) as [rest|]; cbn [res_bind]; [|done].
    intros [= <-]. left.
  - destruct (directed_ok h other parent o own_parent) as [[]|]; cbn [res_bind negb]; try done;
      [|by apply IH].
    destruct (decide (o ∈ dvals (m_items m))); [by apply IH|].
    destruct (elem_matches h ev o other (Some ea)) as [[]|]; cbn [res_bind negb]; try done;
      [|by apply IH].
    destruct (compatible h m o other); cbn [negb]; [|by apply IH].
    destruct (candidates h ev ea m other parent own_parent l) as [rest|]; cbn [res_bind]; [|done].
    intros [= <-]. right. by apply IH.
Qed.

Lemma candidates_compat (h : heap) ev ea m other parent own_parent l poss nm :
  candidates h ev ea m other parent own_parent l = Ok poss -> nm ∈ poss ->
  exists own, own ∈ l /\ compatible h m own other = true /\
    nm = mapping_set other own (mapping_of (m_items m)).
Proof.
  revert poss. induction l as [|own l IH]; intros poss; simpl; [intros [= <-]; set_solver|].
  destruct (directed_ok h other parent own own_parent) as [[]|]; cbn [res_bind negb]; try done;
    [|intros Hc Hnm; destruct (IH poss Hc Hnm) as (o & ? & ?); exists o; split; [by right|done]].
  destruct (decide (own ∈ dvals (m_items m)));
    [intros Hc Hnm; destruct (IH poss Hc Hnm) as (o & ? & ?); exists o; split; [by right|done]|].
  destruct (elem_matches h ev own other (Some ea)) as [[]|]; cbn [res_bind negb]; try done;
    [|intros Hc Hnm; destruct (IH poss Hc Hnm) as (o & ? & ?); exists o; split; [by right|done]].
  destruct (compatible h m own other) eqn:Hco; cbn [negb];
    [|intros Hc Hnm; destruct (IH poss Hc Hnm) as (o & ? & ?); exists o; split; [by right|done]].
  destruct (candidates h ev ea m other parent own_parent l) as [rest|]; cbn [res_bind]; [|done].
  intros [= <-] Hnm. apply elem_of_cons in Hnm as [->|Hnm]; [exists own; split_and!; [left|done|done]|].
  destruct (IH rest eq_refl Hnm) as (o & ? & ?). exists o. split; [by right|done].
Qed.

Lemma NoDup_elem_dget {K V} `{EqDecision K} (d : list (K * V)) k v :
  NoDup (dkeys d) -> (k, v) ∈ d -> dget k d = Some v.
Proof.
  unfold dkeys. induction d as [|[k0 v0] d IH]; simpl; [set_solver|].
  intros Hnd Hin. apply NoDup_cons in Hnd as [Hk0 Hnd].
  apply elem_of_cons in Hin as [[= -> ->]|Hin].
  - by rewrite decide_True.
  - rewrite decide_False; [by apply IH|]. intros ->. apply Hk0.
    apply list_elem_of_In, in_map_iff. exists (k0, v). split; [done|by apply list_elem_of_In].
Qed.

Lemma dkeys_fold_acc {V} (l acc : list (nat * V)) n :
  n ∈ dkeys acc \/ n ∈ dkeys l -> n ∈ dkeys (fold_left (fun acc kv => dset kv.1 kv.2 acc) l acc).
Proof.
  revert acc. induction l as [|[k v] l IH]; intros acc Hn; simpl.
  - destruct Hn as [Hn|Hn]; [done|]. unfold dkeys in Hn. set_solver.
  - apply IH. unfold dkeys in Hn at 2. simpl in Hn. rewrite elem_of_cons in Hn.
    rewrite dkeys_dset. tauto.
Qed.

Lemma extend_frontier_keys (m : mapping) (other : nat) (L : list nat) (acc : list (nat * nat)) n :
  n ∈ dkeys acc \/ (n ∈ L /\ (n ∉ dkeys (m_items m))) ->
  n ∈ dkeys (fold_left (fun acc n => if decide (n ∈ dkeys (m_items m)) then acc else dset n other acc) L acc).
Proof.
  revert acc. induction L as [|x L IH]; intros acc Hn; simpl.
  - destruct Hn as [Hn|[Hn _]]; [done|set_solver].
  - apply IH. destruct Hn as [Hn|[[->|Hn]%elem_of_cons Hk]].
    + left. destruct (decide _); [done|]. rewrite dkeys_dset. by right.
    + left. rewrite decide_False by done. rewrite dkeys_dset. by left.
    + destruct (decide (n ∈ [])) as [Hnil|]; [set_solver|]. by right.
Qed.

Lemma check_nbrs_ok (h : heap) items hv L :
  (forall mn, mn ∈ L -> exists img, dget mn items = Some img /\ img ∈ nbrs h hv) ->
  check_nbrs h items hv L = Ok true.
Proof.
  induction L as [|x L IH]; intros Hall; simpl; [done|].
  destruct (Hall x ltac:(left)) as (img & -> & Himg).
  rewrite bool_decide_eq_true_2 by done. apply IH. intros mn Hmn. apply Hall. by right.
Qed.

Lemma check_items_ok (h : heap) items l :
  (forall mk hv, (mk, hv) ∈ l -> check_nbrs h items hv (nbrs h mk) = Ok true) ->
  check_items h items l = Ok true.
Proof.
  induction l as [|[mk hv] l IH]; intros Hall; simpl; [done|].
  rewrite (Hall mk hv ltac:(left)). cbn [res_bind]. apply IH.
  intros mk' hv' Hin. apply Hall. by right.
Qed.

Lemma reach_sub (h : heap) (S : list nat) fuel todo seen :
  (forall k n, k ∈ S -> n ∈ nbrs h k -> n ∈ S) ->
  (forall y, y ∈ todo -> y ∈ S) -> (forall y, y ∈ seen -> y ∈ S) ->
  forall y, y ∈ reach h fuel todo seen -> y ∈ S.
Proof.
  intros HS. revert todo seen. induction fuel as [|f IH]; intros todo seen Ht Hs; simpl; [done|].
  destruct todo as [|x todo]; [done|].
  destruct (decide (x ∈ seen)).
  - apply IH; [|done]. intros y Hy. apply Ht. by right.
  - apply IH.
    + intros y [Hy|Hy]%elem_of_app; [apply Ht; by right|]. apply (HS x); [apply Ht; left|done].
    + intros y [->|Hy]%elem_of_cons; [apply Ht; left|by apply Hs].
Qed.

Lemma pop_unmarked_fresh marked unv x r :
  pop_unmarked marked unv = (Some x, r) -> x ∉ marked.
Proof.
  induction unv as [|u unv IH]; simpl; [done|].
  destruct (decide (u ∈ marked)); [exact IH|]. by intros [= <- _].
Qed.

Lemma pop_unmarked_None marked unv r :
  pop_unmarked marked unv = (None, r) -> r = [].
Proof.
  induction unv as [|u unv IH]; simpl; [by intros [= <-]|].
  destruct (decide (u ∈ marked)); [exact IH|done].
Qed.

(** Vertices of a closed graph have edges as neighbours and the other
    way round. *)
Lemma closed_kind_nbrs (h : heap) (g : graph) x y :
  graph_closed h g = true -> x ∈ graph_ve g -> y ∈ nbrs h x ->
  (is_vertex h x = true -> is_edge h y = true) /\ (is_edge h x = true -> is_vertex h y = true).
Proof.
  intros Hc Hx Hy. apply graph_closed_spec in Hc as [HV HE]. unfold graph_ve in Hx.
  apply elem_of_app in Hx as [Hx|Hx].
  - destruct (HV x Hx) as [Hvx Hn]. split; [intros _; by apply (HE y (Hn y Hy))|].
    intros Hex. unfold is_vertex, is_edge in *. destruct (h !! x) as [[]|]; discriminate.
  - destruct (HE x Hx) as [Hex Hn]. split; [|intros _; by apply (HV y (Hn y Hy))].
    intros Hvx. unfold is_vertex, is_edge in *. destruct (h !! x) as [[]|]; discriminate.
Qed.

Lemma closed_kind (h : heap) (g : graph) x :
  graph_closed h g = true -> x ∈ graph_ve g -> is_vertex h x = true \/ is_edge h x = true.
Proof.
  intros Hc Hx. apply graph_closed_spec in Hc as [HV HE]. unfold graph_ve in Hx.
  apply elem_of_app in Hx as [Hx|Hx]; [left; by apply HV|right; by apply HE].
Qed.

Lemma graph_symmetric_spec (h : heap) (g : graph) x y :
  graph_symmetric h g = true -> x ∈ graph_ve g -> y ∈ nbrs h x -> x ∈ nbrs h y.
Proof.
  unfold graph_symmetric. intros Hs Hx Hy.
  apply forallb_forall with (x := x) in Hs; [|by apply list_elem_of_In].
  apply forallb_forall with (x := y) in Hs; [|by apply list_elem_of_In].
  by apply bool_decide_eq_true in Hs.
Qed.

Lemma nodup_incl_len (l l' : list nat) :
  NoDup l -> (forall x, x ∈ l -> x ∈ l') -> length l <= length l'.
Proof.
  intros Hnd Hi. apply (NoDup_incl_length (l := l) (l' := l')); [by apply NoDup_ListNoDup|].
  intros x Hx. apply list_elem_of_In, Hi, list_elem_of_In, Hx.
Qed.

Lemma nodup_len_incl (l l' : list nat) :
  NoDup l -> length l' <= length l -> (forall x, x ∈ l -> x ∈ l') -> forall x, x ∈ l' -> x ∈ l.
Proof.
  intros Hnd Hlen Hi x Hx. apply list_elem_of_In.
  apply (NoDup_length_incl (l := l) (l' := l')); [by apply NoDup_ListNoDup|done| |by apply list_elem_of_In].
  intros y Hy. apply list_elem_of_In, Hi, list_elem_of_In, Hy.
Qed.

Lemma iter_next_fresh (h : heap) (g : graph) st x st' :
  iter_next h g (iter_total g) st = Ok (x, st') ->
  it_marked st' = it_marked st ++ [x] /\ (x ∉ it_marked st).
Proof.
  unfold iter_next. destruct (pop_unmarked (it_marked st) (it_unvisited st)) as [el unv] eqn:Hp.
  destruct el as [x0|].
  - cbn [res_bind]. intros [= <- <-]. split; [done|]. by apply pop_unmarked_fresh in Hp.
  - unfold unconnected. destruct (length (it_marked st) <? iter_total g); cbn [res_bind]; [|done].
    destruct (find _ (g_vertices g)) as [v|] eqn:Hf.
    + intros [= <- <-]. split; [done|]. apply find_some in Hf as [_ Hf].
      intros Hin. rewrite bool_decide_eq_true_2 in Hf by done. discriminate.
    + destruct (find _ (g_edges g)) as [e|] eqn:Hf'; [|done].
      intros [= <- <-]. split; [done|]. apply find_some in Hf' as [_ Hf'].
      intros Hin. rewrite bool_decide_eq_true_2 in Hf' by done. discriminate.
Qed.

Lemma iter_next_err (h : heap) (g : graph) st e :
  NoDup (it_marked st) -> (forall y, y ∈ it_marked st -> y ∈ graph_ve g) ->
  iter_next h g (iter_total g) st = Err e ->
  e = StopIteration /\ forall y, y ∈ graph_ve g -> y ∈ it_marked st.
Proof.
  intros Hnd Hm. unfold iter_next.
  destruct (pop_unmarked (it_marked st) (it_unvisited st)) as [el unv] eqn:Hp.
  destruct el as [x0|]; cbn [res_bind]; [done|].
  unfold unconnected.
  destruct (length (it_marked st) <? iter_total g) eqn:Hlt.
  - destruct (find _ (g_vertices g)) as [v|] eqn:Hf; [done|].
    destruct (find _ (g_edges g)) as [v|] eqn:Hf'; [done|]. intros [= <-]. split; [done|].
    unfold graph_ve. intros y [Hy|Hy]%elem_of_app; apply list_elem_of_In in Hy.
    + pose proof (find_none _ _ Hf y Hy) as Hn. simpl in Hn.
      destruct (bool_decide (y ∈ it_marked st)) eqn:Hb; [|discriminate]. by apply bool_decide_eq_true in Hb.
    + pose proof (find_none _ _ Hf' y Hy) as Hn. simpl in Hn.
      destruct (bool_decide (y ∈ it_marked st)) eqn:Hb; [|discriminate]. by apply bool_decide_eq_true in Hb.
  - intros [= <-]. split; [done|]. apply Nat.ltb_ge in Hlt.
    apply (nodup_len_incl (it_marked st) (graph_ve g)); [done| |done].
    unfold iter_total, graph_ve in *. rewrite length_app. lia.
Qed.

Lemma task_keys_in (h : heap) ev ea (H P : graph) t k :
  task_inv h ev ea H P t -> k ∈ dkeys (m_items t.1) -> k ∈ graph_ve P.
Proof.
  intros (_ & _ & _ & Hitems & _) Hk.
  destruct (dget k (m_items t.1)) as [v|] eqn:Hg; [|apply dget_None in Hg; contradiction].
  by destruct (Hitems k v Hg).
Qed.

Lemma task_keys_dget (t : task) k :
  k ∈ dkeys (m_items t.1) -> exists v, dget k (m_items t.1) = Some v.
Proof.
  intros Hk. destruct (dget k (m_items t.1)) as [v|] eqn:Hg; [by eexists|].
  apply dget_None in Hg. contradiction.
Qed.

Lemma edge_nbrs_endpoint (pe : edge) p :
  p ∈ edge_nbrs pe -> e_v1 pe = Some p \/ e_v2 pe = Some p.
Proof.
  unfold edge_nbrs. destruct (e_v1 pe) as [x1|], (e_v2 pe) as [x2|]; simpl;
    rewrite ?elem_of_cons, ?elem_of_nil; intros Hp; intuition congruence.
Qed.

Section Completeness.
Variables (h : heap) (ev : evaluator) (H P : graph) (phi : nat -> nat) (a : nat).
Hypothesis HcH : graph_closed h H = true.
Hypothesis HcP : graph_closed h P = true.
Hypothesis HsH : graph_symmetric h H = true.
Hypothesis HsP : graph_symmetric h P = true.
Hypothesis HndP : NoDup (graph_ve P).
Hypothesis HfP : g_faces P = [].
Hypothesis Ha : first_element P = Some a.
Hypothesis Hconn : graph_connected h P = true.
Hypothesis Hemb : embedding h ev H P phi = true.

Lemma emb_spec k :
  k ∈ graph_ve P ->
  phi k ∈ graph_ve H /\ elem_matches h ev (phi k) k (Some false) = Ok true /\
  (forall n, n ∈ nbrs h k -> phi n ∈ nbrs h (phi k)) /\
  (forall k2, k2 ∈ graph_ve P -> phi k = phi k2 -> k = k2) /\
  role_ok h phi k = true.
Proof.
  intros Hk. unfold embedding, struct_embedding in Hemb.
  apply andb_prop in Hemb as [Hs Hr].
  apply forallb_forall with (x := k) in Hs; [|by apply list_elem_of_In].
  apply forallb_forall with (x := k) in Hr; [|by apply list_elem_of_In].
  apply andb_prop in Hs as [Hs Hinj]. apply andb_prop in Hs as [Hs Hadj].
  apply andb_prop in Hs as [Hin Hm]. split_and!.
  - by apply bool_decide_eq_true in Hin.
  - by destruct (elem_matches h ev (phi k) k (Some false)) as [[]|].
  - intros n Hn. apply forallb_forall with (x := n) in Hadj; [|by apply list_elem_of_In].
    by apply bool_decide_eq_true in Hadj.
  - intros k2 Hk2. apply forallb_forall with (x := k2) in Hinj; [|by apply list_elem_of_In].
    by apply bool_decide_eq_true in Hinj.
  - done.
Qed.

Lemma conn_spec (S : list nat) :
  a ∈ S -> (forall k n, k ∈ S -> n ∈ nbrs h k -> n ∈ S) -> forall x, x ∈ graph_ve P -> x ∈ S.
Proof.
  intros HaS HS x Hx. unfold graph_connected in Hconn. rewrite Ha in Hconn.
  apply forallb_forall with (x := x) in Hconn; [|by apply list_elem_of_In].
  apply bool_decide_eq_true in Hconn.
  eapply reach_sub; [exact HS| | |exact Hconn].
  - intros y ->%list_elem_of_singleton. done.
  - set_solver.
Qed.

Lemma len_P : graph_len P = length (graph_ve P).
Proof. unfold graph_len, graph_ve. rewrite HfP, length_app. simpl. lia. Qed.

Lemma keys_le t : task_inv h ev false H P t -> length (m_items t.1) <= graph_len P.
Proof.
  intros Hti. rewrite len_P. destruct Hti as (Hk & Hrest).
  unfold dkeys in Hk. rewrite <- (length_map fst). apply nodup_incl_len; [done|].
  intros k Hkd. by apply (task_keys_in h ev false H P t k).
Qed.

Lemma keys_full t :
  task_inv h ev false H P t -> length (m_items t.1) = graph_len P ->
  forall x, x ∈ graph_ve P -> x ∈ dkeys (m_items t.1).
Proof.
  intros Hti Hlen. pose proof Hti as (Hk & _). apply nodup_len_incl; [done| |].
  - unfold dkeys. rewrite length_map, Hlen, len_P. done.
  - intros k Hkd. by apply (task_keys_in h ev false H P t k).
Qed.

Lemma matches_ok own other :
  own ∈ graph_ve H -> other ∈ graph_ve P -> exists b, elem_matches h ev own other (Some false) = Ok b.
Proof.
  intros Hown Hother. unfold elem_matches.
  assert (He : is_element h other = true).
  { destruct (closed_kind h P other HcP Hother) as [Hk|Hk];
      unfold is_element, is_vertex, is_edge in *; destruct (h !! other) as [[]|]; done. }
  rewrite He. simpl.
  destruct (closed_kind h H own HcH Hown) as [Hk|Hk]; unfold is_vertex, is_edge in Hk;
    destruct (h !! own) as [[]|]; try discriminate;
    destruct (h !! other) as [[]|]; try (by eexists); apply attrs_match_false_ok.
Qed.

Lemma directed_no_err t other parent op own :
  task_ok h ev H P a t -> dget other t.2 = Some parent ->
  dget parent (m_items t.1) = Some op -> own ∈ nbrs h op ->
  exists b, directed_ok h other parent own op = Ok b.
Proof.
  intros (Hti & _ & _ & _) Hou Hop Hown. pose proof Hti as (_ & _ & _ & Hitems & Hfr).
  destruct (Hfr other parent Hou) as (_ & Hpk & Honb).
  destruct (Hitems parent op Hop) as (HparP & HopH & Hm & _).
  pose proof (closed_nbrs h P parent other HcP HparP Honb) as HoP.
  unfold directed_ok.
  destruct (h !! other) as [[|pe| |]|] eqn:Ho; try by eexists.
  destruct (dget ".directed"%string (e_attr pe)); [|by eexists]. destruct (truthy v); [|by eexists].
  assert (Hpar : parent ∈ edge_nbrs pe).
  { pose proof (graph_symmetric_spec h P parent other HsP HparP Honb) as Hs.
    unfold nbrs in Hs. by rewrite Ho in Hs. }
  assert (Hvp : is_vertex h parent = true).
  { apply (closed_kind_nbrs h P other parent HcP HoP); [|unfold is_edge; by rewrite Ho].
    unfold nbrs. by rewrite Ho. }
  destruct (elem_matches_kind h ev op parent false Hm) as (Hkv & _).
  assert (Hown_e : is_edge h own = true).
  { apply (closed_kind_nbrs h H op own HcH HopH Hown). by rewrite Hkv. }
  unfold is_edge in Hown_e. destruct (h !! own) as [[|he| |]|]; try discriminate.
  destruct (decide (e_v1 pe = Some parent)); [by eexists|].
  destruct (decide (e_v2 pe = Some parent)); [by eexists|].
  exfalso. unfold edge_nbrs in Hpar.
  destruct (e_v1 pe) as [x1|], (e_v2 pe) as [x2|]; simpl in Hpar; set_solver.
Qed.
Lemma new_task_ok m un other parent op own :
  task_ok h ev H P a (m, un) -> last un = Some (other, parent) ->
  dget parent (m_items m) = Some op -> own ∈ nbrs h op ->
  directed_ok h other parent own op = Ok true -> (own ∉ dvals (m_items m)) ->
  elem_matches h ev own other (Some false) = Ok true -> compatible h m own other = true ->
  task_ok h ev H P a (mapping_set other own (mapping_of (m_items m)),
                      extend_frontier h m other (removelast un)).
Proof.
  intros (Hti & Hpc & Hfc & Hak) Hlast Hop Hown Hd Hnv Hm Hco.
  pose proof Hti as (Hk & Hv & Hu & Hitems & Hfr). cbn [fst snd] in *.
  pose proof (last_dget un other parent Hu Hlast) as Hou.
  destruct (Hfr other parent Hou) as (Hofresh & Hpk & Honb).
  destruct (Hitems parent op Hop) as (HparP & HopH & _ & _).
  pose proof (closed_nbrs h P parent other HcP HparP Honb) as HoP.
  pose proof (closed_nbrs h H op own HcH HopH Hown) as HownH.
  split_and!.
  - by apply (new_task_inv h ev false H P m un other parent op own).
  - cbn [fst m_items mapping_set mapping_of]. intros k v n w. rewrite !dget_dset.
    destruct (decide (k = other)) as [->|Hk1]; destruct (decide (n = other)) as [->|Hn1].
    + intros _ Hn. exfalso. by apply (closed_nbrs_not_self h P other).
    + intros [= <-] Hn Hw. unfold compatible in Hco.
      apply forallb_forall with (x := n) in Hco; [|by apply list_elem_of_In].
      rewrite Hw in Hco. by apply bool_decide_eq_true in Hco.
    + intros Hkv Hn [= <-].
      destruct (Hitems k v Hkv) as (HkP & HvH & _).
      pose proof (graph_symmetric_spec h P k other HsP HkP Hn) as Hks.
      unfold compatible in Hco.
      apply forallb_forall with (x := k) in Hco; [|by apply list_elem_of_In].
      rewrite Hkv in Hco. apply bool_decide_eq_true in Hco.
      by apply (graph_symmetric_spec h H own v HsH HownH).
    + intros Hkv Hn Hw. by apply (Hpc k v n w).
  - intros k n. cbn [fst snd m_items mapping_set mapping_of]. rewrite !dkeys_dset.
    unfold extend_frontier. intros [->|Hk'] Hn.
    + destruct (decide (n ∈ dkeys (m_items m))) as [Hin|Hnin]; [left; by right|].
      right. apply extend_frontier_keys. right. done.
    + destruct (Hfc k n Hk' Hn) as [Hin|Hin]; [left; by right|].
      destruct (decide (n = other)) as [->|Hne]; [left; by left|].
      right. apply extend_frontier_keys. left.
      destruct (dget n un) as [p|] eqn:Hg; [|apply dget_None in Hg; contradiction].
      apply (dget_Some_keys n p). by rewrite (removelast_dget un other n parent Hu Hlast), decide_False.
  - cbn [fst m_items mapping_set mapping_of]. apply dkeys_dset. by right.
Qed.

Lemma phi_candidate m un other parent op :
  task_ok h ev H P a (m, un) -> below phi (m, un) -> dget other un = Some parent ->
  dget parent (m_items m) = Some op ->
  phi other ∈ nbrs h op /\ directed_ok h other parent (phi other) op = Ok true /\
  (phi other ∉ dvals (m_items m)) /\ elem_matches h ev (phi other) other (Some false) = Ok true /\
  compatible h m (phi other) other = true.
Proof.
  intros (Hti & _ & _ & _) Hb Hou Hop. pose proof Hti as (Hk & Hv & Hu & Hitems & Hfr).
  cbn [fst snd] in *. unfold below in Hb. cbn [fst] in Hb.
  destruct (Hfr other parent Hou) as (Hofresh & Hpk & Honb).
  destruct (Hitems parent op Hop) as (HparP & HopH & _ & _).
  pose proof (closed_nbrs h P parent other HcP HparP Honb) as HoP.
  pose proof (Hb parent op Hop) as ->.
  destruct (emb_spec other HoP) as (HphH & Hpm & Hadj & Hinj & Hrole).
  destruct (emb_spec parent HparP) as (_ & _ & Hadjp & _ & _).
  split_and!.
  - by apply Hadjp.
  - unfold directed_ok. unfold role_ok, is_directed in Hrole.
    destruct (h !! other) as [[|pe| |]|] eqn:Ho; try done.
    destruct (dget ".directed"%string (e_attr pe)) as [dv|]; [|done].
    destruct (truthy dv); [|done].
    destruct (h !! phi other) as [[|he| |]|]; try discriminate.
    apply andb_prop in Hrole as [R1 R2].
    destruct (decide (e_v1 pe = Some parent)) as [E1|E1].
    + rewrite E1 in R1. simpl in R1. by rewrite R1.
    + destruct (decide (e_v2 pe = Some parent)) as [E2|E2].
      * rewrite E2 in R2. simpl in R2. by rewrite R2.
      * exfalso. pose proof (graph_symmetric_spec h P parent other HsP HparP Honb) as Hs.
        unfold nbrs in Hs. rewrite Ho in Hs.
        apply edge_nbrs_endpoint in Hs as [?|?]; contradiction.
  - intros Hin. destruct (dvals_dget _ _ Hk Hin) as [k Hkv].
    pose proof (Hb k _ Hkv) as Hphi.
    destruct (Hitems k _ Hkv) as (HkP & _).
    pose proof (Hinj k HkP Hphi) as ->. apply Hofresh. by eapply dget_Some_keys.
  - done.
  - unfold compatible. apply forallb_forall. intros n Hn. apply list_elem_of_In in Hn.
    destruct (dget n (m_items m)) as [img|] eqn:Hg; [|done].
    apply bool_decide_eq_true_2. rewrite (Hb n img Hg). by apply Hadj.
Qed.
Lemma tasks_weight_new b lenP (poss : list mapping) nu n :
  Forall (fun nm => length (m_items nm) = n) poss ->
  tasks_weight b lenP (map (fun nm => (nm, nu)) poss) = length poss * task_weight b (lenP - n).
Proof.
  induction poss as [|nm poss IH]; intros Hall; simpl; [done|].
  apply Forall_cons in Hall as [-> Hall]. rewrite IH by done. lia.
Qed.

Lemma match_step_complete t rest results :
  task_ok h ev H P a t ->
  exists new rs', match_step h ev false (graph_len P) t rest results = Ok (new ++ rest, rs') /\
    Forall (task_ok h ev H P a) new /\
    tasks_weight (max_nbrs h) (graph_len P) new + 1
      <= task_weight (max_nbrs h) (graph_len P - length (m_items t.1)) /\
    (results <> [] -> rs' <> []) /\
    (below phi t -> rs' <> [] \/ exists t', t' ∈ new /\ below phi t').
Proof.
  intros Hok. destruct t as [m un]. cbn [fst snd]. pose proof Hok as (Hti & Hpc & Hfc & Hak).
  pose proof Hti as (Hk & Hv & Hu & Hitems & Hfr). cbn [fst snd] in *.
  pose proof (keys_le _ Hti) as Hle. cbn [fst] in Hle.
  unfold match_step.
  destruct (decide (length (m_items m) = graph_len P)) as [Heq|Hne].
  - pose proof (keys_full _ Hti Heq) as Hfull. cbn [fst] in Hfull.
    assert (Hun : un = []).
    { destruct un as [|[n p] un']; [done|]. exfalso.
      assert (Hg : dget n ((n, p) :: un') = Some p) by (simpl; by rewrite decide_True).
      destruct (Hfr n p Hg) as (Hn & Hp & Hnb). apply Hn, Hfull.
      apply (closed_nbrs h P p n HcP); [|done].
      by apply (task_keys_in h ev false H P (m, (n, p) :: un')). }
    subst un. rewrite Heq, Nat.eqb_refl. simpl.
    assert (Hcm : check_matching h m = Ok true).
    { unfold check_matching. apply check_items_ok. intros mk hv Hin. apply check_nbrs_ok.
      intros mn Hmn. pose proof (NoDup_elem_dget _ _ _ Hk Hin) as Hg.
      destruct (Hitems mk hv Hg) as (HmkP & _).
      assert (Hmnk : mn ∈ dkeys (m_items m)) by (apply Hfull; by apply (closed_nbrs h P mk)).
      destruct (task_keys_dget (m, []) mn Hmnk) as [img Himg]. cbn [fst] in Himg.
      exists img. split; [done|]. by apply (Hpc mk hv mn img). }
    rewrite Hcm. cbn [res_bind negb].
    exists [], (if existsb (fun r => mapping_eqb r m) results then results else results ++ [m]).
    split; [done|]. split_and!.
    + constructor.
    + change (tasks_weight (max_nbrs h) (graph_len P) []) with 0.
      apply task_weight_pos.
    + destruct (existsb (fun r => mapping_eqb r m) results); [done|]. intros _. by destruct results.
    + intros _. left. destruct (existsb (fun r => mapping_eqb r m) results) eqn:He; [|by destruct results].
      destruct results; [discriminate|done].
  - assert (Hlt : length (m_items m) < graph_len P) by lia.
    apply Nat.eqb_neq in Hne. rewrite Hne. cbn [andb].
    assert (Hun : un <> []).
    { intros ->. assert (Hall : forall x, x ∈ graph_ve P -> x ∈ dkeys (m_items m)).
      { apply conn_spec; [done|]. intros k n Hkk Hn.
        destruct (Hfc k n Hkk Hn) as [?|Hnil]; [done|]. cbn [snd] in Hnil. set_solver. }
      unfold dkeys in Hall, Hk. pose proof (nodup_incl_len _ _ HndP Hall) as Hl.
      rewrite length_map, <- len_P in Hl. lia. }
    destruct (last un) as [[other parent]|] eqn:Hlast; [|by apply last_None in Hlast].
    pose proof (last_dget un other parent Hu Hlast) as Hou.
    destruct (Hfr other parent Hou) as (Hofresh & Hpk & Honb).
    destruct (task_keys_dget (m, un) parent Hpk) as [op Hop]. cbn [fst] in Hop.
    rewrite Hop. cbn [res_bind].
    destruct (Hitems parent op Hop) as (HparP & HopH & _ & _).
    pose proof (closed_nbrs h P parent other HcP HparP Honb) as HoP.
    destruct (candidates_ok h ev false m other parent op (nbrs h op)) as [poss Hc].
    { intros own Hown. by apply (directed_no_err (m, un) other parent op own). }
    { intros own Hown. apply matches_ok; [|done]. by apply (closed_nbrs h H op). }
    rewrite Hc. cbn [res_bind].
    set (nu := extend_frontier h m other (removelast un)).
    exists (rev (map (fun nm => (nm, nu)) poss)), results. split; [by destruct poss|].
    assert (Hnew : forall nm, nm ∈ poss ->
      task_ok h ev H P a (nm, nu) /\ length (m_items nm) = S (length (m_items m))).
    { intros nm Hnm.
      destruct (candidates_spec h ev false m other parent op _ _ Hc nm Hnm)
        as (own & Hown & Hd & Hnv & Hm & ->).
      destruct (candidates_compat h ev false m other parent op _ _ _ Hc Hnm)
        as (own' & _ & Hco & Heq').
      assert (own' = own) as ->.
      { apply (f_equal (fun nm => dget other (m_items nm))) in Heq'.
        cbn [m_items mapping_set mapping_of] in Heq'. rewrite !dget_dset in Heq'.
        destruct (decide (other = other)); congruence. }
      split.
      - by apply (new_task_ok m un other parent op own).
      - cbn [m_items mapping_set mapping_of]. rewrite dset_fresh by done. rewrite length_app. simpl. lia. }
    split_and!.
    + apply Forall_forall. intros t' Ht'.
      apply elem_of_rev, list_elem_of_In, in_map_iff in Ht' as (nm & <- & Hnm).
      apply list_elem_of_In in Hnm. by apply Hnew.
    + rewrite tasks_weight_rev, (tasks_weight_new _ _ _ _ (S (length (m_items m)))).
      2: { apply Forall_forall. intros nm Hnm. by apply Hnew. }
      replace (graph_len P - length (m_items m)) with (S (graph_len P - S (length (m_items m)))) by lia.
      simpl. pose proof (candidates_length h ev false m other parent op _ _ Hc) as Hpl.
      pose proof (max_nbrs_ge h op) as Hmx.
      pose proof (Nat.mul_le_mono_r (length poss) (max_nbrs h)
                    (task_weight (max_nbrs h) (graph_len P - S (length (m_items m))))
                    ltac:(lia)). lia.
    + done.
    + intros Hb. right.
      destruct (phi_candidate m un other parent op Hok Hb Hou Hop) as (Hin & Hd & Hnv & Hm & Hco).
      pose proof (candidates_in h ev false m other parent op _ _ (phi other) Hc Hin Hd Hnv Hm Hco) as Hpin.
      exists (mapping_set other (phi other) (mapping_of (m_items m)), nu). split.
      * apply rev_elem_of, list_elem_of_In, in_map_iff.
        exists (mapping_set other (phi other) (mapping_of (m_items m))). split; [done|].
        by apply list_elem_of_In.
      * unfold below. cbn [fst m_items mapping_set mapping_of]. intros k v. rewrite dget_dset.
        destruct (decide (k = other)) as [->|]; [by intros [= <-]|]. apply Hb.
Qed.
Lemma match_loop_complete fuel tasks results :
  Forall (task_ok h ev H P a) tasks ->
  tasks_weight (max_nbrs h) (graph_len P) tasks < fuel ->
  exists rs, match_loop h ev false (graph_len P) fuel tasks results = Ok rs /\
    (results <> [] -> rs <> []) /\
    ((exists t, t ∈ tasks /\ below phi t) -> rs <> []).
Proof.
  revert tasks results. induction fuel as [|f IH]; intros tasks results Hall Hw; [lia|].
  destruct tasks as [|t rest].
  - exists results. split_and!; [done|done|]. intros (t & Ht & _). set_solver.
  - apply Forall_cons in Hall as [Ht Hrest].
    destruct (match_step_complete t rest results Ht)
      as (new & rs' & Hs & Hnew & Hwn & Hr1 & Hr2).
    simpl. rewrite Hs. cbn [res_bind fst snd].
    destruct (IH (new ++ rest) rs') as (rs & Hrs & Hq1 & Hq2).
    { apply Forall_app. by split. }
    { rewrite tasks_weight_app. simpl in Hw. lia. }
    exists rs. split_and!; [done|auto|].
    intros (t' & Ht' & Hb). apply elem_of_cons in Ht' as [->|Ht'].
    + destruct (Hr2 Hb) as [?|(t'' & Ht'' & Hb')]; [by apply Hq1|].
      apply Hq2. exists t''. split; [apply elem_of_app; by left|done].
    + apply Hq2. exists t'. split; [apply elem_of_app; by right|done].
Qed.

Lemma init_task_ok own :
  own ∈ graph_ve H -> elem_matches h ev own a (Some false) = Ok true ->
  task_ok h ev H P a (init_task h a own).
Proof.
  intros Hown Hm. unfold init_task. split_and!.
  - by apply init_task_inv.
  - cbn [fst m_items mapping_of]. intros k v n w. simpl.
    destruct (decide (k = a)) as [->|]; [|done]. destruct (decide (n = a)) as [->|]; [|done].
    intros _ Hn. exfalso. apply (closed_nbrs_not_self h P a HcP); [|done].
    by apply first_element_in.
  - intros k n. cbn [fst snd m_items mapping_of]. unfold dkeys at 1. simpl.
    intros ->%list_elem_of_singleton Hn. right. unfold dfrom. apply dkeys_fold_acc. right.
    unfold dkeys. rewrite map_map. simpl. by rewrite map_id.
  - cbn [fst m_items mapping_of]. unfold dkeys. simpl. left.
Qed.

Lemma init_loop_complete fuel st :
  NoDup (it_marked st) -> (forall y, y ∈ it_marked st -> y ∈ graph_ve H) ->
  iter_inside H st -> iter_total H < length (it_marked st) + fuel ->
  exists tasks, init_loop h ev false a H fuel st = Ok tasks /\
    forall own, own ∈ graph_ve H -> (own ∉ it_marked st) ->
      elem_matches h ev own a (Some false) = Ok true -> init_task h a own ∈ tasks.
Proof.
  assert (HaP : a ∈ graph_ve P) by by apply first_element_in.
  revert st. induction fuel as [|f IH]; intros st Hnd Hsub Hin Hlt.
  - exfalso. pose proof (nodup_incl_len _ _ Hnd Hsub).
    unfold iter_total, graph_ve in *. rewrite length_app in *. lia.
  - simpl. destruct (iter_next h H (iter_total H) st) as [[x st']|e] eqn:Hn.
    + destruct (iter_next_inside h H st x st' HcH Hin Hn) as [HxH Hin'].
      destruct (iter_next_fresh h H st x st' Hn) as [Hm' Hx].
      destruct (matches_ok x a HxH HaP) as [b Hb]. rewrite Hb. cbn [res_bind].
      destruct (IH st') as (rest & Hrest & Hall).
      { rewrite Hm'. apply NoDup_app. split_and!; [done| |apply NoDup_singleton].
        intros y Hy ->%list_elem_of_singleton. contradiction. }
      { rewrite Hm'. intros y [Hy|Hy]%elem_of_app; [by apply Hsub|].
        by apply list_elem_of_singleton in Hy as ->. }
      { done. }
      { rewrite Hm', length_app. simpl. lia. }
      rewrite Hrest. cbn [res_bind].
      exists (if b then init_task h a x :: rest else rest). split; [done|].
      intros own Hown Hnm Hmo. destruct (decide (own = x)) as [->|Hne].
      * rewrite Hmo in Hb. injection Hb as <-. left.
      * assert (Hr : init_task h a own ∈ rest).
        { apply Hall; [done| |done]. rewrite Hm'. intros [?|Hy]%elem_of_app; [done|].
          by apply list_elem_of_singleton in Hy. }
        destruct b; [by right|done].
    + destruct (iter_next_err h H st e Hnd Hsub Hn) as [-> Hle].
      exists []. split; [done|]. intros own Hown Hnm _. exfalso. apply Hnm.
      by apply Hle.
Qed.

Lemma tasks_weight_le b lenP ts : tasks_weight b lenP ts <= length ts * task_weight b lenP.
Proof.
  induction ts as [|t ts IH]; simpl; [lia|].
  pose proof (task_weight_mono b (lenP - length (m_items t.1)) lenP ltac:(lia)). lia.
Qed.

Lemma graph_match_complete : exists rs, graph_match h ev H P false = Ok rs /\ rs <> [].
Proof.
  assert (HaP : a ∈ graph_ve P) by by apply first_element_in.
  destruct (emb_spec a HaP) as (HphH & Hpm & _).
  unfold graph_match.
  assert (Hg : get_any_element h P = Ok (Some a)).
  { unfold get_any_element, iter_next, iter_init. rewrite Ha. simpl.
    done. }
  rewrite Hg. cbn [res_bind].
  destruct (init_loop_complete (S (iter_total H + size h)) (iter_init H)) as (tasks & Hi & Hall).
  { constructor. }
  { simpl. set_solver. }
  { apply iter_init_inside. }
  { simpl. lia. }
  rewrite Hi. cbn [res_bind].
  destruct (match_loop_complete (match_fuel h P (length tasks)) (rev tasks) [])
    as (rs & Hrs & _ & Hne).
  { apply Forall_forall. intros t Ht. apply elem_of_rev in Ht.
    destruct (init_loop_spec h ev false a H _ _ tasks HcH (iter_init_inside H) Hi t Ht)
      as (own & Hown & Hm & ->).
    by apply init_task_ok. }
  { rewrite tasks_weight_rev. unfold match_fuel.
    pose proof (tasks_weight_le (max_nbrs h) (graph_len P) tasks). lia. }
  exists rs. split; [done|]. apply Hne. exists (init_task h a (phi a)). split.
  - apply rev_elem_of, Hall; [done|simpl; set_solver|done].
  - unfold below, init_task. cbn [fst m_items mapping_of]. intros k v. simpl.
    destruct (decide (k = a)) as [->|]; [by intros [= <-]|done].
Qed.
End Completeness.

(** C2 (amended): if the host [H] and the pattern [P] are consistent
    and symmetric (an edge lists a vertex as an endpoint iff the vertex
    lists the edge), the vertex and edge lists of [P] have no
    repetitions (those of [H] may have), [P] is non-empty, has no faces and is connected, and [phi] embeds
    [P] in [H] (injective, [matches] without [eval_attr], adjacency and
    the [vertex1]/[vertex2] roles of directed edges preserved), then
    [H.match(P)] returns normally with at least one mapping. *)
Theorem C2_match_complete (h : heap) (ev : evaluator) (H P : graph) (phi : nat -> nat) :
  graph_closed h H = true -> graph_closed h P = true ->
  graph_symmetric h H = true -> graph_symmetric h P = true ->
  bool_decide (NoDup (graph_ve P)) = true ->
  g_faces P = [] -> 0 < length (graph_ve P) -> graph_connected h P = true ->
  embedding h ev H P phi = true ->
  exists rs, graph_match h ev H P false = Ok rs /\ rs <> [].
Proof.
  intros HcH HcP HsH HsP HndP HfP Hne Hconn Hemb.
  apply bool_decide_eq_true in HndP.
  assert (Ha : exists a, first_element P = Some a).
  { unfold first_element. unfold graph_ve in Hne. rewrite length_app in Hne.
    destruct (g_vertices P) as [|v vs]; [|by eexists].
    destruct (g_edges P) as [|e es]; [simpl in Hne; lia|by eexists]. }
  destruct Ha as [a Ha].
  by apply (graph_match_complete h ev H P phi a).
Qed.

Lemma C2_match_complete_witness :
  (exists rs, graph_match c1_heap3 c1_ev c1_host3 c1_pat3 false = Ok rs /\ rs <> []) /\
  (exists rs, graph_match c1_heap3 c1_ev c1_host3r c1_pat3 false = Ok rs /\ rs <> []).
Proof.
  split.
  - apply (C2_match_complete c1_heap3 c1_ev c1_host3 c1_pat3 c2_phi);
      vm_compute; first [reflexivity | lia].
  - apply (C2_match_complete c1_heap3 c1_ev c1_host3r c1_pat3 c2_phi);
      vm_compute; first [reflexivity | lia].
Defined.


(** ** Production application leaves every existing object alone *)

Ltac bind_inv H x E :=
  lazymatch type of H with
  | res_bind ?m ?k = Ok _ =>
      destruct m as [x|] eqn:E; cbn [res_bind] in H; [|discriminate H]
  end.

Lemma heap_top_gt (h : heap) p o : h !! p = Some o -> p < heap_top h.
Proof.
  intros Hp. unfold heap_top.
  assert (p ∈ map fst (map_to_list h)) as Hin.
  { apply list_elem_of_In. apply (in_map fst (map_to_list h) (p, o)).
    apply list_elem_of_In. by apply elem_of_map_to_list. }
  apply foldr_max_ge in Hin. lia.
Qed.

Lemma heap_top_None (h : heap) p : heap_top h <= p -> h !! p = None.
Proof. destruct (h !! p) as [o|] eqn:E; [|done]. apply heap_top_gt in E. lia. Qed.

Lemma ve_refs_Some (h : heap) y o : h !! y = Some o -> ve_refs h y = obj_refs o.
Proof. unfold ve_refs. by intros ->. Qed.

Lemma frame_update h0 b (h : heap) y o :
  frame_inv h0 b h -> b <= y -> (forall r, r ∈ obj_refs o -> r ∈ ve_refs h y \/ b <= r) ->
  frame_inv h0 b (<[y := o]> h).
Proof.
  intros [Hlo Hhi] Hy Ho. split.
  - intros p Hp. rewrite lookup_insert_ne by lia. auto.
  - intros y' r Hy' Hr. unfold ve_refs in Hr. destruct (decide (y = y')) as [<-|Hne].
    + rewrite lookup_insert_eq in Hr. destruct (Ho r Hr) as [Hold|]; [|done]. by apply (Hhi y).
    + rewrite lookup_insert_ne in Hr by done. apply (Hhi y'); [done|]. exact Hr.
Qed.

Lemma frame_ref h0 b (h : heap) y r : frame_inv h0 b h -> b <= y -> r ∈ ve_refs h y -> b <= r.
Proof. intros [_ H]. apply H. Qed.

Lemma get_graph_Some (h : heap) x g : get_graph h x = Ok g -> h !! x = Some (OGraph g).
Proof. unfold get_graph. destruct (h !! x) as [[]|]; congruence. Qed.

Lemma get_vertex_Some (h : heap) x v : get_vertex h x = Ok v -> h !! x = Some (OVertex v).
Proof. unfold get_vertex. destruct (h !! x) as [[]|]; congruence. Qed.

Lemma get_edge_Some (h : heap) x e : get_edge h x = Ok e -> h !! x = Some (OEdge e).
Proof. unfold get_edge. destruct (h !! x) as [[]|]; congruence. Qed.

Lemma frame_graph_write h0 b (h : heap) y g :
  frame_inv h0 b h -> b <= y -> frame_inv h0 b (<[y := OGraph g]> h).
Proof. intros Hf Hy. apply frame_update; [done|done|]. simpl. set_solver. Qed.

Lemma list_remove_in x (l : list nat) r : r ∈ list_remove x l -> r ∈ l.
Proof.
  induction l as [|y l IH]; simpl; [done|].
  destruct (decide (x = y)); [intros; by right|].
  intros [->|Hr]%elem_of_cons; [left|right; auto].
Qed.

Lemma set_add_in x (s : list nat) r : r ∈ set_add x s -> r = x \/ r ∈ s.
Proof.
  unfold set_add. destruct (decide (x ∈ s)); [by right|].
  intros [Hr|Hr]%elem_of_app; [by right|]. apply list_elem_of_singleton in Hr. by left.
Qed.

(** *** [add_to] and [delete_from] *)

Lemma vadd_loop_frame h0 b (h : heap) self gid ign es h' :
  frame_inv h0 b h -> b <= self -> (forall e, e ∈ es -> b <= e) ->
  vadd_loop h self gid ign es = Ok h' -> frame_inv h0 b h'.
Proof.
  revert h. induction es as [|e es IH]; intros h Hf Hs Hes; simpl.
  - by intros [= <-].
  - intros Hl. bind_inv Hl g Eg. bind_inv Hl bad Ebad. destruct bad; [discriminate|].
    bind_inv Hl x1 E1. apply get_edge_Some in E1.
    assert (Hes' : forall e', e' ∈ es -> b <= e') by (intros; apply Hes; by right).
    assert (Hb : b <= e) by (apply Hes; left).
    destruct (decide (self ∈ edge_nbrs x1)); [by apply (IH h)|].
    destruct (decide (e_v1 x1 = None)) as [Hn|].
    { refine (IH _ _ Hs Hes' Hl). apply frame_update; [exact Hf|exact Hb|].
      rewrite (ve_refs_Some _ _ _ E1). simpl. unfold edge_nbrs. simpl.
      intros r [->|Hr]%elem_of_cons; [by right|].
      left. apply elem_of_app. by right. }
    destruct (decide (e_v2 x1 = None)) as [Hn|].
    { refine (IH _ _ Hs Hes' Hl). apply frame_update; [exact Hf|exact Hb|].
      rewrite (ve_refs_Some _ _ _ E1). simpl. unfold edge_nbrs. simpl.
      intros r [Hr|Hr]%elem_of_app.
      - left. apply elem_of_app. by left.
      - apply list_elem_of_singleton in Hr as ->. by right. }
    bind_inv Hl x2 E2. destruct x2; [|discriminate]. by apply (IH h).
Qed.

Lemma eadd_loop_frame h0 b (h : heap) self gid ign ws h' :
  frame_inv h0 b h -> b <= self -> (forall w, w ∈ ws -> b <= w) ->
  eadd_loop h self gid ign ws = Ok h' -> frame_inv h0 b h'.
Proof.
  revert h. induction ws as [|w ws IH]; intros h Hf Hs Hws; simpl.
  - by intros [= <-].
  - intros Hl. bind_inv Hl g Eg. bind_inv Hl bad Ebad. destruct bad; [discriminate|].
    bind_inv Hl x1 E1. apply get_vertex_Some in E1.
    refine (IH _ _ Hs _ Hl); [|intros; apply Hws; by right].
    apply frame_update; [done|apply Hws; left|].
    rewrite (ve_refs_Some _ _ _ E1). simpl.
    intros r [->|Hr]%set_add_in; [by right|by left].
Qed.

Lemma vdel_loop_frame h0 b (h : heap) self ign es h' :
  frame_inv h0 b h -> (forall e, e ∈ es -> b <= e) ->
  vdel_loop h self ign es = Ok h' -> frame_inv h0 b h'.
Proof.
  revert h. induction es as [|e es IH]; intros h Hf Hes; simpl.
  - by intros [= <-].
  - intros Hl. bind_inv Hl x E. apply get_edge_Some in E.
    assert (Hes' : forall e', e' ∈ es -> b <= e') by (intros; apply Hes; by right).
    destruct (decide (self ∈ edge_nbrs x)).
    + refine (IH _ _ Hes' Hl). apply frame_update; [done|apply Hes; left|].
      rewrite (ve_refs_Some _ _ _ E). simpl. intros r Hr. left.
      unfold edge_nbrs in *.
      destruct (decide (e_v1 x = Some self)) as [H1|H1]; simpl in Hr;
        destruct (decide _) as [H2|H2]; simpl in Hr; destruct x as [a v1 v2]; simpl in *;
        repeat rewrite elem_of_app in *; set_solver.
    + bind_inv Hl x0 E0. destruct x0; [by apply (IH h)|discriminate].
Qed.

Lemma edel_loop_frame h0 b (h : heap) self ign os h' :
  frame_inv h0 b h -> (forall w, Some w ∈ os -> b <= w) ->
  edel_loop h self ign os = Ok h' -> frame_inv h0 b h'.
Proof.
  revert h. induction os as [|[w|] os IH]; intros h Hf Hos; simpl.
  - by intros [= <-].
  - intros Hl. bind_inv Hl x E. apply get_vertex_Some in E.
    assert (Hos' : forall w', Some w' ∈ os -> b <= w') by (intros; apply Hos; by right).
    destruct (decide (self ∈ v_edges x)).
    + refine (IH _ _ Hos' Hl). apply frame_update; [done|apply Hos; left|].
      rewrite (ve_refs_Some _ _ _ E). simpl. intros r Hr. left. by apply list_remove_in in Hr.
    + bind_inv Hl x0 E0. destruct x0; [by apply (IH h)|discriminate].
  - apply IH; [done|]. intros; apply Hos; by right.
Qed.

Lemma element_add_to_frame h0 b (h : heap) x gid ign h' :
  frame_inv h0 b h -> b <= x -> b <= gid -> element_add_to h x gid ign = Ok h' -> frame_inv h0 b h'.
Proof.
  intros Hf Hx Hg. unfold element_add_to.
  destruct (h !! x) as [[v0|e0|f0|g0]|] eqn:Ex; try discriminate.
  - unfold vertex_add_to. intros Hl. bind_inv Hl g1 E. bind_inv Hl v1 E0. apply get_vertex_Some in E0.
    refine (vadd_loop_frame _ _ _ _ _ _ _ _ (frame_graph_write _ _ _ _ _ Hf Hg) Hx _ Hl).
    intros e He. apply (frame_ref _ _ _ _ _ Hf Hx). by rewrite (ve_refs_Some _ _ _ E0).
  - unfold edge_add_to. intros Hl. bind_inv Hl g1 E. bind_inv Hl x0 E0. apply get_edge_Some in E0.
    refine (eadd_loop_frame _ _ _ _ _ _ _ _ (frame_graph_write _ _ _ _ _ Hf Hg) Hx _ Hl).
    intros w Hw. apply (frame_ref _ _ _ _ _ Hf Hx). by rewrite (ve_refs_Some _ _ _ E0).
Qed.

Lemma graph_discard_frame h0 b (h : heap) gid x ign h' :
  frame_inv h0 b h -> b <= x -> b <= gid -> graph_discard h gid x ign = Ok h' -> frame_inv h0 b h'.
Proof.
  intros Hf Hx Hg. unfold graph_discard.
  destruct (h !! x) as [[v0|e0|f0|g0]|] eqn:Ex; try discriminate.
  - unfold vertex_delete_from. intros Hl. bind_inv Hl g1 E. bind_inv Hl vs E0. bind_inv Hl x0 E1.
    apply get_vertex_Some in E1.
    refine (vdel_loop_frame _ _ _ _ _ _ _ (frame_graph_write _ _ _ _ _ Hf Hg) _ Hl).
    intros e He. apply (frame_ref _ _ _ _ _ Hf Hx). by rewrite (ve_refs_Some _ _ _ E1).
  - unfold edge_delete_from. intros Hl. bind_inv Hl g1 E. bind_inv Hl es E0. bind_inv Hl x0 E1.
    apply get_edge_Some in E1.
    refine (edel_loop_frame _ _ _ _ _ _ _ (frame_graph_write _ _ _ _ _ Hf Hg) _ Hl).
    intros w Hw. apply (frame_ref _ _ _ _ _ Hf Hx). rewrite (ve_refs_Some _ _ _ E1). simpl.
    unfold edge_nbrs. destruct x0 as [a [v1|] [v2|]]; simpl in *; set_solver.
Qed.

(** *** Connections and attributes *)

Lemma map_res_in {A B} (f : A -> res B) l l' y :
  map_res f l = Ok l' -> y ∈ l' -> exists x, x ∈ l /\ f x = Ok y.
Proof.
  revert l'. induction l as [|x l IH]; simpl; intros l' Hm Hy.
  - injection Hm as <-. set_solver.
  - bind_inv Hm y0 Ef. bind_inv Hm ys Er. injection Hm as <-.
    apply elem_of_cons in Hy as [->|Hy].
    + exists x. split; [left|done].
    + destruct (IH ys eq_refl Hy) as (x' & Hx' & Hf'). exists x'. split; [by right|done].
Qed.

Lemma fold_remove_sub (ps : list (nat * nat)) l r :
  r ∈ fold_left (fun s p => list_remove p.1 s) ps l -> r ∈ l.
Proof.
  revert l. induction ps as [|p ps IH]; simpl; intros l Hr; [done|].
  apply IH in Hr. by apply list_remove_in in Hr.
Qed.

Lemma fold_add_sub (ps : list (nat * nat)) l r :
  r ∈ fold_left (fun s p => set_add p.2 s) ps l -> r ∈ l \/ exists p, p ∈ ps /\ r = p.2.
Proof.
  revert l. induction ps as [|p ps IH]; simpl; intros l Hr; [by left|].
  apply IH in Hr as [Hr|(p' & Hp' & ->)].
  - apply set_add_in in Hr as [->|Hr]; [right; exists p; split; [left|done]|by left].
  - right. exists p'. split; [by right|done].
Qed.

Lemma vertex_replace_frame h0 b (h : heap) x rep h' :
  frame_inv h0 b h -> b <= x -> (forall e r, rep e = Ok (Some r) -> r = e \/ b <= r) ->
  vertex_replace h x rep = Ok h' -> frame_inv h0 b h'.
Proof.
  intros Hf Hx Hrep Hl. unfold vertex_replace in Hl.
  bind_inv Hl v Ev. apply get_vertex_Some in Ev. bind_inv Hl rs Ers. injection Hl as <-.
  apply frame_update; [done|done|]. rewrite (ve_refs_Some _ _ _ Ev). simpl.
  intros r Hr. apply fold_add_sub in Hr as [Hr|(p & Hp & ->)].
  - left. by apply fold_remove_sub in Hr.
  - right. apply list_elem_of_In, in_flat_map in Hp as (o & Ho & Hp).
    destruct o as [p'|]; [|done]. apply list_elem_of_In in Ho.
    apply list_elem_of_In, list_elem_of_singleton in Hp as ->.
    destruct (map_res_in _ _ _ _ Ers Ho) as (e & He & Hfe).
    bind_inv Hfe r0 Er0. destruct r0 as [r'|]; [|discriminate].
    destruct (is_edge h r'); [|discriminate]. injection Hfe as <-. simpl.
    destruct (Hrep e r' Er0) as [->|]; [|done].
    apply (frame_ref _ _ _ _ _ Hf Hx). by rewrite (ve_refs_Some _ _ _ Ev).
Qed.

Lemma edge_slot_spec (h : heap) rep ron cur n b :
  (forall y r, rep y = Ok (Some r) -> y = Some r \/ b <= r) ->
  edge_slot h rep ron cur = Ok n -> forall r, n = Some r -> cur = Some r \/ b <= r.
Proof.
  intros Hrep Hs r ->. unfold edge_slot in Hs. bind_inv Hs o Eo.
  destruct o as [w|].
  - destruct (is_vertex h w); [|discriminate]. injection Hs as ->. by apply Hrep.
  - destruct ron; [discriminate|]. injection Hs as ->. by left.
Qed.

Lemma edge_replace_frame h0 b (h : heap) x rep ron h' :
  frame_inv h0 b h -> b <= x -> (forall y r, rep y = Ok (Some r) -> y = Some r \/ b <= r) ->
  edge_replace h x rep ron = Ok h' -> frame_inv h0 b h'.
Proof.
  intros Hf Hx Hrep Hl. unfold edge_replace in Hl.
  bind_inv Hl e Ee. apply get_edge_Some in Ee. bind_inv Hl n1 E1. bind_inv Hl n2 E2.
  injection Hl as <-. apply frame_update; [done|done|].
  rewrite (ve_refs_Some _ _ _ Ee). simpl. unfold edge_nbrs. simpl.
  intros r [Hr|Hr]%elem_of_app.
  - destruct n1 as [r1|]; simpl in Hr; [|set_solver].
    apply list_elem_of_singleton in Hr as ->.
    destruct (edge_slot_spec _ _ _ _ _ _ Hrep E1 r1 eq_refl) as [Hc|]; [|by right].
    left. rewrite Hc. simpl. set_solver.
  - destruct n2 as [r2|]; simpl in Hr; [|set_solver].
    apply list_elem_of_singleton in Hr as ->.
    destruct (edge_slot_spec _ _ _ _ _ _ Hrep E2 r2 eq_refl) as [Hc|]; [|by right].
    left. rewrite Hc. simpl. set_solver.
Qed.

Lemma replace_connection_frame h0 b (h : heap) x rep h' :
  frame_inv h0 b h -> b <= x -> (forall y r, rep y = Ok (Some r) -> y = Some r \/ b <= r) ->
  replace_connection h x rep = Ok h' -> frame_inv h0 b h'.
Proof.
  intros Hf Hx Hrep. unfold replace_connection.
  destruct (h !! x) as [[v0|e0|f0|g0]|]; try discriminate.
  - apply vertex_replace_frame; [done|done|]. intros e r Her.
    destruct (Hrep _ _ Her) as [[= ->]|]; auto.
  - by apply edge_replace_frame.
  - by intros [= <-].
Qed.

Lemma map_attr_refs f o o' : map_attr f o = Some o' -> obj_refs o' = obj_refs o.
Proof. destruct o; simpl; intros [= <-]; done. Qed.

Lemma set_attr_frame h0 b (h : heap) x k v h' :
  frame_inv h0 b h -> b <= x -> set_attr h x k v = Ok h' -> frame_inv h0 b h'.
Proof.
  intros Hf Hx. unfold set_attr. destruct (h !! x) as [o|] eqn:Eo; [|discriminate].
  destruct (map_attr _ o) as [o'|] eqn:Em; [|discriminate]. intros [= <-].
  apply frame_update; [done|done|]. rewrite (ve_refs_Some _ _ _ Eo), (map_attr_refs _ _ _ Em).
  intros; by left.
Qed.

Lemma pop_attr_frame h0 b (h : heap) x k h' :
  frame_inv h0 b h -> b <= x -> pop_attr h x k = Ok h' -> frame_inv h0 b h'.
Proof.
  intros Hf Hx. unfold pop_attr. intros Hl. bind_inv Hl a Ea.
  destruct (dget k a); [|discriminate]. destruct (h !! x) as [o|] eqn:Eo; [|discriminate].
  destruct (map_attr _ o) as [o'|] eqn:Em; [|discriminate]. injection Hl as <-.
  apply frame_update; [done|done|]. rewrite (ve_refs_Some _ _ _ Eo), (map_attr_refs _ _ _ Em).
  intros; by left.
Qed.

(** *** The hierarchy map leads into the copies *)

Lemma hmap_go_R hy f e s r :
  hmap_go hy f e s 0%Z = Ok (Some r) -> (s = 0%Z /\ r = e) \/ r ∈ dvals (m_items (host_to_result hy)).
Proof.
  revert e s. induction f as [|f IH]; intros e s; [discriminate|].
  cbn [hmap_go].
  destruct ((s <? 0)%Z || (4 <? s)%Z) eqn:Hb; [simpl; discriminate|].
  apply orb_false_iff in Hb as [H1 H2]. apply Z.ltb_ge in H1, H2.
  destruct (Z.eqb_spec s 0) as [->|Hs0]; [simpl; intros [= <-]; by left|].
  assert (s = 1 \/ s = 2 \/ s = 3 \/ s = 4)%Z as Hc by lia.
  destruct Hc as [ -> | [ -> | [ -> | -> ]]]; simpl;
    (destruct (dget e _) as [r'|] eqn:Hd; [|discriminate]); intros Hg;
    apply IH in Hg as [[Hz ->]|Hv]; try lia; try (by right).
  right. by apply dget_Some_vals in Hd.
Qed.

Lemma hmap_go_C hy f e s r :
  hmap_go hy f e s 4%Z = Ok (Some r) -> (s = 4%Z /\ r = e) \/ r ∈ dvals (m_items (daughter_to_copy hy)).
Proof.
  revert e s. induction f as [|f IH]; intros e s; [discriminate|].
  cbn [hmap_go].
  destruct ((s <? 0)%Z || (4 <? s)%Z) eqn:Hb; [simpl; discriminate|].
  apply orb_false_iff in Hb as [H1 H2]. apply Z.ltb_ge in H1, H2.
  destruct (Z.eqb_spec s 4) as [->|Hs0]; [simpl; intros [= <-]; by left|].
  assert (s = 0 \/ s = 1 \/ s = 2 \/ s = 3)%Z as Hc by lia.
  destruct Hc as [ -> | [ -> | [ -> | -> ]]]; simpl;
    (destruct (dget e _) as [r'|] eqn:Hd; [|discriminate]); intros Hg;
    apply IH in Hg as [[Hz ->]|Hv]; try lia; try (by right).
  right. by apply dget_Some_vals in Hd.
Qed.

Lemma resolve_alias s z :
  resolve_level (LStr s) = Ok z ->
  (s = "R" /\ z = 0 \/ s = "H" /\ z = 1 \/ s = "M" /\ z = 2 \/ s = "D" /\ z = 3 \/ s = "C" /\ z = 4)%string%Z.
Proof.
  unfold resolve_level. destruct (dget s hierarchy_alias) as [z'|] eqn:Hd; [|discriminate]. intros [= <-].
  apply dget_Some_elem in Hd. unfold hierarchy_alias in Hd.
  repeat (apply elem_of_cons in Hd as [Hd|Hd]; [injection Hd as -> ->; naive_solver|]).
  set_solver.
Qed.

Lemma hmap_fresh hy b e s t o :
  hy_fresh b hy -> (t = "R" /\ s <> "R" \/ t = "C" /\ s <> "C")%string ->
  hmap hy e (LStr s) (LStr t) = Ok o -> fresh_opt b o.
Proof.
  intros [HR HC] Hst Hm. destruct o as [r|]; [|exact I]. cbn [fresh_opt].
  unfold hmap in Hm. bind_inv Hm z Hz. apply resolve_alias in Hz.
  destruct Hst as [[-> Hs]|[-> Hs]].
  - assert (resolve_level (LStr "R") = Ok 0%Z) as Hr by reflexivity.
    rewrite Hr in Hm. cbn [res_bind] in Hm.
    apply hmap_go_R in Hm as [[-> _]|Hv]; [naive_solver|by apply HR].
  - assert (resolve_level (LStr "C") = Ok 4%Z) as Hr by reflexivity.
    rewrite Hr in Hm. cbn [res_bind] in Hm.
    apply hmap_go_C in Hm as [[-> _]|Hv]; [naive_solver|by apply HC].
Qed.

Lemma hmap_opt_fresh hy b y s t o :
  hy_fresh b hy -> (t = "R" /\ s <> "R" \/ t = "C" /\ s <> "C")%string ->
  hmap_opt hy y (LStr s) (LStr t) = Ok o -> fresh_opt b o.
Proof.
  intros Hy Hst. destruct y as [e|]; simpl; [by apply hmap_fresh|]. by intros [= <-].
Qed.

Lemma map_res_fresh hy b s t l xs :
  hy_fresh b hy -> (t = "R" /\ s <> "R" \/ t = "C" /\ s <> "C")%string ->
  map_res (fun x => hmap hy x (LStr s) (LStr t)) l = Ok xs -> forall o, o ∈ xs -> fresh_opt b o.
Proof.
  intros Hy Hst Hm o Ho. destruct (map_res_in _ _ _ _ Hm Ho) as (x & _ & Hx).
  by apply (hmap_fresh hy b x s t).
Qed.

Lemma need_fresh b o x : fresh_opt b o -> need o = Ok x -> b <= x.
Proof. destruct o; simpl; [intros ? [= <-]; done|discriminate]. Qed.

(** *** The steps of [apply] *)

Lemma conn_step_frame h0 b hy (h : heap) p h' :
  hy_fresh b hy -> frame_inv h0 b h -> conn_step hy h p = Ok h' -> frame_inv h0 b h'.
Proof.
  intros Hy Hf Hl. unfold conn_step in Hl.
  bind_inv Hl re Ere. bind_inv Hl rv Erv. bind_inv Hl x Ex.
  assert (Hbx : b <= x).
  { refine (need_fresh _ _ _ (hmap_fresh _ _ _ _ _ _ Hy _ Ere) Ex). left; split; [done|discriminate]. }
  bind_inv Hl h1 Eh1.
  assert (Hf1 : frame_inv h0 b h1).
  { destruct (h !! x) as [[v0|e0|f0|g0]|]; try discriminate.
    refine (edge_replace_frame _ _ _ _ _ _ _ Hf Hbx _ Eh1).
    intros y r Hr. injection Hr as Hr. destruct (decide (y = rv)); [discriminate|]. by left. }
  bind_inv Hl w Ew.
  assert (Hbw : b <= w).
  { refine (need_fresh _ _ _ (hmap_fresh _ _ _ _ _ _ Hy _ Erv) Ew). left; split; [done|discriminate]. }
  bind_inv Hl wv Ewv. apply get_vertex_Some in Ewv. bind_inv Hl es Ees. injection Hl as <-.
  apply frame_update; [done|done|]. rewrite (ve_refs_Some _ _ _ Ewv). simpl.
  intros r Hr. left. unfold set_remove in Ees. destruct (decide _); [|discriminate].
  injection Ees as <-. by apply list_remove_in in Hr.
Qed.

Lemma remove_step_frame h0 b hy o rg (h : heap) r h' :
  hy_fresh b hy -> b <= rg -> fresh_opt b r -> frame_inv h0 b h ->
  remove_step hy o rg h r = Ok h' -> frame_inv h0 b h'.
Proof.
  intros Hy Hrg Hr Hf Hl. unfold remove_step in Hl.
  bind_inv Hl i1 Ei1. bind_inv Hl i2 Ei2. bind_inv Hl x Ex.
  exact (graph_discard_frame _ _ _ _ _ _ _ Hf (need_fresh _ _ _ Hr Ex) Hrg Hl).
Qed.

Lemma add_step_frame new_position h0 b hy o rg ta gen (h : heap) c h' :
  hy_fresh b hy -> b <= rg -> fresh_opt b c -> frame_inv h0 b h ->
  add_step new_position hy o rg ta gen h c = Ok h' -> frame_inv h0 b h'.
Proof.
  intros Hy Hrg Hc Hf Hl. unfold add_step in Hl.
  bind_inv Hl x Ex. pose proof (need_fresh _ _ _ Hc Ex) as Hbx.
  bind_inv Hl h1 Eh1.
  assert (Hf1 : frame_inv h0 b h1).
  { refine (replace_connection_frame _ _ _ _ _ _ Hf Hbx _ Eh1).
    intros y r Hr. right.
    refine (hmap_opt_fresh _ _ _ _ _ _ Hy _ Hr). left; split; [done|discriminate]. }
  bind_inv Hl h2 Eh2.
  assert (Hf2 : frame_inv h0 b h2).
  { destruct (is_vertex h1 x); [|by injection Eh2 as <-].
    bind_inv Eh2 xy Exy. bind_inv Eh2 a Ea. bind_inv Eh2 hw Ehw.
    assert (Hfw : frame_inv h0 b hw).
    { destruct (dget "new_x"%string a); [by injection Ehw as <-|].
      exact (set_attr_frame _ _ _ _ _ _ _ Hf1 Hbx Ehw). }
    destruct (dget "new_y"%string a); [by injection Eh2 as <-|].
    exact (set_attr_frame _ _ _ _ _ _ _ Hfw Hbx Eh2). }
  bind_inv Hl h3 Eh3.
  pose proof (set_attr_frame _ _ _ _ _ _ _ Hf2 Hbx Eh3) as Hf3.
  exact (element_add_to_frame _ _ _ _ _ _ _ Hf3 Hbx Hrg Hl).
Qed.

Lemma change_step_frame h0 b hy tr (h : heap) r h' :
  hy_fresh b hy -> fresh_opt b r -> frame_inv h0 b h ->
  change_step hy tr h r = Ok h' -> frame_inv h0 b h'.
Proof.
  intros Hy Hr Hf Hl. unfold change_step in Hl.
  bind_inv Hl x Ex. pose proof (need_fresh _ _ _ Hr Ex) as Hbx.
  refine (replace_connection_frame _ _ _ _ _ _ Hf Hbx _ Hl).
  intros y r' Hr'. right. destruct (decide (y ∈ tr)); [|discriminate].
  refine (hmap_opt_fresh _ _ _ _ _ _ Hy _ Hr'). right; split; [done|discriminate].
Qed.

Lemma attr_loop_frame Env attr_value pos_value h0 b env hy d target old items (h h' : heap) :
  frame_inv h0 b h -> fresh_opt b target ->
  attr_loop Env attr_value pos_value env hy d target old items h = Ok h' -> frame_inv h0 b h'.
Proof.
  intros Hf Ht. revert h Hf. induction items as [|[name text] items IH]; intros h Hf Hl;
    cbn [attr_loop] in Hl.
  - by injection Hl as <-.
  - destruct (String.eqb name "x" || String.eqb name "y"); [by apply (IH h)|].
    bind_inv Hl p Ep. destruct p as [name' h1].
    assert (Hf1 : frame_inv h0 b h1).
    { destruct (String.eqb name "new_x"); [|destruct (String.eqb name "new_y")].
      - bind_inv Ep t Et. bind_inv Ep h2 Eh2. injection Ep as <- <-.
        exact (pop_attr_frame _ _ _ _ _ _ Hf (need_fresh _ _ _ Ht Et) Eh2).
      - bind_inv Ep t Et. bind_inv Ep h2 Eh2. injection Ep as <- <-.
        exact (pop_attr_frame _ _ _ _ _ _ Hf (need_fresh _ _ _ Ht Et) Eh2).
      - by injection Ep as <- <-. }
    cbn beta iota in Hl.
    destruct (String.eqb name' ".new_pos").
    + bind_inv Hl pos Epos. bind_inv Hl t Et. pose proof (need_fresh _ _ _ Ht Et) as Hbt.
      bind_inv Hl h2 Eh2. bind_inv Hl h3 Eh3. bind_inv Hl a Ea. bind_inv Hl h4 Eh4.
      apply (IH h4); [|done].
      pose proof (set_attr_frame _ _ _ _ _ _ _ Hf1 Hbt Eh2) as Hf2.
      pose proof (set_attr_frame _ _ _ _ _ _ _ Hf2 Hbt Eh3) as Hf3.
      destruct (dget ".new_pos"%string a); [|by injection Eh4 as <-].
      exact (pop_attr_frame _ _ _ _ _ _ Hf3 Hbt Eh4).
    + destruct (String.prefix "." name' && negb (String.prefix ".svg_" name')
                && negb (String.prefix ".svgx_" name')); [by apply (IH h1)|].
      bind_inv Hl v Ev. bind_inv Hl t Et. bind_inv Hl h2 Eh2.
      apply (IH h2); [|done].
      exact (set_attr_frame _ _ _ _ _ _ _ Hf1 (need_fresh _ _ _ Ht Et) Eh2).
Qed.

Lemma calc_step_frame Env attr_value pos_value h0 b env hy (h : heap) t h' :
  fresh_opt b t.1.2 -> frame_inv h0 b h ->
  calc_step Env attr_value pos_value env hy h t = Ok h' -> frame_inv h0 b h'.
Proof.
  destruct t as [[d target] old]. simpl. intros Ht Hf Hl. unfold calc_step in Hl.
  bind_inv Hl a Ea. exact (attr_loop_frame _ _ _ _ _ _ _ _ _ _ _ _ _ Hf Ht Hl).
Qed.

Lemma for_each_inv {A} (P : A -> Prop) (Q : heap -> Prop) (l : list A) h body h' :
  (forall x, x ∈ l -> P x) -> (forall h x h', Q h -> P x -> body h x = Ok h' -> Q h') ->
  Q h -> for_each l h body = Ok h' -> Q h'.
Proof.
  intros HP Hb. revert h. induction l as [|x l IH]; simpl; intros h HQ Hl.
  - by injection Hl as <-.
  - bind_inv Hl h1 E1. apply (IH ltac:(intros; apply HP; by right) h1); [|done].
    apply (Hb h x h1); [done|apply HP; left|done].
Qed.

Lemma py_set_in {A} `{EqDecision A} (l : list A) x : x ∈ py_set l -> x ∈ l.
Proof.
  unfold py_set.
  cut (forall acc, x ∈ fold_left (fun s y => if decide (y ∈ s) then s else s ++ [y]) l acc ->
                   x ∈ acc \/ x ∈ l).
  { intros H Hx. destruct (H [] Hx) as [Hn|]; [set_solver|done]. }
  induction l as [|y l IH]; simpl; intros acc Hx; [by left|].
  apply IH in Hx as [Hx|Hx]; [|right; by right].
  destruct (decide (y ∈ acc)); [by left|]. apply elem_of_app in Hx as [Hx|Hx]; [by left|].
  apply list_elem_of_singleton in Hx as ->. right; left.
Qed.

Lemma set_iter_in {A} `{EqDecision A} (ord : list A -> list A) s x : x ∈ set_iter ord s -> x ∈ s.
Proof.
  unfold set_iter. rewrite list_elem_of_In, filter_In. intros [_ Hx].
  by apply bool_decide_eq_true in Hx.
Qed.

(** *** The copies of [hierarchy_init] *)

Lemma dvals_dset_in (k : nat) (v : nat) (d : list (nat * nat)) w :
  w ∈ dvals (dset k v d) -> w = v \/ w ∈ dvals d.
Proof.
  unfold dvals. induction d as [|[k0 v0] d IH]; simpl.
  - intros Hw. apply list_elem_of_singleton in Hw. by left.
  - destruct (decide (k = k0)); simpl; intros Hw; apply elem_of_cons in Hw as [->|Hw].
    + by left.
    + right. by right.
    + right. by left.
    + apply IH in Hw as [->|Hw]; [by left|]. right. by right.
Qed.

Lemma copy_addrs_spec l nx mp0 mp nx' :
  copy_addrs l nx mp0 = (mp, nx') ->
  nx <= nx' /\ (forall k, k ∈ l -> k ∈ dkeys mp) /\
  (forall k, k ∈ dkeys mp -> k ∈ dkeys mp0 \/ k ∈ l) /\
  (forall k, k ∈ dkeys mp0 -> k ∈ dkeys mp) /\
  (forall v, v ∈ dvals mp -> v ∈ dvals mp0 \/ (nx <= v /\ v < nx')).
Proof.
  revert nx mp0. induction l as [|x l IH]; simpl; intros nx mp0 Hc.
  - injection Hc as <- <-. split; [lia|]. split; [intros k Hk; by apply not_elem_of_nil in Hk|].
    split; [by left|]. split; [done|]. by left.
  - destruct (IH _ _ Hc) as (Hle & Hin & Hkeys & Hmono & Hvals).
    split; [lia|]. split.
    { intros k Hk. apply elem_of_cons in Hk as [->|Hk]; [|by apply Hin].
      apply Hmono, dkeys_dset. by left. }
    split.
    { intros k Hk. apply Hkeys in Hk as [Hk|Hk]; [|right; by right].
      apply dkeys_dset in Hk as [->|Hk]; [right; by left|by left]. }
    split.
    { intros k Hk. apply Hmono, dkeys_dset. by right. }
    intros v Hv. apply Hvals in Hv as [Hv|Hv]; [|right; lia].
    apply dvals_dset_in in Hv as [->|Hv]; [right; lia|by left].
Qed.

Lemma copy_objs_spec (src : heap) mp ps (h h' : heap) :
  copy_objs src h mp ps = Ok h' ->
  forall y, h' !! y = h !! y \/
    exists x o0, (x, y) ∈ ps /\ src !! x = Some o0 /\ h' !! y = Some (remap_obj mp o0).
Proof.
  revert h. induction ps as [|[x c] ps IH]; simpl; intros h Hc y.
  - injection Hc as <-. by left.
  - destruct (src !! x) as [o|] eqn:Eo; [|discriminate].
    destruct (IH _ Hc y) as [Hy|(x' & o' & Hin & Ho' & Hy)].
    + destruct (decide (c = y)) as [<-|Hne].
      * right. exists x, o. rewrite lookup_insert_eq in Hy. split; [by left|done].
      * left. rewrite Hy. by rewrite lookup_insert_ne.
    + right. exists x', o'. split; [by right|done].
Qed.

Lemma remap_refs mp o : obj_refs (remap_obj mp o) = map (remap mp) (obj_refs o).
Proof.
  destruct o as [v|e|f|g]; try done.
  destruct e as [a [v1|] [v2|]]; reflexivity.
Qed.

Lemma copy_frame (h : heap) nx gid g h' nx' mp cg :
  (forall p, nx <= p -> h !! p = None) ->
  h !! gid = Some (OGraph g) ->
  (forall x r, x ∈ graph_elems g -> r ∈ ve_refs h x -> r ∈ graph_elems g) ->
  non_recursive_copy h nx gid = Ok (h', nx', mp, cg) ->
  (forall p, p < nx -> h' !! p = h !! p) /\ (forall p, nx' <= p -> h' !! p = None) /\
  nx <= cg /\ (forall v, v ∈ dvals (m_items mp) -> nx <= v) /\
  (forall y r, nx <= y -> r ∈ ve_refs h' y -> nx <= r).
Proof.
  intros Hfree Hg Hin Hc. unfold non_recursive_copy in Hc.
  assert (Eg : get_graph h gid = Ok g) by (unfold get_graph; by rewrite Hg).
  rewrite Eg in Hc. cbn [res_bind] in Hc.
  destruct (copy_addrs (graph_elems g) nx []) as [mp0 nx1] eqn:Ea.
  bind_inv Hc h1 Eh1. injection Hc as <- <- <- <-.
  destruct (copy_addrs_spec _ _ _ _ _ Ea) as (Hle & Hkin & Hkeys & _ & Hvals).
  assert (Hv : forall v, v ∈ dvals mp0 -> nx <= v /\ v < nx1).
  { intros v Hv. apply Hvals in Hv as [Hv|Hv]; [|done]. by apply not_elem_of_nil in Hv. }
  pose proof (copy_objs_spec _ _ _ _ _ Eh1) as Hcp.
  assert (Hkey : forall x y, (x, y) ∈ mp0 -> nx <= y /\ y < nx1 /\ x ∈ graph_elems g).
  { intros x y Hxy.
    assert (y ∈ dvals mp0) as Hy.
    { unfold dvals. apply list_elem_of_In. apply list_elem_of_In in Hxy.
      exact (in_map snd _ _ Hxy). }
    assert (x ∈ dkeys mp0) as Hx.
    { unfold dkeys. apply list_elem_of_In. apply list_elem_of_In in Hxy.
      exact (in_map fst _ _ Hxy). }
    destruct (Hv y Hy) as [Hy1 Hy2]. split; [done|]. split; [done|].
    apply Hkeys in Hx as [Hx|Hx]; [by apply not_elem_of_nil in Hx|done]. }
  split; [|split; [|split; [lia|split]]].
  - intros p Hp. rewrite lookup_insert_ne by lia.
    destruct (Hcp p) as [Hp'|(x & o0 & Hxp & _ & _)]; [done|].
    apply Hkey in Hxp. lia.
  - intros p Hp. rewrite lookup_insert_ne by lia.
    destruct (Hcp p) as [Hp'|(x & o0 & Hxp & _ & _)].
    + rewrite Hp'. apply Hfree. lia.
    + apply Hkey in Hxp. lia.
  - simpl. intros v Hv'. apply Hv in Hv'. lia.
  - intros y r Hy Hr. unfold ve_refs in Hr.
    destruct (decide (y = nx1)) as [->|Hne].
    { rewrite lookup_insert_eq in Hr. by apply not_elem_of_nil in Hr. }
    rewrite lookup_insert_ne in Hr by done.
    destruct (Hcp y) as [Hy'|(x & o0 & Hxy & Ho0 & Hy')].
    + rewrite Hy', (Hfree y Hy) in Hr. by apply not_elem_of_nil in Hr.
    + rewrite Hy', remap_refs in Hr. apply list_elem_of_In, in_map_iff in Hr as (r0 & <- & Hr0). apply list_elem_of_In in Hr0.
      destruct (Hkey _ _ Hxy) as (_ & _ & Hx).
      assert (Hr0g : r0 ∈ graph_elems g).
      { apply (Hin x); [done|]. by rewrite (ve_refs_Some _ _ _ Ho0). }
      apply Hkin in Hr0g. unfold remap.
      destruct (dget r0 mp0) as [r'|] eqn:Er.
      * apply dget_Some_vals in Er. apply Hv in Er. lia.
      * apply dget_None in Er. contradiction.
Qed.

Lemma ve_refs_nbrs (h : heap) x r : r ∈ ve_refs h x -> r ∈ nbrs h x.
Proof.
  unfold ve_refs, nbrs. destruct (h !! x) as [[v0|e0|f0|g0]|]; simpl; try done.
  intros Hr. by apply not_elem_of_nil in Hr.
Qed.

Lemma closed_at_spec (h : heap) gid :
  closed_at h gid = true -> exists g, h !! gid = Some (OGraph g) /\
    (forall x, x ∈ graph_elems g -> is_Some (h !! x)) /\
    (forall x r, x ∈ graph_elems g -> r ∈ ve_refs h x -> r ∈ graph_elems g).
Proof.
  unfold closed_at. destruct (h !! gid) as [[v0|e0|f0|g]|] eqn:Eg; try discriminate.
  intros Hc. apply andb_prop in Hc as [Hc Hf]. exists g. split; [done|].
  apply graph_closed_spec in Hc as [Hv He].
  assert (Hfa : forall x, x ∈ g_faces g -> exists fc, h !! x = Some (OFace fc)).
  { intros x Hx. apply forallb_forall with (x := x) in Hf; [|by apply list_elem_of_In].
    destruct (h !! x) as [[v1|e1|f1|g1]|]; try discriminate. eauto. }
  unfold graph_elems. split.
  - intros x Hx. apply elem_of_app in Hx as [Hx|Hx]; [|apply elem_of_app in Hx as [Hx|Hx]].
    + destruct (Hv x Hx) as [Hx' _]. unfold is_vertex in Hx'.
      destruct (h !! x); [done|discriminate].
    + destruct (He x Hx) as [Hx' _]. unfold is_edge in Hx'.
      destruct (h !! x); [done|discriminate].
    + destruct (Hfa x Hx) as [fc ->]. done.
  - intros x r Hx Hr. apply elem_of_app in Hx as [Hx|Hx]; [|apply elem_of_app in Hx as [Hx|Hx]].
    + apply elem_of_app. right. apply elem_of_app. left.
      apply (proj2 (Hv x Hx)). by apply ve_refs_nbrs.
    + apply elem_of_app. left. apply (proj2 (He x Hx)). by apply ve_refs_nbrs.
    + destruct (Hfa x Hx) as [fc Hfc]. rewrite (ve_refs_Some _ _ _ Hfc) in Hr.
      by apply not_elem_of_nil in Hr.
Qed.

Lemma hierarchy_init_frame (h : heap) host m o h0 hy rg :
  closed_at h host = true -> closed_at h (ao_daughter o) = true ->
  hierarchy_init h host m o = Ok (h0, hy, rg) ->
  frame_inv h (heap_top h) h0 /\ hy_fresh (heap_top h) hy /\ heap_top h <= rg.
Proof.
  intros Hch Hcd Hl. unfold hierarchy_init in Hl.
  bind_inv Hl r1 E1. destruct r1 as [[[h1 nx1] h2r] rg1].
  bind_inv Hl r2 E2. destruct r2 as [[[h2 nx2] d2c] cg2]. injection Hl as <- <- <-.
  destruct (closed_at_spec _ _ Hch) as (gH & EgH & _ & HinH).
  destruct (copy_frame h (heap_top h) host gH h1 nx1 h2r rg1 (heap_top_None h) EgH HinH E1)
    as (Hlo1 & Hhi1 & Hb1 & Hv1 & Hr1).
  destruct (closed_at_spec _ _ Hcd) as (gD & EgD & HexD & HinD).
  assert (Hd : ao_daughter o < heap_top h) by exact (heap_top_gt _ _ _ EgD).
  assert (Hagree : forall x, x ∈ graph_elems gD -> h1 !! x = h !! x).
  { intros x Hx. destruct (HexD x Hx) as [ox Hox]. apply Hlo1. exact (heap_top_gt _ _ _ Hox). }
  assert (EgD1 : h1 !! ao_daughter o = Some (OGraph gD)) by (rewrite Hlo1 by done; done).
  assert (HinD1 : forall x r, x ∈ graph_elems gD -> r ∈ ve_refs h1 x -> r ∈ graph_elems gD).
  { intros x r Hx Hr. unfold ve_refs in Hr. rewrite Hagree in Hr by done. by apply (HinD x). }
  destruct (copy_frame h1 nx1 _ gD h2 nx2 d2c cg2 Hhi1 EgD1 HinD1 E2)
    as (Hlo2 & _ & Hb2 & Hv2 & Hr2).
  assert (Hnx : rg1 < nx1).
  { destruct (le_lt_dec nx1 rg1) as [Hge|]; [|done]. exfalso.
    unfold non_recursive_copy in E1. bind_inv E1 g1 Eg1.
    destruct (copy_addrs (graph_elems g1) (heap_top h) []) as [mp1 n1].
    bind_inv E1 h1' Eh1'. injection E1 as <- <- <- <-. lia. }
  split; [split|split; [split|]].
  - intros p Hp. rewrite Hlo2 by lia. by apply Hlo1.
  - intros y r Hy Hr. destruct (decide (y < nx1)) as [Hlt|Hge].
    + unfold ve_refs in Hr. rewrite Hlo2 in Hr by done. by apply (Hr1 y).
    + apply (Hr2 y) in Hr; lia.
  - simpl. intros v Hv. by apply Hv1.
  - simpl. intros v Hv. apply Hv2 in Hv. lia.
  - done.
Qed.

(** C3 (host immutability): when [Production.apply(H, m)] succeeds on a
    host graph [H] and with a daughter graph, both closed (their vertices
    and edges refer only to each other), the result graph is a fresh object (nothing was stored
    at its address before), and every object of the heap before the call,
    among them [H] itself and each of its vertices, edges and faces with
    their attributes and references, is unchanged after it. *)
Theorem C3_apply_frame(Env : Type) app_env new_position attr_value pos_value int_of_string ord
    (h : heap) (host : nat) (m : mapping) (o : app_option) (rg : nat) (h' : heap) :
  closed_at h host = true -> closed_at h (ao_daughter o) = true ->
  production_apply Env app_env new_position attr_value pos_value int_of_string ord h host m o
    = Ok (rg, h') ->
  h !! rg = None /\ (forall p x, h !! p = Some x -> h' !! p = Some x).
Proof.
  intros Hch Hcd Hl. unfold production_apply in Hl.
  bind_inv Hl r Er. destruct r as [[h0 hy] rg0].
  destruct (hierarchy_init_frame _ _ _ _ _ _ _ Hch Hcd Er) as (Hf0 & Hy & Hrg).
  cbv beta iota zeta in Hl.
  bind_inv Hl tal Eta. bind_inv Hl tcl Etc. bind_inv Hl trl Etr.
  bind_inv Hl ca1 Eca1. bind_inv Hl ca2 Eca2.
  bind_inv Hl env Eenv. bind_inv Hl gmax Eg.
  bind_inv Hl h1 E1. bind_inv Hl h2 E2. bind_inv Hl h3 E3. bind_inv Hl h4 E4. bind_inv Hl h5 E5.
  bind_inv Hl g Egr. bind_inv Hl ok Eok. destruct ok; [|discriminate]. injection Hl as <- <-.
  assert (F1 : frame_inv h (heap_top h) h1).
  { refine (for_each_inv (fun _ => True) (frame_inv h (heap_top h)) _ _ _ _ _ _ Hf0 E1);
      [done|]. intros ha x hb Hf _ Hs. exact (conn_step_frame _ _ _ _ _ _ Hy Hf Hs). }
  assert (F2 : frame_inv h (heap_top h) h2).
  { refine (for_each_inv (fresh_opt (heap_top h)) (frame_inv h (heap_top h)) _ _ _ _ _ _ F1 E2).
    - intros x Hx. apply set_iter_in, py_set_in in Hx.
      refine (map_res_fresh _ _ _ _ _ _ Hy _ Etr x Hx). left; split; [done|discriminate].
    - intros ha x hb Hf Hx Hs. exact (remove_step_frame _ _ _ _ _ _ _ _ Hy Hrg Hx Hf Hs). }
  assert (F3 : frame_inv h (heap_top h) h3).
  { refine (for_each_inv (fresh_opt (heap_top h)) (frame_inv h (heap_top h)) _ _ _ _ _ _ F2 E3).
    - intros x Hx. apply set_iter_in, py_set_in in Hx.
      refine (map_res_fresh _ _ _ _ _ _ Hy _ Eta x Hx). right; split; [done|discriminate].
    - intros ha x hb Hf Hx Hs.
      exact (add_step_frame _ _ _ _ _ _ _ _ _ _ _ Hy Hrg Hx Hf Hs). }
  assert (F4 : frame_inv h (heap_top h) h4).
  { refine (for_each_inv (fresh_opt (heap_top h)) (frame_inv h (heap_top h)) _ _ _ _ _ _ F3 E4).
    - intros x Hx. apply set_iter_in, py_set_in in Hx.
      refine (map_res_fresh _ _ _ _ _ _ Hy _ Etc x Hx). left; split; [done|discriminate].
    - intros ha x hb Hf Hx Hs. exact (change_step_frame _ _ _ _ _ _ _ Hy Hx Hf Hs). }
  assert (F5 : frame_inv h (heap_top h) h5).
  { refine (for_each_inv (fun t => fresh_opt (heap_top h) t.1.2) (frame_inv h (heap_top h))
             _ _ _ _ _ _ F4 E5).
    - intros t Ht. apply set_iter_in, py_set_in, elem_of_app in Ht as [Ht|Ht].
      + apply py_set_in in Ht. destruct (map_res_in _ _ _ _ Eca1 Ht) as (x & _ & Hx).
        bind_inv Hx c Ec. injection Hx as <-. simpl.
        refine (hmap_fresh _ _ _ _ _ _ Hy _ Ec). right; split; [done|discriminate].
      + destruct (map_res_in _ _ _ _ Eca2 Ht) as (x & _ & Hx).
        bind_inv Hx c Ec. bind_inv Hx old Eold. injection Hx as <-. simpl.
        refine (hmap_fresh _ _ _ _ _ _ Hy _ Ec). left; split; [done|discriminate].
    - intros ha t hb Hf Ht Hs. exact (calc_step_frame _ _ _ _ _ _ _ _ _ _ Ht Hf Hs). }
  split; [apply heap_top_None; lia|].
  intros p x Hp. destruct F5 as [Hlo _]. rewrite Hlo; [done|]. exact (heap_top_gt _ _ _ Hp).
Qed.

(** A host with one vertex and one edge and a rule whose daughter adds a
    vertex and an edge (Scenario B). *)
Definition c3_gen : attrs := [(".generation"%string, VInt 1)].

Definition c3_heap : heap :=
  list_to_map [(100, OGraph (mkGraph [1] [2] []));
               (1, OVertex (mkVertex c3_gen [2])); (2, OEdge (mkEdge c3_gen (Some 1) None));
               (200, OGraph (mkGraph [11] [12] []));
               (11, OVertex (mkVertex [] [12])); (12, OEdge (mkEdge [] (Some 11) None));
               (300, OGraph (mkGraph [21; 23] [22; 24] []));
               (21, OVertex (mkVertex [] [22; 24])); (22, OEdge (mkEdge [] (Some 21) None));
               (23, OVertex (mkVertex [] [24])); (24, OEdge (mkEdge [] (Some 21) (Some 23)))].

Definition c3_map : mapping := mapping_of [(11, 21); (12, 22)].

Definition c3_option : app_option :=
  mkAppOption 200 300 c3_map
    (make_option c3_heap (mkGraph [11] [12] []) c3_map (mkGraph [21; 23] [22; 24] [])).

Definition c3_match : mapping := mapping_of [(11, 1); (12, 2)].

Definition c3_run : res (nat * heap) :=
  production_apply unit (fun _ _ _ => Ok tt) (fun _ _ _ _ => Ok (VInt 0, VInt 0))
    (fun _ _ _ _ _ _ _ _ => Ok VNone) (fun _ _ _ _ _ _ _ => Ok (VInt 0, VInt 0))
    (fun _ => Err ValueError) (fun _ l => l) c3_heap 100 c3_match c3_option.

Definition c3_result : heap := match c3_run with Ok (_, h') => h' | Err _ => ∅ end.

(** The same host graph with its vertex listed twice. *)
Definition c3_heap_rep : heap := <[100 := OGraph (mkGraph [1; 1] [2] [])]> c3_heap.

Definition c3_run_rep : res (nat * heap) :=
  production_apply unit (fun _ _ _ => Ok tt) (fun _ _ _ _ => Ok (VInt 0, VInt 0))
    (fun _ _ _ _ _ _ _ _ => Ok VNone) (fun _ _ _ _ _ _ _ => Ok (VInt 0, VInt 0))
    (fun _ => Err ValueError) (fun _ l => l) c3_heap_rep 100 c3_match c3_option.

Definition c3_result_rep : heap := match c3_run_rep with Ok (_, h') => h' | Err _ => ∅ end.

Lemma C3_apply_frame_witness :
  closed_at c3_heap 100 = true /\ closed_at c3_heap (ao_daughter c3_option) = true /\
  (c3_heap !! 303 = None /\ (forall p x, c3_heap !! p = Some x -> c3_result !! p = Some x)) /\
  closed_at c3_heap_rep 100 = true /\ closed_at c3_heap_rep (ao_daughter c3_option) = true /\
  (c3_heap_rep !! 304 = None /\
   (forall p x, c3_heap_rep !! p = Some x -> c3_result_rep !! p = Some x)).
Proof.
  split; [vm_compute; reflexivity|]. split; [vm_compute; reflexivity|].
  split; [|split; [vm_compute; reflexivity|split; [vm_compute; reflexivity|]]].
  - apply (C3_apply_frame unit (fun _ _ _ => Ok tt) (fun _ _ _ _ => Ok (VInt 0, VInt 0))
      (fun _ _ _ _ _ _ _ _ => Ok VNone) (fun _ _ _ _ _ _ _ => Ok (VInt 0, VInt 0))
      (fun _ => Err ValueError) (fun _ l => l) c3_heap 100 c3_match c3_option 303 c3_result);
      vm_compute; reflexivity.
  - apply (C3_apply_frame unit (fun _ _ _ => Ok tt) (fun _ _ _ _ => Ok (VInt 0, VInt 0))
      (fun _ _ _ _ _ _ _ _ => Ok VNone) (fun _ _ _ _ _ _ _ => Ok (VInt 0, VInt 0))
      (fun _ => Err ValueError) (fun _ l => l) c3_heap_rep 100 c3_match c3_option 304
      c3_result_rep); vm_compute; reflexivity.
Defined.

(** ** Further properties of the code *)

(** [Edge.get_other_vertex] is an involution on the endpoints of an
    edge with two distinct endpoints: if it maps [v] to [w], it maps [w]
    back to [v]. *)
Lemma get_other_vertex_twice (e : edge) v w :
  e_v1 e <> e_v2 e -> get_other_vertex e v = Ok w -> get_other_vertex e w = Ok v.
Proof.
  intros Hne. unfold get_other_vertex.
  destruct (decide (v = e_v1 e)) as [->|Hv1]; [intros [= <-]|].
  - rewrite decide_False by congruence. by rewrite decide_True.
  - destruct (decide (v = e_v2 e)) as [->|Hv2]; [intros [= <-]|discriminate].
    by rewrite decide_True.
Qed.

Lemma set_add_elem x (s : list nat) r : r ∈ set_add x s <-> r = x \/ r ∈ s.
Proof.
  split; [apply set_add_in|]. unfold set_add. destruct (decide (x ∈ s)).
  - intros [->|Hr]; done.
  - intros [->|Hr]; apply elem_of_app; [right; by left|by left].
Qed.

Lemma set_add_NoDup x (s : list nat) : NoDup s -> NoDup (set_add x s).
Proof.
  unfold set_add. destruct (decide (x ∈ s)); [done|]. intros Hs.
  apply NoDup_app. split; [done|]. split; [|apply NoDup_singleton].
  intros y Hy Hy'. apply list_elem_of_singleton in Hy'. subst. contradiction.
Qed.

Lemma graph_neighbours_inner g cs acc x :
  x ∈ fold_left (fun acc c => if graph_contains g c then acc else set_add c acc) cs acc <->
  x ∈ acc \/ (graph_contains g x = false /\ x ∈ cs).
Proof.
  revert acc. induction cs as [|c cs IH]; intros acc; simpl.
  - split; [by left|]. intros [Hx|[_ Hx]]; [done|by apply not_elem_of_nil in Hx].
  - rewrite IH. destruct (graph_contains g c) eqn:Ec.
    + rewrite elem_of_cons. split.
      * intros [Hx|Hx]; [by left|right; split; [apply Hx|right; apply Hx]].
      * intros [Hx|[Hg [->|Hx]]]; [by left|congruence|right; done].
    + rewrite set_add_elem, elem_of_cons. split.
      * intros [[->|Hx]|Hx]; [right; split; [done|by left]|by left|].
        right; split; [apply Hx|right; apply Hx].
      * intros [Hx|[Hg [->|Hx]]]; [left; by right|left; by left|right; done].
Qed.

Lemma graph_neighbours_outer (h : heap) g els acc x :
  x ∈ fold_left (fun acc el =>
    fold_left (fun acc c => if graph_contains g c then acc else set_add c acc) (nbrs h el) acc)
    els acc <->
  x ∈ acc \/ (graph_contains g x = false /\ exists y, y ∈ els /\ x ∈ nbrs h y).
Proof.
  revert acc. induction els as [|el els IH]; intros acc; simpl.
  - split; [by left|]. intros [Hx|[_ (y & Hy & _)]]; [done|by apply not_elem_of_nil in Hy].
  - rewrite IH, graph_neighbours_inner. split.
    + intros [[Hx|[Hg Hx]]|[Hg (y & Hy & Hx)]]; [by left| |].
      * right. split; [done|]. exists el. split; [by left|done].
      * right. split; [done|]. exists y. split; [by right|done].
    + intros [Hx|[Hg (y & Hy & Hx)]]; [left; by left|].
      apply elem_of_cons in Hy as [->|Hy]; [left; right; split; done|right; split; [done|eauto]].
Qed.

Lemma graph_neighbours_NoDup_gen (h : heap) g els acc :
  NoDup acc -> NoDup (fold_left (fun acc el =>
    fold_left (fun acc c => if graph_contains g c then acc else set_add c acc) (nbrs h el) acc)
    els acc).
Proof.
  revert acc. induction els as [|el els IH]; intros acc Hacc; simpl; [done|].
  apply IH. generalize (nbrs h el). intros cs. revert acc Hacc.
  induction cs as [|c cs IHc]; intros acc Hacc; simpl; [done|].
  apply IHc. destruct (graph_contains g c); [done|]. by apply set_add_NoDup.
Qed.

(** [Graph.neighbours()] holds no repetition, and holds exactly the
    objects outside the graph that some element of the graph lists among
    its neighbours. *)
Theorem graph_neighbours_spec (h : heap) (g : graph) x :
  NoDup (graph_neighbours h g) /\
  (x ∈ graph_neighbours h g <->
   graph_contains g x = false /\ exists y, y ∈ graph_elems g /\ x ∈ nbrs h y).
Proof.
  split; [apply graph_neighbours_NoDup_gen, NoDup_nil_2|].
  unfold graph_neighbours. rewrite graph_neighbours_outer. split.
  - intros [Hx|Hx]; [by apply not_elem_of_nil in Hx|done].
  - by right.
Qed.

Lemma max_generation_elem_gen ios (h : heap) x l acc m :
  max_generation ios h (x :: l) acc = Ok m ->
  exists z, elem_gen ios h x = Ok z /\
    max_generation ios h l (if (acc <? z)%Z then z else acc) = Ok m.
Proof.
  cbn [max_generation]. intros Hm.
  bind_inv Hm a Ea. bind_inv Hm g Eg. bind_inv Hm z Ez. exists z. split; [|done].
  unfold elem_gen. rewrite Ea. cbn [res_bind]. rewrite Eg. cbn [res_bind]. done.
Qed.

(** [get_max_generation] starting from [acc]: on success the result is at
    least [acc] and at least the generation of every listed element, and
    it is [acc] or the generation of one of them. *)
Lemma max_generation_bounds ios (h : heap) l acc m :
  max_generation ios h l acc = Ok m ->
  (acc <= m)%Z /\ (forall x z, x ∈ l -> elem_gen ios h x = Ok z -> (z <= m)%Z) /\
  (m = acc \/ exists x, x ∈ l /\ elem_gen ios h x = Ok m).
Proof.
  revert acc. induction l as [|x l IH]; intros acc Hm.
  - cbn in Hm. injection Hm as <-. split; [lia|]. split; [|by left].
    intros x z Hx. by apply not_elem_of_nil in Hx.
  - destruct (max_generation_elem_gen _ _ _ _ _ _ Hm) as (z & Ez & Hm').
    destruct (IH _ Hm') as (Hle & Hall & Hwho).
    split; [destruct (Z.ltb_spec acc z); lia|]. split.
    + intros y w Hy Hw. apply elem_of_cons in Hy as [->|Hy].
      * rewrite Ez in Hw. injection Hw as <-. destruct (Z.ltb_spec acc z); lia.
      * by apply (Hall y).
    + destruct Hwho as [Hm0|(y & Hy & Hw)].
      * destruct (Z.ltb_spec acc z).
        -- right. exists x. split; [by left|]. by rewrite Hm0.
        -- by left.
      * right. exists y. split; [by right|done].
Qed.

(** The number of elements of [l] of generation [z]. *)
Definition gen_count ios (h : heap) (l : list nat) (z : Z) : nat :=
  length (List.filter (fun x => match elem_gen ios h x with Ok z' => bool_decide (z' = z) | Err _ => false end) l).

Lemma gen_counts_spec ios (h : heap) l acc d :
  gen_counts ios h l acc = Ok d ->
  (NoDup (dkeys acc) -> NoDup (dkeys d)) /\
  forall z, dget z d =
    match dget z acc with
    | Some c => Some (c + Z.of_nat (gen_count ios h l z))%Z
    | None => if gen_count ios h l z =? 0 then None else Some (Z.of_nat (gen_count ios h l z))
    end.
Proof.
  revert acc. induction l as [|x l IH]; intros acc Hd; cbn [gen_counts] in Hd.
  - injection Hd as <-. split; [done|]. intros z. unfold gen_count. simpl.
    destruct (dget z acc); [f_equal; lia|done].
  - bind_inv Hd zx Ezx. destruct (IH _ Hd) as [Hnd Hz]. split.
    { intros Hacc. apply Hnd. by apply NoDup_dkeys_dset. }
    intros z. rewrite Hz, dget_dset. unfold gen_count. cbn [List.filter]. rewrite Ezx.
    destruct (decide (z = zx)) as [->|Hne].
    + rewrite bool_decide_true by done. cbn [length].
      destruct (dget zx acc); simpl; f_equal; lia.
    + rewrite bool_decide_false by congruence. done.
Qed.

(** [get_generations] on success maps each generation to the number of
    listed elements of that generation, holds no key twice and no
    generation with no element. *)
Theorem get_generations_spec ios (h : heap) l d :
  get_generations ios h l = Ok d ->
  NoDup (dkeys d) /\
  forall z, dget z d = if gen_count ios h l z =? 0 then None else Some (Z.of_nat (gen_count ios h l z)).
Proof.
  intros Hd. destruct (gen_counts_spec _ _ _ _ _ Hd) as [Hnd Hz].
  split; [apply Hnd, NoDup_nil_2|]. intros z. rewrite Hz. done.
Qed.

(** ** [Generations.__eq__] *)

Lemma dkeys_dget_Some {K V} `{EqDecision K} (k : K) (d : list (K * V)) :
  k ∈ dkeys d -> exists v, dget k d = Some v.
Proof.
  intros Hk. destruct (dget k d) as [v|] eqn:E; [eauto|]. apply dget_None in E. contradiction.
Qed.

Lemma NoDup_length_incl_gen {A} (l l' : list A) :
  NoDup l -> length l' <= length l -> (forall x, x ∈ l -> x ∈ l') -> forall x, x ∈ l' -> x ∈ l.
Proof.
  intros Hnd Hlen Hi x Hx. apply list_elem_of_In.
  apply (NoDup_length_incl (l := l) (l' := l')); [by apply NoDup_ListNoDup|done| |].
  - intros y Hy. apply list_elem_of_In, Hi, list_elem_of_In, Hy.
  - by apply list_elem_of_In.
Qed.

(** [Generations.__eq__] on dicts with unique keys is extensional
    equality of the two dicts. *)
Theorem gen_eq_spec (d1 d2 : list (Z * Z)) :
  NoDup (dkeys d1) -> NoDup (dkeys d2) ->
  gen_eq d1 d2 = true <-> forall z, dget z d1 = dget z d2.
Proof.
  intros Hnd1 Hnd2. unfold gen_eq. rewrite andb_true_iff, Nat.eqb_eq, forallb_forall. split.
  - intros [Hlen Hall].
    assert (Hsub : forall k, k ∈ dkeys d1 -> dget k d1 = dget k d2).
    { intros k Hk. specialize (Hall k (proj1 (list_elem_of_In _ _) Hk)).
      destruct (dget k d2) as [n2|]; [|discriminate].
      destruct (dget k d1) as [n1|]; [|discriminate]. apply Z.eqb_eq in Hall. by subst. }
    intros z. destruct (decide (z ∈ dkeys d1)) as [Hz|Hz]; [by apply Hsub|].
    assert (Hz2 : z ∉ dkeys d2).
    { intros Hz2. apply Hz. refine (NoDup_length_incl_gen (dkeys d1) (dkeys d2) Hnd1 _ _ z Hz2).
      - unfold dkeys. rewrite !length_map. lia.
      - intros k Hk. destruct (dkeys_dget_Some _ _ Hk) as [v Hv]. rewrite Hsub in Hv by done.
        by apply dget_Some_keys in Hv. }
    apply dget_None in Hz, Hz2. congruence.
  - intros Heq.
    assert (Hk : forall k, k ∈ dkeys d1 <-> k ∈ dkeys d2).
    { intros k. split; intros Hk; destruct (dkeys_dget_Some _ _ Hk) as [v Hv].
      - rewrite Heq in Hv. by apply dget_Some_keys in Hv.
      - rewrite <- Heq in Hv. by apply dget_Some_keys in Hv. }
    split.
    + assert (length (dkeys d1) = length (dkeys d2)) as Hl.
      { apply Permutation_length. apply NoDup_Permutation; [done|done|]. apply Hk. }
      unfold dkeys in Hl. by rewrite !length_map in Hl.
    + intros k Hk'. apply list_elem_of_In in Hk'.
      destruct (dkeys_dget_Some _ _ Hk') as [v Hv]. rewrite <- Heq, Hv. apply Z.eqb_refl.
Qed.

(** ** [Generations.__lt__] *)

Lemma gen_tie_self (d : list (Z * Z)) ks :
  (forall k, k ∈ ks -> k ∈ dkeys d) -> gen_tie d ks d = false.
Proof.
  induction ks as [|k ks IH]; intros Hks; [done|]. cbn [gen_tie].
  destruct (dkeys_dget_Some k d (Hks k ltac:(by left))) as [v Hv]. rewrite Hv. simpl.
  rewrite Z.eqb_refl. apply IH. intros k' Hk'. apply Hks. by right.
Qed.




(** ** [select_option] *)

Lemma total_weight_acc {A} (weight : A -> Z) os a :
  fold_left (fun t o => (t + weight o)%Z) os a = (a + total_weight weight os)%Z.
Proof.
  unfold total_weight. revert a. induction os as [|o os IH]; intros a; simpl; [lia|].
  rewrite (IH (a + weight o)%Z), (IH (0 + weight o)%Z). lia.
Qed.

Lemma total_weight_cons {A} (weight : A -> Z) o os :
  total_weight weight (o :: os) = (weight o + total_weight weight os)%Z.
Proof. unfold total_weight at 1. simpl. rewrite total_weight_acc. lia. Qed.

Lemma total_weight_nonneg {A} (weight : A -> Z) os :
  (forall o, o ∈ os -> 0 <= weight o)%Z -> (0 <= total_weight weight os)%Z.
Proof.
  induction os as [|o os IH]; intros Hw; [done|]. rewrite total_weight_cons.
  assert (0 <= weight o)%Z by (apply Hw; by left).
  assert (0 <= total_weight weight os)%Z by (apply IH; intros o' Ho'; apply Hw; by right). lia.
Qed.

Lemma select_go_some {A} (weight : A -> Z) os r :
  (forall o, o ∈ os -> 0 <= weight o)%Z -> (0 <= r < total_weight weight os)%Z ->
  exists o, select_go weight r os = Ok o.
Proof.
  revert r. induction os as [|o os IH]; intros r Hw Hr; [unfold total_weight in Hr; simpl in Hr; lia|].
  rewrite total_weight_cons in Hr. simpl. destruct (Z.ltb_spec r (weight o)); [by exists o|].
  apply IH; [intros o' Ho'; apply Hw; by right|lia].
Qed.

Lemma select_go_in {A} (weight : A -> Z) os r o :
  (0 <= r)%Z -> select_go weight r os = Ok o -> o ∈ os /\ (0 < weight o)%Z.
Proof.
  revert r. induction os as [|p os IH]; intros r Hr Hs; [discriminate|]. simpl in Hs.
  destruct (Z.ltb_spec r (weight p)).
  - injection Hs as <-. split; [by left|lia].
  - destruct (IH (r - weight p)%Z ltac:(lia) Hs). split; [by right|done].
Qed.

(** [Production.select_option] with non-negative weights raises
    [ValueError] exactly when the total weight is zero; otherwise it
    returns one of the options, and one of positive weight. *)
Theorem select_option_spec {A Rng} (randbelow : Rng -> nat -> nat * Rng) (weight : A -> Z)
    (os : list A) (r : Rng) :
  (forall r n, 0 < n -> (randbelow r n).1 < n) -> (forall o, o ∈ os -> 0 <= weight o)%Z ->
  (select_option randbelow weight os r = Err ValueError <-> total_weight weight os = 0%Z) /\
  (forall o r', select_option randbelow weight os r = Ok (o, r') -> o ∈ os /\ (0 < weight o)%Z).
Proof.
  intros Hrb Hw. pose proof (total_weight_nonneg _ _ Hw) as Hnn. unfold select_option.
  destruct (Z.leb_spec (total_weight weight os) 0) as [Hle|Hgt].
  { split; [split; [lia|done]|discriminate]. }
  assert (Htn : Z.of_nat (Z.to_nat (total_weight weight os)) = total_weight weight os)
    by (apply Z2Nat.id; lia).
  destruct (randbelow r (Z.to_nat (total_weight weight os))) as [k r'] eqn:Ek.
  assert (Hk : k < Z.to_nat (total_weight weight os)).
  { pose proof (Hrb r (Z.to_nat (total_weight weight os)) ltac:(lia)) as H. by rewrite Ek in H. }
  destruct (select_go_some weight os (Z.of_nat k) Hw ltac:(lia)) as [o Ho].
  rewrite Ho. cbn [res_bind]. split; [split; [discriminate|lia]|].
  intros o' r'' [= <- <-]. eapply select_go_in; [|exact Ho]. lia.
Qed.

(** [rand_num = k] selects [o]. *)
Definition select_hits {A} `{EqDecision A} (weight : A -> Z) (os : list A) (o : A) (k : nat) : bool :=
  match select_go weight (Z.of_nat k) os with Ok o' => bool_decide (o' = o) | Err _ => false end.

Lemma seq_add_map a b : seq a b = map (Nat.add a) (seq 0 b).
Proof.
  induction a as [|a IH]; simpl.
  - rewrite <- (map_id (seq 0 b)) at 1. apply map_ext. done.
  - rewrite <- seq_shift, IH, map_map. done.
Qed.

Lemma filter_map_length {A B} (f : B -> bool) (g : A -> B) l :
  length (List.filter f (map g l)) = length (List.filter (fun x => f (g x)) l).
Proof. induction l as [|x l IH]; simpl; [done|]. destruct (f (g x)); simpl; lia. Qed.

Lemma filter_all_length {A} (f : A -> bool) l :
  (forall x, In x l -> f x = true) -> length (List.filter f l) = length l.
Proof.
  induction l as [|x l IH]; intros Hf; simpl; [done|].
  rewrite (Hf x (or_introl eq_refl)). simpl. f_equal. apply IH. intros y Hy. apply Hf. by right.
Qed.

Lemma filter_none_length {A} (f : A -> bool) l :
  (forall x, In x l -> f x = false) -> length (List.filter f l) = 0.
Proof.
  induction l as [|x l IH]; intros Hf; simpl; [done|].
  rewrite (Hf x (or_introl eq_refl)). apply IH. intros y Hy. apply Hf. by right.
Qed.

(** The draw of [select_option] is exactly weighted: among the
    [total_weight] possible values of [rand_num], exactly [weight o] of
    them select the option [o] (distinct options, non-negative
    weights). *)
Theorem select_go_weighted {A} `{EqDecision A} (weight : A -> Z) (os : list A) (o : A) :
  (forall o', o' ∈ os -> 0 <= weight o')%Z -> NoDup os -> o ∈ os ->
  length (List.filter (select_hits weight os o) (seq 0 (Z.to_nat (total_weight weight os))))
    = Z.to_nat (weight o).
Proof.
  induction os as [|p ps IH]; intros Hw Hnd Ho; [by apply not_elem_of_nil in Ho|].
  apply NoDup_cons in Hnd as [Hp Hnd].
  assert (Hwp : (0 <= weight p)%Z) by (apply Hw; by left).
  assert (Hws : forall o', o' ∈ ps -> (0 <= weight o')%Z) by (intros o' Ho'; apply Hw; by right).
  pose proof (total_weight_nonneg _ _ Hws) as Hnn.
  rewrite total_weight_cons, Z2Nat.inj_add by done.
  rewrite seq_app, List.filter_app, length_app.
  simpl Nat.add. rewrite (seq_add_map (Z.to_nat (weight p))), filter_map_length.
  assert (Hfirst : forall k, In k (seq 0 (Z.to_nat (weight p))) ->
            select_hits weight (p :: ps) o k = bool_decide (p = o)).
  { intros k Hk. apply in_seq in Hk. unfold select_hits. simpl.
    destruct (Z.ltb_spec (Z.of_nat k) (weight p)); [done|lia]. }
  assert (Hsecond : forall k, select_hits weight (p :: ps) o (Z.to_nat (weight p) + k)
                              = select_hits weight ps o k).
  { intros k. unfold select_hits. simpl.
    destruct (Z.ltb_spec (Z.of_nat (Z.to_nat (weight p) + k)) (weight p)); [lia|].
    replace (Z.of_nat (Z.to_nat (weight p) + k) - weight p)%Z with (Z.of_nat k) by lia. done. }
  rewrite (List.filter_ext (fun x => select_hits weight (p :: ps) o (Z.to_nat (weight p) + x)) (select_hits weight ps o) Hsecond).
  apply elem_of_cons in Ho as [->|Ho].
  - rewrite filter_all_length, length_seq.
    2: { intros k Hk. rewrite Hfirst by done. by apply bool_decide_eq_true. }
    rewrite filter_none_length; [lia|]. intros k _. unfold select_hits.
    destruct (select_go weight (Z.of_nat k) ps) as [o'|] eqn:Es; [|done].
    apply bool_decide_eq_false. intros ->. apply Hp.
    eapply select_go_in; [|exact Es]. lia.
  - rewrite filter_none_length.
    2: { intros k Hk. rewrite Hfirst by done. apply bool_decide_eq_false. intros ->. done. }
    simpl. by apply IH.
Qed.

(** ** [randomly] *)

Lemma insert_cons_perm {A} (l : list A) j b c :
  l !! j = Some b -> b :: <[j := c]> l ≡ₚ c :: l.
Proof.
  revert j. induction l as [|d l IH]; intros j Hj; [done|].
  destruct j as [|j]; simpl in *.
  - injection Hj as ->. apply perm_swap.
  - rewrite perm_swap. rewrite (IH j Hj). apply perm_swap.
Qed.

Lemma swap_perm {A} (x : list A) i j : swap x i j ≡ₚ x.
Proof.
  unfold swap. destruct (x !! i) as [a|] eqn:Ei; [|done].
  destruct (x !! j) as [b|] eqn:Ej; [|done].
  revert i j Ei Ej. induction x as [|c x IH]; intros i j Ei Ej; [done|].
  destruct i as [|i], j as [|j]; simpl in *.
  - injection Ei as ->. injection Ej as ->. done.
  - injection Ei as ->. by apply insert_cons_perm.
  - injection Ej as ->. by apply insert_cons_perm.
  - apply perm_skip. by apply IH.
Qed.

Lemma shuffle_go_perm {Prod Rng} (randbelow : Rng -> nat -> nat * Rng) r i (x : list Prod) :
  (shuffle_go randbelow r i x).1 ≡ₚ x.
Proof.
  revert r x. induction i as [|i IH]; intros r x; simpl; [done|].
  destruct (randbelow r (S (S i))) as [j r']. rewrite IH. apply swap_perm.
Qed.

(** [randomly(objects)] returns a permutation of its argument, whatever
    the random draws. *)
Theorem randomly_perm {Prod Rng} (randbelow : Rng -> nat -> nat * Rng) (r : Rng) (x : list Prod) :
  (randomly randbelow r x).1 ≡ₚ x.
Proof. unfold randomly. apply shuffle_go_perm. Qed.

(** ** [Grammar.__init__]: [grouped_productions] *)

Lemma group_fold_spec {Prod} (priority : Prod -> Z) ps acc p :
  dget p (fold_left (fun acc q =>
    match dget (priority q) acc with
    | Some l => dset (priority q) (l ++ [q]) acc
    | None => dset (priority q) [q] acc
    end) ps acc) =
  match dget p acc with
  | Some l => Some (l ++ List.filter (fun q => (priority q =? p)%Z) ps)
  | None => match List.filter (fun q => (priority q =? p)%Z) ps with [] => None | l => Some l end
  end.
Proof.
  revert acc. induction ps as [|q ps IH]; intros acc; simpl.
  - destruct (dget p acc); [by rewrite app_nil_r|done].
  - rewrite IH. destruct (Z.eqb_spec (priority q) p) as [<-|Hne].
    + destruct (dget (priority q) acc) as [l|] eqn:E; rewrite dget_dset, decide_True by done.
      * by rewrite <- app_assoc.
      * done.
    + assert (dget p (match dget (priority q) acc with
                      | Some l => dset (priority q) (l ++ [q]) acc
                      | None => dset (priority q) [q] acc end) = dget p acc) as ->.
      { destruct (dget (priority q) acc); rewrite dget_dset, decide_False by congruence; done. }
      done.
Qed.

Lemma group_fold_NoDup {Prod} (priority : Prod -> Z) ps acc :
  NoDup (dkeys acc) -> NoDup (dkeys (fold_left (fun acc q =>
    match dget (priority q) acc with
    | Some l => dset (priority q) (l ++ [q]) acc
    | None => dset (priority q) [q] acc
    end) ps acc)).
Proof.
  revert acc. induction ps as [|q ps IH]; intros acc Hacc; simpl; [done|].
  apply IH. destruct (dget (priority q) acc); by apply NoDup_dkeys_dset.
Qed.

(** [Grammar.__init__]: [grouped_productions] maps each priority to the
    productions of that priority, in their order, holds each priority
    once and no priority without a production. *)
Theorem group_productions_spec {Prod} (priority : Prod -> Z) (ps : list Prod) (p : Z) :
  NoDup (dkeys (group_productions priority ps)) /\
  dget p (group_productions priority ps) =
    match List.filter (fun q => (priority q =? p)%Z) ps with [] => None | l => Some l end.
Proof.
  unfold group_productions. split; [apply group_fold_NoDup, NoDup_nil_2|].
  rewrite group_fold_spec. done.
Qed.

(** ** [UniqueBidict] *)

(** [UniqueBidict.__setitem__] on a present key leaves the old value in
    the inverse: after [m[k] = v2], where [m[k]] was [v1 <> v2],
    [m.inverse[v1]] is still [k]. *)
Theorem mapping_set_stale_inverse (m : mapping) k v1 v2 :
  dget k (m_items m) = Some v1 -> dget v1 (m_inv m) = Some k -> v1 <> v2 ->
  dget k (m_items (mapping_set k v2 m)) = Some v2 /\
  dget v2 (m_inv (mapping_set k v2 m)) = Some k /\
  dget v1 (m_inv (mapping_set k v2 m)) = Some k.
Proof.
  intros Hk Hv Hne. unfold mapping_set. simpl.
  rewrite !dget_dset, decide_True, decide_True, decide_False by done. done.
Qed.

Lemma ddel_app_fresh k v (d : list (nat * nat)) :
  k ∉ dkeys d -> ddel k (d ++ [(k, v)]) = d.
Proof.
  unfold dkeys. induction d as [|[k0 v0] d IH]; intros Hk; simpl.
  - by rewrite decide_True.
  - rewrite decide_False by (intros ->; apply Hk; by left).
    f_equal. apply IH. intros Hk'. apply Hk. by right.
Qed.

(** Setting a fresh key to a fresh value and deleting the key restores
    the [UniqueBidict] and its inverse. *)
Theorem mapping_del_set (m : mapping) k v :
  k ∉ dkeys (m_items m) -> v ∉ dkeys (m_inv m) ->
  mapping_del k (mapping_set k v m) = Ok m.
Proof.
  intros Hk Hv. unfold mapping_del, mapping_set. simpl.
  rewrite dget_dset, decide_True by done. rewrite dget_dset, decide_True by done.
  rewrite !dset_fresh by done. rewrite !ddel_app_fresh by done. by destruct m.
Qed.

Lemma find_eqb_spec (l : list nat) x :
  List.find (fun y => x =? y) l = if bool_decide (x ∈ l) then Some x else None.
Proof.
  induction l as [|y l IH]; simpl; [done|].
  destruct (Nat.eqb_spec x y) as [->|Hne].
  - rewrite bool_decide_eq_true_2; [done|by left].
  - rewrite IH. repeat case_bool_decide; set_solver.
Qed.

(** [Graph.get_by_id(i)] returns the element at [i] when the graph holds
    it, and [None] otherwise; it never raises. *)
Theorem get_by_id_spec (g : graph) (object_id : nat) :
  get_by_id g object_id = if graph_contains g object_id then Some object_id else None.
Proof.
  unfold get_by_id, graph_contains. rewrite !find_eqb_spec.
  destruct (bool_decide (object_id ∈ g_vertices g)), (bool_decide (object_id ∈ g_edges g)),
    (bool_decide (object_id ∈ g_faces g)); done.
Qed.

(** ** [Graph.check_matching] *)

Lemma check_nbrs_true (h : heap) items hv l :
  check_nbrs h items hv l = Ok true <->
  forall n, n ∈ l -> exists img, dget n items = Some img /\ img ∈ nbrs h hv.
Proof.
  induction l as [|n l IH]; simpl.
  - split; [|done]. intros _ n Hn. by apply not_elem_of_nil in Hn.
  - destruct (dget n items) as [img|] eqn:E.
    + destruct (bool_decide (img ∈ nbrs h hv)) eqn:Hb.
      * apply bool_decide_eq_true in Hb. rewrite IH. split.
        -- intros Hl n' [->|Hn']%elem_of_cons; [eauto|auto].
        -- intros Hl n' Hn'. apply Hl. by right.
      * apply bool_decide_eq_false in Hb. split; [discriminate|].
        intros Hl. destruct (Hl n ltac:(left)) as (img' & E' & Hi). congruence.
    + split; [discriminate|]. intros Hl. destruct (Hl n ltac:(left)) as (img' & E' & _). congruence.
Qed.

Lemma check_nbrs_cases (h : heap) items hv l :
  check_nbrs h items hv l = Ok true \/ check_nbrs h items hv l = Ok false \/
  check_nbrs h items hv l = Err KeyError.
Proof.
  induction l as [|n l IH]; simpl; [by left|].
  destruct (dget n items); [|auto]. destruct (bool_decide _); auto.
Qed.

Lemma check_items_true (h : heap) items l :
  check_items h items l = Ok true <->
  forall k v, (k, v) ∈ l -> check_nbrs h items v (nbrs h k) = Ok true.
Proof.
  induction l as [|[k v] l IH]; simpl.
  - split; [|done]. intros _ k v Hk. by apply not_elem_of_nil in Hk.
  - destruct (check_nbrs_cases h items v (nbrs h k)) as [E|[E|E]]; rewrite E; simpl.
    + rewrite IH. split.
      * intros Hl k' v' [[= -> ->]|Hk']%elem_of_cons; auto.
      * intros Hl k' v' Hk'. apply Hl. by right.
    + split; [discriminate|]. intros Hl. rewrite (Hl k v ltac:(left)) in E. discriminate.
    + split; [discriminate|]. intros Hl. rewrite (Hl k v ltac:(left)) in E. discriminate.
Qed.

(** [Graph.check_matching(m)] returns [True] exactly when, for every
    pair [(k, v)] of [m], every neighbour of [k] is mapped by [m] to a
    neighbour of [v]. *)
Theorem check_matching_spec (h : heap) (m : mapping) :
  check_matching h m = Ok true <->
  forall k v, (k, v) ∈ m_items m -> forall n, n ∈ nbrs h k ->
    exists img, dget n (m_items m) = Some img /\ img ∈ nbrs h v.
Proof.
  unfold check_matching. rewrite check_items_true.
  split; intros Hl k v Hk.
  - apply check_nbrs_true. by apply Hl.
  - apply check_nbrs_true. by apply Hl.
Qed.

(** ** [Edge.delete_from] on a self-loop *)

Lemma list_remove_notin x (l : list nat) : NoDup l -> x ∉ list_remove x l.
Proof.
  induction l as [|y l IH]; simpl; intros Hnd; [apply not_elem_of_nil|].
  apply NoDup_cons in Hnd as [Hy Hnd].
  destruct (decide (x = y)) as [->|Hne]; [done|].
  rewrite elem_of_cons. intros [->|Hx]; [done|]. by apply IH.
Qed.

(** [Graph.discard] of a self-loop edge fails: the second endpoint no
    longer lists the edge, so the call raises [TypeError] with the default
    [ignore_errors=None], and [ModelGenIncongruentGraphStateError] when
    [ignore_errors] does not hold the vertex. *)
Theorem edge_discard_self_loop (h : heap) gid g x ed w wv :
  h !! gid = Some (OGraph g) -> x ∈ g_edges g -> h !! x = Some (OEdge ed) ->
  e_v1 ed = Some w -> e_v2 ed = Some w -> h !! w = Some (OVertex wv) ->
  x ∈ v_edges wv -> NoDup (v_edges wv) ->
  graph_discard h gid x None = Err TypeError /\
  (forall I, w ∉ I -> graph_discard h gid x (Some I) = Err IncongruentGraphState).
Proof.
  intros Hg Hx Hed H1 H2 Hw Hxw Hnd.
  assert (Hwg : w <> gid) by (intros ->; congruence).
  assert (Hnot : x ∉ list_remove x (v_edges wv)) by by apply list_remove_notin.
  unfold graph_discard. rewrite Hed. unfold edge_delete_from, get_graph, get_edge, py_remove.
  rewrite Hg, Hed. simpl. rewrite decide_True by done. simpl. rewrite H1, H2. simpl.
  unfold get_vertex. rewrite lookup_insert_ne by done. rewrite Hw. simpl.
  rewrite decide_True by done. simpl. rewrite lookup_insert_eq. simpl.
  rewrite decide_False by done. simpl. split; [done|].
  intros I HI. rewrite bool_decide_eq_false_2 by done. repeat case_decide; done.
Qed.

Lemma vdel_loop_strip (h : heap) self ign es :
  NoDup es -> (forall e, e ∈ es -> exists ed, h !! e = Some (OEdge ed) /\ self ∈ edge_nbrs ed) ->
  exists h', vdel_loop h self ign es = Ok h' /\ forall y, h' !! y = edge_map (vstrip self) h es y.
Proof.
  revert h. induction es as [|e es IH]; intros h Hnd Hes; simpl.
  - exists h. split; [done|]. intros y. unfold edge_map. rewrite bool_decide_eq_false_2; [done|].
    apply not_elem_of_nil.
  - apply NoDup_cons in Hnd as [He Hnd].
    destruct (Hes e ltac:(left)) as (ed & Hed & Hs).
    unfold get_edge. rewrite Hed. simpl. rewrite decide_True by done.
    destruct (IH (<[e := OEdge (vstrip self ed)]> h) Hnd) as (h' & Eh' & Hh').
    { intros e' He'. rewrite lookup_insert_ne by (intros ->; done). apply Hes. by right. }
    exists h'. split; [exact Eh'|]. intros y. rewrite Hh'. unfold edge_map.
    destruct (decide (e = y)) as [<-|Hne].
    + rewrite bool_decide_eq_false_2 by done. rewrite bool_decide_eq_true_2 by (by left).
      rewrite lookup_insert_eq, Hed. done.
    + rewrite lookup_insert_ne by done.
      assert (bool_decide (y ∈ e :: es) = bool_decide (y ∈ es)) as ->.
      { apply bool_decide_ext. rewrite elem_of_cons. naive_solver. }
      done.
Qed.

Lemma vadd_loop_attach (h : heap) self gid g ign es :
  h !! gid = Some (OGraph g) -> NoDup es ->
  (forall e, e ∈ es -> e ∈ g_edges g /\ exists ed, h !! e = Some (OEdge ed) /\
     (self ∉ edge_nbrs ed) /\ (e_v1 ed = None \/ e_v2 ed = None)) ->
  exists h', vadd_loop h self gid ign es = Ok h' /\ forall y, h' !! y = edge_map (vattach self) h es y.
Proof.
  revert h. induction es as [|e es IH]; intros h Hg Hnd Hes; simpl.
  - exists h. split; [done|]. intros y. unfold edge_map. rewrite bool_decide_eq_false_2; [done|].
    apply not_elem_of_nil.
  - apply NoDup_cons in Hnd as [He Hnd].
    destruct (Hes e ltac:(left)) as (Heg & ed & Hed & Hs & Hnone).
    assert (Hne : e <> gid) by (intros ->; congruence).
    unfold get_graph. rewrite Hg. simpl. rewrite bool_decide_eq_true_2 by done. simpl.
    unfold get_edge. rewrite Hed. simpl. rewrite decide_False by done.
    assert (Hstep : exists h1, vadd_loop (<[e := OEdge (vattach self ed)]> h) self gid ign es = Ok h1 /\
              forall y, h1 !! y = edge_map (vattach self) h (e :: es) y).
    { destruct (IH (<[e := OEdge (vattach self ed)]> h)) as (h' & Eh' & Hh').
      - by rewrite lookup_insert_ne by done.
      - done.
      - intros e' He'. rewrite lookup_insert_ne by (intros ->; done). apply Hes. by right.
      - exists h'. split; [exact Eh'|]. intros y. rewrite Hh'. unfold edge_map.
        destruct (decide (e = y)) as [<-|Hne'].
        + rewrite bool_decide_eq_false_2 by done. rewrite bool_decide_eq_true_2 by (by left).
          rewrite lookup_insert_eq, Hed. done.
        + rewrite lookup_insert_ne by done.
          assert (bool_decide (y ∈ e :: es) = bool_decide (y ∈ es)) as ->.
          { apply bool_decide_ext. rewrite elem_of_cons. naive_solver. }
          done. }
    unfold vattach in Hstep.
    destruct (decide (e_v1 ed = None)) as [H1|H1]; [exact Hstep|].
    destruct (decide (e_v2 ed = None)) as [H2|H2]; [exact Hstep|].
    destruct Hnone; contradiction.
Qed.

Lemma vstrip_detached self ed :
  self ∈ edge_nbrs ed ->
  (self ∉ edge_nbrs (vstrip self ed)) /\ (e_v1 (vstrip self ed) = None \/ e_v2 (vstrip self ed) = None).
Proof.
  destruct ed as [a [v1|] [v2|]]; unfold vstrip, edge_nbrs, set_v1, set_v2; simpl;
    repeat (case_decide; simplify_eq; simpl); intros Hs;
    repeat rewrite ?elem_of_app, ?elem_of_cons in *; set_solver.
Qed.

Lemma vertex_delete_add_general (h : heap) gid g self v ign :
  h !! gid = Some (OGraph g) -> h !! self = Some (OVertex v) -> self ∈ g_vertices g ->
  NoDup (v_edges v) ->
  (forall e, e ∈ v_edges v -> e ∈ g_edges g /\
     exists ed, h !! e = Some (OEdge ed) /\ self ∈ edge_nbrs ed) ->
  exists h1 h2, vertex_delete_from h self gid ign = Ok h1 /\ vertex_add_to h1 self gid ign = Ok h2 /\
    forall y, h2 !! y =
      if decide (y = gid) then Some (OGraph (set_vertices g (list_remove self (g_vertices g) ++ [self])))
      else edge_map (fun ed => vattach self (vstrip self ed)) h (v_edges v) y.
Proof.
  intros Hg Hv Hsg Hnd Hes.
  assert (Hsgid : self <> gid) by (intros ->; congruence).
  assert (Hegid : forall e, e ∈ v_edges v -> e <> gid).
  { intros e He ->. destruct (Hes gid He) as (_ & ed & Hed & _). congruence. }
  assert (Heself : forall e, e ∈ v_edges v -> e <> self).
  { intros e He ->. destruct (Hes self He) as (_ & ed & Hed & _). congruence. }
  set (gd := set_vertices g (list_remove self (g_vertices g))).
  set (h0 := <[gid := OGraph gd]> h).
  destruct (vdel_loop_strip h0 self ign (v_edges v) Hnd) as (h1 & Eh1 & Hh1).
  { intros e He. unfold h0. rewrite lookup_insert_ne by (symmetry; by apply Hegid).
    destruct (Hes e He) as (_ & ed & Hed & Hs). eauto. }
  assert (Hh1gid : h1 !! gid = Some (OGraph gd)).
  { rewrite Hh1. unfold edge_map. rewrite bool_decide_eq_false_2 by (intros Hc; by apply (Hegid gid Hc)).
    unfold h0. by rewrite lookup_insert_eq. }
  assert (Hh1self : h1 !! self = Some (OVertex v)).
  { rewrite Hh1. unfold edge_map. rewrite bool_decide_eq_false_2 by (intros Hc; by apply (Heself self Hc)).
    unfold h0. by rewrite lookup_insert_ne. }
  set (g' := set_vertices gd (g_vertices gd ++ [self])).
  set (h1' := <[gid := OGraph g']> h1).
  destruct (vadd_loop_attach h1' self gid g' ign (v_edges v)) as (h2 & Eh2 & Hh2).
  { unfold h1'. by rewrite lookup_insert_eq. }
  { done. }
  { intros e He. destruct (Hes e He) as (Heg & ed & Hed & Hs). split; [done|].
    exists (vstrip self ed). unfold h1'. rewrite lookup_insert_ne by (symmetry; by apply Hegid).
    rewrite Hh1. unfold edge_map. rewrite bool_decide_eq_true_2 by done.
    unfold h0. rewrite lookup_insert_ne by (symmetry; by apply Hegid). rewrite Hed.
    split; [done|]. by apply vstrip_detached. }
  exists h1, h2. split; [|split].
  - unfold vertex_delete_from, get_graph, py_remove, get_vertex. rewrite Hg. simpl.
    rewrite decide_True by done. simpl. rewrite Hv. simpl. exact Eh1.
  - unfold vertex_add_to, get_graph, get_vertex. rewrite Hh1gid, Hh1self. simpl. exact Eh2.
  - intros y. rewrite Hh2. unfold edge_map, h1'. destruct (decide (y = gid)) as [->|Hyg].
    + rewrite bool_decide_eq_false_2 by (intros Hc; by apply (Hegid gid Hc)).
      by rewrite lookup_insert_eq.
    + rewrite lookup_insert_ne by done. rewrite Hh1. unfold edge_map, h0.
      rewrite lookup_insert_ne by done.
      destruct (bool_decide (y ∈ v_edges v)); [|done].
      destruct (h !! y) as [[]|]; done.
Qed.

(** [Vertex.delete_from] followed by [Vertex.add_to] restores every
    incident edge with two endpoints that is not a self-loop; the only
    change is that the vertex moves to the end of [graph.vertices]. *)
Theorem vertex_delete_add_roundtrip (h : heap) gid g self v ign :
  h !! gid = Some (OGraph g) -> h !! self = Some (OVertex v) -> self ∈ g_vertices g ->
  NoDup (v_edges v) ->
  (forall e, e ∈ v_edges v -> e ∈ g_edges g /\ exists ed w, h !! e = Some (OEdge ed) /\ w <> self /\
     ((e_v1 ed = Some self /\ e_v2 ed = Some w) \/ (e_v1 ed = Some w /\ e_v2 ed = Some self))) ->
  exists h1, vertex_delete_from h self gid ign = Ok h1 /\
    vertex_add_to h1 self gid ign =
      Ok (<[gid := OGraph (set_vertices g (list_remove self (g_vertices g) ++ [self]))]> h).
Proof.
  intros Hg Hv Hsg Hnd Hes.
  destruct (vertex_delete_add_general h gid g self v ign Hg Hv Hsg Hnd) as (h1 & h2 & E1 & E2 & Hh2).
  { intros e He. destruct (Hes e He) as (Heg & ed & w & Hed & Hw & Hends). split; [done|].
    exists ed. split; [done|]. unfold edge_nbrs.
    destruct Hends as [[-> ->]|[-> ->]]; simpl; set_solver. }
  exists h1. split; [done|]. rewrite E2. f_equal. apply map_eq. intros y. rewrite Hh2.
  destruct (decide (y = gid)) as [->|Hyg]; [by rewrite lookup_insert_eq|].
  rewrite lookup_insert_ne by done. unfold edge_map.
  destruct (bool_decide (y ∈ v_edges v)) eqn:Hy; [|done].
  apply bool_decide_eq_true in Hy. destruct (Hes y Hy) as (_ & ed & w & Hed & Hw & Hends).
  rewrite Hed. f_equal. f_equal. destruct ed as [a v1 v2]; simpl in *.
  unfold vstrip, vattach, set_v1, set_v2; simpl.
  destruct Hends as [[-> ->]|[-> ->]]; repeat (case_decide; simpl in *; simplify_eq; simpl in *); done.
Qed.

(** [Vertex.delete_from] followed by [Vertex.add_to] turns a self-loop
    of the vertex into an edge whose [vertex2] is [None]. *)
Theorem vertex_delete_add_self_loop (h : heap) gid g self v ign e ed :
  h !! gid = Some (OGraph g) -> h !! self = Some (OVertex v) -> self ∈ g_vertices g ->
  NoDup (v_edges v) ->
  (forall e', e' ∈ v_edges v -> e' ∈ g_edges g /\
     exists ed', h !! e' = Some (OEdge ed') /\ self ∈ edge_nbrs ed') ->
  e ∈ v_edges v -> h !! e = Some (OEdge ed) -> e_v1 ed = Some self -> e_v2 ed = Some self ->
  exists h1 h2, vertex_delete_from h self gid ign = Ok h1 /\ vertex_add_to h1 self gid ign = Ok h2 /\
    h2 !! e = Some (OEdge (mkEdge (e_attr ed) (Some self) None)).
Proof.
  intros Hg Hv Hsg Hnd Hes He Hed H1 H2.
  destruct (vertex_delete_add_general h gid g self v ign Hg Hv Hsg Hnd Hes) as (h1 & h2 & E1 & E2 & Hh2).
  exists h1, h2. split; [done|]. split; [done|]. rewrite Hh2.
  rewrite decide_False by (intros ->; congruence).
  unfold edge_map. rewrite bool_decide_eq_true_2 by done. rewrite Hed.
  destruct ed as [a v1 v2]; simpl in *. subst.
  unfold vstrip, vattach, set_v1, set_v2; simpl. repeat (case_decide; simpl in *; simplify_eq; simpl in *); done.
Qed.

Lemma set_add_fresh x (s : list nat) : x ∉ s -> set_add x s = s ++ [x].
Proof. unfold set_add. intros Hx. by rewrite decide_False. Qed.

(** [Edge.delete_from] followed by [Edge.add_to] on an edge between two
    distinct vertices restores the heap up to order: the edge moves to the
    end of [graph.edges] and of the [edges] of both endpoints. *)
Theorem edge_delete_add_roundtrip (h : heap) gid g x ed w1 wv1 w2 wv2 ign :
  h !! gid = Some (OGraph g) -> x ∈ g_edges g -> h !! x = Some (OEdge ed) ->
  e_v1 ed = Some w1 -> e_v2 ed = Some w2 -> w1 <> w2 ->
  h !! w1 = Some (OVertex wv1) -> h !! w2 = Some (OVertex wv2) ->
  w1 ∈ g_vertices g -> w2 ∈ g_vertices g ->
  x ∈ v_edges wv1 -> x ∈ v_edges wv2 -> NoDup (v_edges wv1) -> NoDup (v_edges wv2) ->
  exists h1, edge_delete_from h x gid ign = Ok h1 /\
    edge_add_to h1 x gid ign =
      Ok (<[w2 := OVertex (set_vedges wv2 (list_remove x (v_edges wv2) ++ [x]))]>
          (<[w1 := OVertex (set_vedges wv1 (list_remove x (v_edges wv1) ++ [x]))]>
           (<[gid := OGraph (set_edges g (list_remove x (g_edges g) ++ [x]))]> h))).
Proof.
  intros Hg Hx Hed H1 H2 Hw12 Hw1 Hw2 Hw1g Hw2g Hx1 Hx2 Hnd1 Hnd2.
  assert (w1 <> gid) by (intros ->; congruence).
  assert (w2 <> gid) by (intros ->; congruence).
  assert (x <> gid) by (intros ->; congruence).
  assert (x <> w1) by (intros ->; congruence).
  assert (x <> w2) by (intros ->; congruence).
  pose proof (list_remove_notin x _ Hnd1) as Hn1.
  pose proof (list_remove_notin x _ Hnd2) as Hn2.
  eexists. split.
  - unfold edge_delete_from, get_graph, py_remove, get_edge. rewrite Hg, Hed. simpl.
    rewrite decide_True by done. simpl. rewrite H1, H2. simpl.
    unfold get_vertex. rewrite lookup_insert_ne by done. rewrite Hw1. simpl.
    rewrite decide_True by done. simpl.
    rewrite !lookup_insert_ne by done. rewrite Hw2. simpl.
    rewrite decide_True by done. simpl. reflexivity.
  - unfold edge_add_to, get_graph, get_edge.
    repeat (rewrite lookup_insert_eq || (rewrite lookup_insert_ne by done)). rewrite Hed. simpl.
    unfold edge_nbrs. rewrite H1, H2. simpl. unfold get_graph, get_vertex.
    repeat (rewrite lookup_insert_eq || (rewrite lookup_insert_ne by done)). simpl.
    rewrite bool_decide_eq_true_2 by done. simpl.
    repeat (rewrite lookup_insert_eq || (rewrite lookup_insert_ne by done)). simpl.
    rewrite bool_decide_eq_true_2 by done. simpl.
    repeat (rewrite lookup_insert_eq || (rewrite lookup_insert_ne by done)). simpl.
    rewrite !set_add_fresh by done. f_equal.
    apply map_eq. intros y. rewrite !lookup_insert.
    repeat case_decide; simplify_eq; done.
Qed.

(** ** [Graph.add]: the ['.generation'] stamp *)

Definition obj_attr (o : obj) : option attrs :=
  match o with
  | OVertex v => Some (v_attr v)
  | OEdge e => Some (e_attr e)
  | OFace f => Some (f_attr f)
  | OGraph _ => None
  end.

Lemma elem_attr_obj (h : heap) y : elem_attr h y = match h !! y with Some o => obj_attr o | None => None end.
Proof. unfold elem_attr. by destruct (h !! y) as [[]|]. Qed.

Lemma elem_attr_insert (h : heap) y o o' :
  h !! y = Some o -> obj_attr o' = obj_attr o ->
  forall z, elem_attr (<[y := o']> h) z = elem_attr h z.
Proof.
  intros Hy Ho z. rewrite !elem_attr_obj. destruct (decide (y = z)) as [<-|Hne].
  - by rewrite lookup_insert_eq, Hy.
  - by rewrite lookup_insert_ne.
Qed.

Lemma vadd_loop_attr (h : heap) self gid ign es h' :
  vadd_loop h self gid ign es = Ok h' -> forall z, elem_attr h' z = elem_attr h z.
Proof.
  revert h. induction es as [|e es IH]; intros h Hl; simpl in Hl.
  - by injection Hl as <-.
  - bind_inv Hl g Eg. bind_inv Hl bad Ebad. destruct bad; [discriminate|].
    bind_inv Hl ed E1. apply get_edge_Some in E1.
    destruct (decide (self ∈ edge_nbrs ed)); [by apply (IH h)|].
    destruct (decide (e_v1 ed = None)).
    { intros z. rewrite (IH _ Hl z). by apply (elem_attr_insert _ _ (OEdge ed)). }
    destruct (decide (e_v2 ed = None)).
    { intros z. rewrite (IH _ Hl z). by apply (elem_attr_insert _ _ (OEdge ed)). }
    bind_inv Hl b Eb. destruct b; [by apply (IH h)|discriminate].
Qed.

Lemma eadd_loop_attr (h : heap) self gid ign ws h' :
  eadd_loop h self gid ign ws = Ok h' -> forall z, elem_attr h' z = elem_attr h z.
Proof.
  revert h. induction ws as [|w ws IH]; intros h Hl; simpl in Hl.
  - by injection Hl as <-.
  - bind_inv Hl g Eg. bind_inv Hl bad Ebad. destruct bad; [discriminate|].
    bind_inv Hl wv E1. apply get_vertex_Some in E1.
    intros z. rewrite (IH _ Hl z). by apply (elem_attr_insert _ _ (OVertex wv)).
Qed.

Lemma element_add_to_attr (h : heap) x gid ign h' :
  element_add_to h x gid ign = Ok h' -> forall z, elem_attr h' z = elem_attr h z.
Proof.
  unfold element_add_to. destruct (h !! x) as [[v0|e0|f0|g0]|] eqn:Ex; try discriminate.
  - unfold vertex_add_to. intros Hl. bind_inv Hl g1 E. bind_inv Hl v1 E0.
    apply get_graph_Some in E. intros z. rewrite (vadd_loop_attr _ _ _ _ _ _ Hl z).
    by apply (elem_attr_insert _ _ (OGraph g1)).
  - unfold edge_add_to. intros Hl. bind_inv Hl g1 E. bind_inv Hl x0 E0.
    apply get_graph_Some in E. intros z. rewrite (eadd_loop_attr _ _ _ _ _ _ Hl z).
    by apply (elem_attr_insert _ _ (OGraph g1)).
Qed.

Lemma set_attr_elem_attr (h : heap) x k v a h' :
  elem_attr h x = Some a -> set_attr h x k v = Ok h' -> elem_attr h' x = Some (dset k v a).
Proof.
  unfold set_attr, elem_attr. destruct (h !! x) as [[]|] eqn:E; intros Ha; try discriminate;
    injection Ha as <-; simpl; intros [= <-]; by rewrite lookup_insert_eq.
Qed.

(** [Graph.add] keeps an existing ['.generation'] of the element and
    otherwise stamps it with [get_max_generation] of the graph, computed
    before the element is added; adding never changes any attribute
    otherwise. *)
Theorem graph_add_generation int_of_string (h : heap) gid g x ign a h' :
  h !! gid = Some (OGraph g) -> elem_attr h x = Some a ->
  graph_add int_of_string h gid x ign = Ok h' ->
  (forall g0, dget ".generation"%string a = Some g0 -> elem_attr h' x = Some a) /\
  (dget ".generation"%string a = None -> exists els m,
     graph_iter h g = Ok els /\ max_generation int_of_string h els 0 = Ok m /\
     elem_attr h' x = Some (dset ".generation"%string (VInt m) a)).
Proof.
  intros Hg Ha. unfold graph_add, get_attr. rewrite Ha. simpl.
  destruct (dget ".generation"%string a) as [g0|] eqn:Eg.
  - intros Hl. split; [|discriminate]. intros _ _.
    rewrite (element_add_to_attr _ _ _ _ _ Hl x). done.
  - intros Hl. bind_inv Hl h1 E1. split; [discriminate|]. intros _.
    unfold get_graph in E1. rewrite Hg in E1. simpl in E1.
    bind_inv E1 els Eels. bind_inv E1 m Em. exists els, m. split; [done|]. split; [done|].
    rewrite (element_add_to_attr _ _ _ _ _ Hl x). by apply (set_attr_elem_attr h).
Qed.

(** *** Instances *)

Ltac dec := apply (bool_decide_unpack _); vm_compute; reflexivity.

Definition w_ios (s : string) : res Z := Err ValueError.

Definition w_heap : heap :=
  <[0 := OGraph (mkGraph [1; 2] [3] [])]> (
  <[1 := OVertex (mkVertex [(".generation"%string, VInt 3)] [3])]> (
  <[2 := OVertex (mkVertex [(".generation"%string, VInt 5)] [3])]> (
  <[3 := OEdge (mkEdge [(".generation"%string, VInt 4)] (Some 1) (Some 2))]> (
  <[4 := OVertex (mkVertex [] [])]> ∅)))).

(** [w_heap] with the graph's vertex [1] listed twice. *)
Definition w_heap_rep : heap := <[0 := OGraph (mkGraph [1; 2; 1] [3] [])]> w_heap.

Definition w_loop_heap : heap :=
  <[0 := OGraph (mkGraph [1] [3] [])]> (
  <[1 := OVertex (mkVertex [] [3])]> (
  <[3 := OEdge (mkEdge [] (Some 1) (Some 1))]> ∅)).

Definition w_qdiv (a b : Z) : Q := inject_Z a / inject_Z b.
Definition w_qgt (a b : Q) : bool := negb (Qle_bool a b).

Definition w_randbelow (r n : nat) : nat * nat := (r mod n, S r).

Lemma get_other_vertex_twice_witness :
  get_other_vertex (mkEdge [] (Some 1) (Some 2)) (Some 2) = Ok (Some 1).
Proof.
  apply (get_other_vertex_twice (mkEdge [] (Some 1) (Some 2)) (Some 1) (Some 2));
    [discriminate|reflexivity].
Defined.

Lemma max_generation_bounds_witness :
  max_generation w_ios w_heap [1; 2; 3] 0 = Ok 5%Z /\
  (0 <= 5)%Z /\ (forall x z, x ∈ [1; 2; 3] -> elem_gen w_ios w_heap x = Ok z -> (z <= 5)%Z) /\
  (5%Z = 0%Z \/ exists x, x ∈ [1; 2; 3] /\ elem_gen w_ios w_heap x = Ok 5%Z).
Proof.
  split; [vm_compute; reflexivity|].
  apply (max_generation_bounds w_ios w_heap [1; 2; 3] 0 5). vm_compute. reflexivity.
Defined.

Lemma get_generations_spec_witness :
  get_generations w_ios w_heap [1; 2; 3] = Ok [(3%Z, 1%Z); (5%Z, 1%Z); (4%Z, 1%Z)] /\
  NoDup (dkeys [(3%Z, 1%Z); (5%Z, 1%Z); (4%Z, 1%Z)]) /\
  forall z, dget z [(3%Z, 1%Z); (5%Z, 1%Z); (4%Z, 1%Z)] =
    if gen_count w_ios w_heap [1; 2; 3] z =? 0 then None
    else Some (Z.of_nat (gen_count w_ios w_heap [1; 2; 3] z)).
Proof.
  split; [vm_compute; reflexivity|].
  apply (get_generations_spec w_ios w_heap [1; 2; 3]). vm_compute. reflexivity.
Defined.

Lemma gen_eq_spec_witness :
  gen_eq [(1%Z, 2%Z); (3%Z, 1%Z)] [(3%Z, 1%Z); (1%Z, 2%Z)] = true <->
  forall z, dget z [(1%Z, 2%Z); (3%Z, 1%Z)] = dget z [(3%Z, 1%Z); (1%Z, 2%Z)].
Proof. apply gen_eq_spec; dec. Defined.



Lemma select_option_spec_witness :
  (select_option w_randbelow Z.of_nat [0; 2; 3] 7 = Err ValueError <->
   total_weight Z.of_nat [0; 2; 3] = 0%Z) /\
  (forall o r', select_option w_randbelow Z.of_nat [0; 2; 3] 7 = Ok (o, r') ->
     o ∈ [0; 2; 3] /\ (0 < Z.of_nat o)%Z).
Proof.
  apply select_option_spec.
  - intros r n Hn. simpl. apply Nat.mod_upper_bound. lia.
  - intros o _. lia.
Defined.

Lemma select_go_weighted_witness :
  length (List.filter (select_hits Z.of_nat [0; 2; 3] 2)
    (seq 0 (Z.to_nat (total_weight Z.of_nat [0; 2; 3])))) = 2.
Proof.
  apply (select_go_weighted Z.of_nat [0; 2; 3] 2).
  - intros o _. lia.
  - dec.
  - dec.
Defined.

Lemma mapping_set_stale_inverse_witness :
  dget 1 (m_items (mapping_set 1 20 (mapping_of [(1, 10)]))) = Some 20 /\
  dget 20 (m_inv (mapping_set 1 20 (mapping_of [(1, 10)]))) = Some 1 /\
  dget 10 (m_inv (mapping_set 1 20 (mapping_of [(1, 10)]))) = Some 1.
Proof.
  apply (mapping_set_stale_inverse (mapping_of [(1, 10)]) 1 10 20);
    [reflexivity|reflexivity|lia].
Defined.

Lemma mapping_del_set_witness :
  mapping_del 2 (mapping_set 2 20 (mapping_of [(1, 10)])) = Ok (mapping_of [(1, 10)]).
Proof. apply mapping_del_set; dec. Defined.

Lemma edge_discard_self_loop_witness :
  graph_discard w_loop_heap 0 3 None = Err TypeError /\
  (forall I, 1 ∉ I -> graph_discard w_loop_heap 0 3 (Some I) = Err IncongruentGraphState).
Proof.
  apply (edge_discard_self_loop w_loop_heap 0 (mkGraph [1] [3] []) 3 (mkEdge [] (Some 1) (Some 1))
           1 (mkVertex [] [3])); try reflexivity; dec.
Defined.

Lemma vertex_delete_add_roundtrip_witness :
  exists h1, vertex_delete_from w_heap 1 0 None = Ok h1 /\
    vertex_add_to h1 1 0 None = Ok (<[0 := OGraph (mkGraph [2; 1] [3] [])]> w_heap).
Proof.
  apply (vertex_delete_add_roundtrip w_heap 0 (mkGraph [1; 2] [3] []) 1
           (mkVertex [(".generation"%string, VInt 3)] [3]) None); try reflexivity; try dec.
  intros e He. apply list_elem_of_singleton in He as ->. split; [dec|].
  exists (mkEdge [(".generation"%string, VInt 4)] (Some 1) (Some 2)), 2.
  split; [reflexivity|]. split; [lia|]. left. split; reflexivity.
Defined.

Lemma vertex_delete_add_self_loop_witness :
  exists h1 h2, vertex_delete_from w_loop_heap 1 0 None = Ok h1 /\
    vertex_add_to h1 1 0 None = Ok h2 /\ h2 !! 3 = Some (OEdge (mkEdge [] (Some 1) None)).
Proof.
  apply (vertex_delete_add_self_loop w_loop_heap 0 (mkGraph [1] [3] []) 1 (mkVertex [] [3]) None 3
           (mkEdge [] (Some 1) (Some 1))); try reflexivity; try dec.
  intros e He. apply list_elem_of_singleton in He as ->. split; [dec|].
  exists (mkEdge [] (Some 1) (Some 1)). split; [reflexivity|dec].
Defined.

Lemma edge_delete_add_roundtrip_witness :
  exists h1, edge_delete_from w_heap 3 0 None = Ok h1 /\
    edge_add_to h1 3 0 None =
      Ok (<[2 := OVertex (mkVertex [(".generation"%string, VInt 5)] [3])]>
          (<[1 := OVertex (mkVertex [(".generation"%string, VInt 3)] [3])]>
           (<[0 := OGraph (mkGraph [1; 2] [3] [])]> w_heap))).
Proof.
  apply (edge_delete_add_roundtrip w_heap 0 (mkGraph [1; 2] [3] []) 3
           (mkEdge [(".generation"%string, VInt 4)] (Some 1) (Some 2))
           1 (mkVertex [(".generation"%string, VInt 3)] [3])
           2 (mkVertex [(".generation"%string, VInt 5)] [3]) None); try reflexivity; try dec; lia.
Defined.

Lemma graph_add_generation_witness :
  (exists h', graph_add w_ios w_heap 0 4 None = Ok h' /\
  ((forall g0, dget ".generation"%string ([] : attrs) = Some g0 -> elem_attr h' 4 = Some []) /\
   (dget ".generation"%string ([] : attrs) = None -> exists els m,
      graph_iter w_heap (mkGraph [1; 2] [3] []) = Ok els /\
      max_generation w_ios w_heap els 0 = Ok m /\
      elem_attr h' 4 = Some (dset ".generation"%string (VInt m) ([] : attrs))))) /\
  (exists h', graph_add w_ios w_heap_rep 0 4 None = Ok h' /\
  ((forall g0, dget ".generation"%string ([] : attrs) = Some g0 -> elem_attr h' 4 = Some []) /\
   (dget ".generation"%string ([] : attrs) = None -> exists els m,
      graph_iter w_heap_rep (mkGraph [1; 2; 1] [3] []) = Ok els /\
      max_generation w_ios w_heap_rep els 0 = Ok m /\
      elem_attr h' 4 = Some (dset ".generation"%string (VInt m) ([] : attrs))))).
Proof.
  split.
  - eexists. split; [vm_compute; reflexivity|].
    apply (graph_add_generation w_ios w_heap 0 (mkGraph [1; 2] [3] []) 4 None []);
      vm_compute; reflexivity.
  - eexists. split; [vm_compute; reflexivity|].
    apply (graph_add_generation w_ios w_heap_rep 0 (mkGraph [1; 2; 1] [3] []) 4 None []);
      vm_compute; reflexivity.
Defined.

(** ** Two seeded runs of [Grammar.apply] *)

(** A rule text for the attribute ['n']: one more than the ['n'] of the
    other endpoint of an incident edge once that one is a number, [0]
    otherwise. *)
Definition c9_text : string :=
  "next((v.attr['n'] + 1 for e in self_.edges for v in (e.vertex1, e.vertex2) if v is not None and v is not self_ and isinstance(v.attr.get('n'), int)), 0)".

(** The value [c9_text] evaluates to for [self_ = target], on the heap of
    the moment of evaluation. *)
Definition c9_n (h : heap) (self v : nat) : option Z :=
  if decide (v = self) then None else
  match elem_attr h v with
  | Some a => match dget "n"%string a with
              | Some (VInt z) => Some z
              | Some (VBool b) => Some (if b then 1%Z else 0%Z)
              | _ => None
              end
  | None => None
  end.

Definition c9_attr_value (env : unit) (h : heap) (hy : hierarchy) (d : nat) (name : string)
    (text : value) (old target : option nat) : res value :=
  t <- need target ;;
  v <- get_vertex h t ;;
  eds <- map_res (get_edge h) (v_edges v) ;;
  let cands := flat_map (fun ed => opt_list (e_v1 ed) ++ opt_list (e_v2 ed)) eds in
  Ok (VInt (default 0%Z (option_map (fun z => (z + 1)%Z) (head (omap (c9_n h t) cands))))).

(** Host [100]: one vertex with a label.  Mother [200]: one vertex.
    Daughter [300]: the mapped vertex [21] and a new vertex [23] joined by
    an edge, both with ['n'] given by [c9_text]. *)
Definition c9_heap : heap :=
  list_to_map [(100, OGraph (mkGraph [1] [] []));
               (1, OVertex (mkVertex [("label"%string, VStr "a"); (".generation"%string, VInt 1)] []));
               (200, OGraph (mkGraph [11] [] []));
               (11, OVertex (mkVertex [] []));
               (300, OGraph (mkGraph [21; 23] [22] []));
               (21, OVertex (mkVertex [("n"%string, VStr c9_text)] [22]));
               (23, OVertex (mkVertex [("n"%string, VStr c9_text)] [22]));
               (22, OEdge (mkEdge [] (Some 21) (Some 23)))].

Definition c9_map : mapping := mapping_of [(11, 21)].

Definition c9_option : app_option :=
  mkAppOption 200 300 c9_map
    (make_option c9_heap (mkGraph [11] [] []) c9_map (mkGraph [21; 23] [22] [])).

(** [production.match(host)]: [host.match(mother_graph, eval_attrs=True)]. *)
Definition c9_pmatch (p : unit) (hg : heap * nat) : res (list mapping) :=
  H <- get_graph hg.1 hg.2 ;;
  M <- get_graph hg.1 200 ;;
  graph_match hg.1 c1_ev H M true.

(** One derivation step of [Grammar.apply] with the production of the
    single option [c9_option]: [select_option()], [_select_match]
    ([random.randint(0, len(matches) - 1)]) and [production.apply], which
    calls [select_option()] again; [ord] is the set iteration order of
    the run. *)
Definition c9_papply (ord : forall A : Type, list A -> list A) (p : unit) (hg : heap * nat)
    (ms : list mapping) (r : nat) : res ((heap * nat) * nat) :=
  x <- select_option w_randbelow (fun _ => 1%Z) [c9_option] r ;;
  let '(_, r1) := x in
  let '(i, r2) := w_randbelow r1 (length ms) in
  m <- match nth_error ms i with Some m => Ok m | None => Err ValueError end ;;
  y <- select_option w_randbelow (fun _ => 1%Z) [c9_option] r2 ;;
  let '(o, r3) := y in
  z <- production_apply unit (fun _ _ _ => Ok tt) (fun _ _ _ _ => Ok (VInt 0, VInt 0))
         c9_attr_value (fun _ _ _ _ _ _ _ => Ok (VInt 0, VInt 0)) (fun _ => Err ValueError)
         ord hg.1 hg.2 m o ;;
  let '(rg, h') := z in
  Ok ((h', rg), r3).

(** [Grammar.apply(host, {all: 1})] with the generator state [0]. *)
Definition c9_grammar (ord : forall A : Type, list A -> list A) : res (list (heap * nat)) :=
  grammar_apply w_randbelow (fun _ => 0%Z) c9_pmatch (c9_papply ord) [tt] (Some [])
    3 (c9_heap, 100) (Some [(SKAll, 1)]) 0.

(** Two set iteration orders (CPython orders a set of graph elements by
    their [id]-based hashes). *)
Definition c9_ord_id : forall A : Type, list A -> list A := fun _ l => l.
Definition c9_ord_rev : forall A : Type, list A -> list A := fun _ l => rev l.

(** Python dict equality. *)
Definition same_attrs (a b : attrs) : Prop := forall k, dget k a = dget k b.

Definition graph_elements (g : graph) : list nat := g_vertices g ++ g_edges g ++ g_faces g.

(** A map of the elements of [g1] into those of [g2] that keeps each
    element's attribute dict; an isomorphism with equal attributes is one. *)
Definition attr_preserving (h1 : heap) (g1 : graph) (h2 : heap) (g2 : graph) (f : nat -> nat)
    : Prop :=
  forall x, x ∈ graph_elements g1 -> f x ∈ graph_elements g2 /\
    exists a b, elem_attr h1 x = Some a /\ elem_attr h2 (f x) = Some b /\ same_attrs a b.

(** Two result graphs (heap and address) agree up to such a map. *)
Definition results_agree (r1 r2 : heap * nat) : Prop :=
  exists g1 g2 f, r1.1 !! r1.2 = Some (OGraph g1) /\ r2.1 !! r2.2 = Some (OGraph g2) /\
    attr_preserving r1.1 g1 r2.1 g2 f.

Definition c9_result (ord : forall A : Type, list A -> list A) : heap :=
  match c9_grammar ord with Ok [(h, _)] => h | _ => ∅ end.

Lemma c9_grammar_id : c9_grammar c9_ord_id = Ok [(c9_result c9_ord_id, 302)].
Proof. vm_compute. reflexivity. Qed.

Lemma c9_grammar_rev : c9_grammar c9_ord_rev = Ok [(c9_result c9_ord_rev, 302)].
Proof. vm_compute. reflexivity. Qed.

Lemma c9_result_graphs :
  c9_result c9_ord_id !! 302 = Some (OGraph (mkGraph [301; 304] [305] [])) /\
  c9_result c9_ord_rev !! 302 = Some (OGraph (mkGraph [301; 304] [305] [])).
Proof. vm_compute. split; reflexivity. Qed.

Lemma c9_result_attrs :
  elem_attr (c9_result c9_ord_id) 301 =
    Some [("label"%string, VStr "a"); (".generation"%string, VInt 1); ("n"%string, VInt 1)] /\
  dget "n"%string <$> elem_attr (c9_result c9_ord_rev) 301 = Some (Some (VInt 0)) /\
  dget "label"%string <$> elem_attr (c9_result c9_ord_rev) 304 = Some None /\
  dget "label"%string <$> elem_attr (c9_result c9_ord_rev) 305 = Some None.
Proof. vm_compute. split_and!; reflexivity. Qed.

